(** * pkg/meta/dump.go: metadata dump and load

    A shallow embedding of the escaping codec ([escape], [parseHex],
    [unescape]), of the streaming node writer ([writeJSON],
    [writeJsonWithOutEntry]), of the hardlink-resolving collector
    ([collectEntry]) and of the attribute mapper ([dumpAttr], [loadAttr])
    of JuiceFS, with the properties of the specification stated and
    proved over them.

    Conventions.  A Go [string] is a [string] (a sequence of bytes, each
    an [ascii]); a [[]byte] is a [list ascii]; fixed-width integers are
    [N] or [Z] with the wrap-around of their width written out; a Go map
    is a [gmap]; a nil pointer is [None]; a panic is kept apart
    from a returned error. *)

From Stdlib Require Import Ascii String NArith ZArith Lia List DecimalString.
From stdpp Require Import gmap strings list fin_maps.


(** ** Bytes *)

Module Bytes.

Definition byte_of_N (n : N) : ascii := ascii_of_N (n mod 256).

Definition bytes (s : string) : list ascii := list_ascii_of_string s.

Definition str (b : list ascii) : string := string_of_list_ascii b.

End Bytes.

(** ** unicode/utf8 as used by a [range] loop over a string

    The Go language and its [unicode/utf8] package decide how a string is
    cut into runes.  [decodeRune] follows [utf8.DecodeRuneInString]: the
    table [first] with its accept ranges, and width 1 with [RuneError]
    on every ill-formed sequence. *)

Module utf8.

Definition RuneError : N := 65533.

Definition locb : N := 128.
Definition hicb : N := 191.

(** [first[s0]] of the Go table: [None] is ASCII or illegal (the entries
    [as] and [xx]); [Some (size, lo, hi)] gives the sequence length and
    the accept range of the second byte. *)
Definition first (s0 : N) : option (nat * N * N) :=
  if (s0 <? 194)%N then None                       (* 00-7F as, 80-C1 xx *)
  else if (s0 <? 224)%N then Some (2%nat, locb, hicb)      (* C2-DF s1 *)
  else if (s0 =? 224)%N then Some (3%nat, 160, hicb)%N     (* E0    s2 *)
  else if (s0 <? 237)%N then Some (3%nat, locb, hicb)      (* E1-EC s3 *)
  else if (s0 =? 237)%N then Some (3%nat, locb, 159)%N     (* ED    s4 *)
  else if (s0 <? 240)%N then Some (3%nat, locb, hicb)      (* EE-EF s3 *)
  else if (s0 =? 240)%N then Some (4%nat, 144, hicb)%N     (* F0    s5 *)
  else if (s0 <? 244)%N then Some (4%nat, locb, hicb)      (* F1-F3 s6 *)
  else if (s0 =? 244)%N then Some (4%nat, locb, 143)%N     (* F4    s7 *)
  else None.                                               (* F5-FF xx *)

Definition cont (b : N) : N := N.land b 63.

(** The rune and the width decoded at the head of [s]; [(RuneError, 0)]
    on the empty sequence. *)
Definition decodeRune (s : list ascii) : N * nat :=
  match s with
  | [] => (RuneError, 0%nat)
  | c0 :: t =>
    let s0 := N_of_ascii c0 in
    match first s0 with
    | None => if (s0 <? 128)%N then (s0, 1%nat) else (RuneError, 1%nat)
    | Some (sz, lo, hi) =>
      if (List.length s <? sz)%nat then (RuneError, 1%nat) else
      match t with
      | [] => (RuneError, 1%nat)
      | c1 :: t1 =>
        let s1 := N_of_ascii c1 in
        if ((s1 <? lo) || (hi <? s1))%N then (RuneError, 1%nat) else
        if (sz <=? 2)%nat
        then (N.lor (N.shiftl (N.land s0 31) 6) (cont s1), 2%nat) else
        match t1 with
        | [] => (RuneError, 1%nat)
        | c2 :: t2 =>
          let s2 := N_of_ascii c2 in
          if ((s2 <? locb) || (hicb <? s2))%N then (RuneError, 1%nat) else
          if (sz <=? 3)%nat
          then (N.lor (N.lor (N.shiftl (N.land s0 15) 12)
                             (N.shiftl (cont s1) 6)) (cont s2), 3%nat) else
          match t2 with
          | [] => (RuneError, 1%nat)
          | c3 :: _ =>
            let s3 := N_of_ascii c3 in
            if ((s3 <? locb) || (hicb <? s3))%N then (RuneError, 1%nat) else
            (N.lor (N.lor (N.lor (N.shiftl (N.land s0 7) 18)
                                 (N.shiftl (cont s1) 12))
                          (N.shiftl (cont s2) 6)) (cont s3), 4%nat)
          end
        end
      end
    end
  end.

(** [utf8.RuneLen]: the number of bytes that encode the rune, [None] for
    the Go result -1. *)
Definition RuneLen (r : N) : option nat :=
  if (r <=? 127)%N then Some 1%nat
  else if (r <=? 2047)%N then Some 2%nat
  else if ((55296 <=? r) && (r <=? 57343))%N then None
  else if (r <=? 65535)%N then Some 3%nat
  else if (r <=? 1114111)%N then Some 4%nat
  else None.

End utf8.

(** ** The escaping codec *)

Module Codec.
Import Bytes.

Definition CHARS : list ascii := bytes "0123456789ABCDEF"%string.

(** [original[i:j]]; [None] when the bounds are out of range. *)
Definition slice (s : list ascii) (i j : nat) : option (list ascii) :=
  if decide (i ≤ j ≤ List.length s)%nat
  then Some (take (j - i) (drop i s)) else None.

(** The body of the [range] loop of [escape] at byte offset [i], rune [r]:
    the new [escValue], which is [nil] when it is [None].  The outer
    [option] is [None] when an index is out of range. *)
Definition escape_step (original : list ascii) (i : nat) (r : N)
    (escValue : option (list ascii)) : option (option (list ascii)) :=
  if ((r =? utf8.RuneError) || (r <? 32) || (r =? 37) || (r =? 34)
      || (r =? 92))%N then
    let escValue :=
      match escValue with
      | None => take i original        (* copy of original[0..i) *)
      | Some v => v
      end in
    c ← (if (r =? utf8.RuneError)%N then original !! i
         else Some (byte_of_N r));
    hi ← CHARS !! N.to_nat (N.land (N.shiftr (N_of_ascii c) 4) 15);
    lo ← CHARS !! N.to_nat (N.land (N_of_ascii c) 15);
    Some (Some (escValue ++ ["%"%char] ++ [hi] ++ [lo]))
  else
    match escValue with
    | Some v =>
      n ← utf8.RuneLen r;
      part ← slice original i (i + n);
      Some (Some (v ++ part))
    | None => Some None
    end.

(** [for i, r := range original]: the rune at offset [i] is decoded, the
    body runs, and the loop goes on at [i] plus the width of the rune. *)
Fixpoint escape_range (fuel : nat) (original : list ascii) (i : nat)
    (escValue : option (list ascii)) : option (option (list ascii)) :=
  if decide (i < List.length original)%nat then
    match fuel with
    | O => None
    | S fuel' =>
      let '(r, w) := utf8.decodeRune (drop i original) in
      escValue' ← escape_step original i r escValue;
      escape_range fuel' original (i + w) escValue'
    end
  else Some escValue.

(** [escape]: [make] returns a non-nil slice, so [escValue] starts as
    [Some []].  Every rune is at least one byte wide, so [length original]
    rounds exhaust the string; [None] stands for a panic or for rounds
    that do not suffice, and [escape_total] below excludes both. *)
Definition escape (original : string) : option string :=
  let o := bytes original in
  escValue ← escape_range (List.length o) o 0 (Some []);
  match escValue with
  | None => Some original
  | Some v => Some (str v)
  end.

Inductive hexError := HexExpected (c : ascii).

Definition parseHex (c : ascii) : ascii + hexError :=
  let n := N_of_ascii c in
  if ((48 <=? n) && (n <=? 57))%N then inl (byte_of_N (n - 48))
  else if ((65 <=? n) && (n <=? 70))%N then inl (byte_of_N (10 + (n - 65)))
  else inr (HexExpected c).

(** [strings.ContainsRune(s, '%')]: for a rune below [utf8.RuneSelf] this
    is a search for the byte. *)
Definition containsPercent (s : string) : bool :=
  bool_decide ("%"%char ∈ bytes s).

(** One round of the loop of [unescape] on the buffer [p] with the write
    index [n] and the read index [i]: the buffer after [p[n] = c] and the
    read index before [i++]. *)
Definition unescape_step (p : list ascii) (n i : nat)
    : option (list ascii * nat) :=
  c ← p !! i;
  '(c, i) ←
    (if bool_decide (c = "%"%char)
        && bool_decide (i + 2 < List.length p)%nat then
       c1 ← p !! (i + 1);
       c2 ← p !! (i + 2);
       match parseHex c1, parseHex c2 with
       | inl h, inl l =>
         Some (byte_of_N (N_of_ascii h * 16 + N_of_ascii l), i + 2)
       | _, _ => Some (c, i)
       end
     else Some (c, i));
  if decide (n < List.length p)%nat then Some (<[n := c]> p, i) else None.

Fixpoint unescape_loop (fuel : nat) (p : list ascii) (n i : nat)
    : option (list ascii) :=
  if decide (i < List.length p)%nat then
    match fuel with
    | O => None
    | S fuel' =>
      '(p', i') ← unescape_step p n i;
      unescape_loop fuel' p' (n + 1) (i' + 1)
    end
  else if decide (n ≤ List.length p)%nat then Some (take n p) else None.

(** [unescape]; [None] stands for a run-time panic (an index out of
    range), which the theorems below exclude. *)
Definition unescape (s : string) : option (list ascii) :=
  if negb (containsPercent s) then Some (bytes s)
  else let p := bytes s in unescape_loop (List.length p) p 0 0.

End Codec.

(** ** Properties of the codec *)

Module CodecSpec.
Import Bytes Codec.

(** Decoding as the specification words it: a scan from left to right in
    which a percent sign followed by two hexadecimal digits (as [parseHex]
    accepts them) yields the byte of that value and the scan moves past
    the three characters, and every other character, a percent sign
    included, yields itself. *)
Fixpoint unescape_spec (s : list ascii) : list ascii :=
  match s with
  | [] => []
  | c :: t =>
    if bool_decide (c = "%"%char) then
      match t with
      | c1 :: c2 :: t' =>
        match parseHex c1, parseHex c2 with
        | inl h, inl l =>
          byte_of_N (N_of_ascii h * 16 + N_of_ascii l) :: unescape_spec t'
        | _, _ => c :: unescape_spec t
        end
      | _ => c :: unescape_spec t
      end
    else c :: unescape_spec t
  end.

(** U+FFFD, the replacement character, in its own well-formed encoding. *)
Definition replacementChar : string :=
  str [ascii_of_N 239; ascii_of_N 191; ascii_of_N 189].

Lemma unescape_spec_no_percent (s : list ascii) :
  "%"%char ∉ s → unescape_spec s = s.
Proof.
  induction s as [|c t IH]; [done|].
  intros Hnot. apply not_elem_of_cons in Hnot as [Hc Ht].
  cbn [unescape_spec]. rewrite bool_decide_eq_false_2 by congruence.
  by rewrite IH.
Qed.

Lemma take_succ_insert (p : list ascii) (n : nat) (c : ascii) :
  (n < List.length p)%nat → take (S n) (<[n := c]> p) = take n p ++ [c].
Proof.
  intros Hn. rewrite (take_S_r _ _ c).
  - by rewrite take_insert_ge by lia.
  - by apply list_lookup_insert_eq.
Qed.

(** The loop of [unescape] with [n ≤ i]: what was written stays, and the
    rest of the buffer is decoded by the scan. *)
Lemma unescape_loop_spec (fuel : nat) :
  ∀ (p : list ascii) (n i : nat),
    (n ≤ i ≤ List.length p)%nat → (List.length p - i ≤ fuel)%nat →
    unescape_loop fuel p n i = Some (take n p ++ unescape_spec (drop i p)).
Proof.
  induction fuel as [|fuel IH]; intros p n i Hni Hfuel.
  - cbn [unescape_loop]. destruct (decide (i < List.length p)%nat); [lia|].
    rewrite decide_True by lia. by rewrite drop_ge, app_nil_r by lia.
  - cbn [unescape_loop]. destruct (decide (i < List.length p)%nat) as [Hi|Hi].
    2:{ rewrite decide_True by lia. by rewrite drop_ge, app_nil_r by lia. }
    destruct (lookup_lt_is_Some_2 p i Hi) as [c Hc].
    rewrite (drop_S _ _ _ Hc). cbn [unescape_spec].
    unfold unescape_step. rewrite Hc. cbn [mbind option_bind].
    assert (Hplain : ∀ c', (n < List.length p)%nat →
      unescape_loop fuel (<[n:=c']> p) (n + 1) (i + 1)
      = Some (take n p ++ c' :: unescape_spec (drop (S i) p))).
    { intros c' Hn. rewrite IH by (rewrite ?length_insert; lia).
      rewrite Nat.add_1_r, take_succ_insert by done.
      rewrite Nat.add_1_r, drop_insert_lt by lia.
      by rewrite <- app_assoc. }
    destruct (bool_decide (c = "%"%char)) eqn:Hpc; cbn [andb].
    2:{ cbn [mbind option_bind]. rewrite decide_True by lia.
        cbn [mbind option_bind]. apply Hplain; lia. }
    destruct (bool_decide (i + 2 < List.length p)%nat) eqn:Hlen.
    2:{ apply bool_decide_eq_false in Hlen.
        cbn [mbind option_bind]. rewrite decide_True by lia.
        cbn [mbind option_bind]. rewrite Hplain by lia.
        destruct (drop (S i) p) as [|c1 [|c2 t']] eqn:Hd; [done|done|].
        exfalso. apply (f_equal List.length) in Hd.
        rewrite length_drop in Hd. cbn in Hd. lia. }
    apply bool_decide_eq_true in Hlen.
    destruct (lookup_lt_is_Some_2 p (i + 1)) as [c1 Hc1]; [lia|].
    destruct (lookup_lt_is_Some_2 p (i + 2)) as [c2 Hc2]; [lia|].
    rewrite Hc1, Hc2. cbn [mbind option_bind].
    replace (i + 1)%nat with (S i) in Hc1 by lia.
    replace (i + 2)%nat with (S (S i)) in Hc2 by lia.
    rewrite (drop_S _ _ _ Hc1), (drop_S _ _ _ Hc2).
    destruct (parseHex c1) as [h|]; [destruct (parseHex c2) as [l|]|];
      cbn [mbind option_bind]; rewrite decide_True by lia;
      cbn [mbind option_bind];
      try (rewrite Hplain by lia;
           by rewrite (drop_S _ _ _ Hc1), (drop_S _ _ _ Hc2)).
    rewrite IH by (rewrite ?length_insert; lia).
    rewrite Nat.add_1_r, take_succ_insert by lia.
    rewrite drop_insert_lt by lia.
    replace (i + 2 + 1)%nat with (S (S (S i))) by lia.
    by rewrite <- app_assoc.
Qed.

(** [unescape] never panics and is the scan of the specification. *)
Lemma unescape_is_scan (s : string) :
  unescape s = Some (unescape_spec (bytes s)).
Proof.
  unfold unescape, containsPercent.
  destruct (bool_decide ("%"%char ∈ bytes s)) eqn:Hp; cbn [negb].
  - rewrite unescape_loop_spec by lia. by rewrite drop_0.
  - apply bool_decide_eq_false in Hp.
    by rewrite unescape_spec_no_percent.
Qed.



Import utf8.

(** *** The round trip of the codec

    [escape] always returns, and [unescape] undoes it on every string in
    which the encoding of U+FFFD does not occur. *)

(** [lia] with division and modulo by constants. *)
Ltac lia_mod := zify; Z.to_euclidean_division_equations; lia.

(** An or of disjoint bits is a sum. *)
Lemma lor_add (x b n : N) :
  (x mod 2 ^ n = 0 → b < 2 ^ n → N.lor x b = x + b)%N.
Proof.
  intros Hx Hb.
  assert (Hland : N.land x b = 0%N).
  { apply N.bits_inj. intros m. rewrite N.land_spec, N.bits_0.
    destruct (N.ltb_spec m n) as [Hm|Hm].
    - rewrite (N.Div0.div_mod x (2 ^ n)), Hx, N.add_0_r, N.mul_comm.
      by rewrite N.mul_pow2_bits_low.
    - rewrite (proj2 (N.testbit_false b m)); [apply andb_false_r|].
      rewrite N.div_small; [done|].
      eapply N.lt_le_trans; [exact Hb|]. apply N.pow_le_mono_r; lia. }
  by rewrite N.add_nocarry_lxor, N.lxor_lor.
Qed.

Lemma cont_mod (b : N) : cont b = (b mod 64)%N.
Proof. unfold cont. change 63%N with (N.ones 6). apply N.land_ones. Qed.

Lemma rune2 (s0 s1 : N) :
  N.lor (N.shiftl (N.land s0 31) 6) (cont s1)
  = ((s0 mod 32) * 64 + s1 mod 64)%N.
Proof.
  rewrite cont_mod. change 31%N with (N.ones 5).
  rewrite N.land_ones, N.shiftl_mul_pow2.
  change (2 ^ 5)%N with 32%N. change (2 ^ 6)%N with 64%N.
  apply (lor_add _ _ 6); change (2 ^ 6)%N with 64%N; lia_mod.
Qed.

Lemma rune3 (s0 s1 s2 : N) :
  N.lor (N.lor (N.shiftl (N.land s0 15) 12) (N.shiftl (cont s1) 6)) (cont s2)
  = ((s0 mod 16) * 4096 + (s1 mod 64) * 64 + s2 mod 64)%N.
Proof.
  rewrite !cont_mod. change 15%N with (N.ones 4).
  rewrite N.land_ones, !N.shiftl_mul_pow2.
  change (2 ^ 4)%N with 16%N. change (2 ^ 6)%N with 64%N.
  change (2 ^ 12)%N with 4096%N.
  rewrite (lor_add (s0 mod 16 * 4096) _ 12);
    change (2 ^ 12)%N with 4096%N; [|lia_mod..].
  apply (lor_add _ _ 6); change (2 ^ 6)%N with 64%N; lia_mod.
Qed.

Lemma rune4 (s0 s1 s2 s3 : N) :
  N.lor (N.lor (N.lor (N.shiftl (N.land s0 7) 18) (N.shiftl (cont s1) 12))
               (N.shiftl (cont s2) 6)) (cont s3)
  = ((s0 mod 8) * 262144 + (s1 mod 64) * 4096 + (s2 mod 64) * 64
     + s3 mod 64)%N.
Proof.
  rewrite !cont_mod. change 7%N with (N.ones 3).
  rewrite N.land_ones, !N.shiftl_mul_pow2.
  change (2 ^ 3)%N with 8%N. change (2 ^ 6)%N with 64%N.
  change (2 ^ 12)%N with 4096%N. change (2 ^ 18)%N with 262144%N.
  rewrite (lor_add (s0 mod 8 * 262144) _ 18);
    change (2 ^ 18)%N with 262144%N; [|lia_mod..].
  rewrite (lor_add (s0 mod 8 * 262144 + s1 mod 64 * 4096) _ 12);
    change (2 ^ 12)%N with 4096%N; [|lia_mod..].
  apply (lor_add _ _ 6); change (2 ^ 6)%N with 64%N; lia_mod.
Qed.

Lemma N_of_ascii_lt (c : ascii) : (N_of_ascii c < 256)%N.
Proof. apply N_ascii_bounded. Qed.

Ltac split_cmp H :=
  match type of H with
  | context [(?a <? ?b)%N] => destruct (N.ltb_spec a b)
  | context [(?a =? ?b)%N] => destruct (N.eqb_spec a b)
  | context [(?a <? ?b)%nat] => destruct (Nat.ltb_spec a b)
  | context [(?a <=? ?b)%nat] => destruct (Nat.leb_spec a b)
  end.

(** What [decodeRune] returns on a sequence that is not empty: an
    ill-formed byte, an ASCII byte, or a well-formed sequence of two,
    three or four bytes with the rune in the range of that length. *)
Lemma decodeRune_spec (t : list ascii) (r : N) (w : nat) :
  decodeRune t = (r, w) → t ≠ [] →
  (w = 1%nat ∧ r = RuneError)
  ∨ (∃ c0 t', t = c0 :: t' ∧ w = 1%nat ∧ r = N_of_ascii c0 ∧ (r < 128)%N)
  ∨ (∃ c0 c1 t', t = c0 :: c1 :: t' ∧ w = 2%nat
       ∧ (128 ≤ N_of_ascii c0)%N ∧ (128 ≤ N_of_ascii c1)%N
       ∧ (128 ≤ r ≤ 2047)%N)
  ∨ (∃ c0 c1 c2 t', t = c0 :: c1 :: c2 :: t' ∧ w = 3%nat
       ∧ (128 ≤ N_of_ascii c0)%N ∧ (128 ≤ N_of_ascii c1)%N
       ∧ (128 ≤ N_of_ascii c2)%N
       ∧ (2048 ≤ r ≤ 65535)%N ∧ ¬ (55296 ≤ r ≤ 57343)%N
       ∧ (r = RuneError →
          N_of_ascii c0 = 239%N ∧ N_of_ascii c1 = 191%N
          ∧ N_of_ascii c2 = 189%N))
  ∨ (∃ c0 c1 c2 c3 t', t = c0 :: c1 :: c2 :: c3 :: t' ∧ w = 4%nat
       ∧ (128 ≤ N_of_ascii c0)%N ∧ (128 ≤ N_of_ascii c1)%N
       ∧ (128 ≤ N_of_ascii c2)%N ∧ (128 ≤ N_of_ascii c3)%N
       ∧ (65536 ≤ r ≤ 1114111)%N).
Proof.
  intros H Hne. destruct t as [|c0 t]; [done|]. clear Hne.
  unfold decodeRune, first, locb, hicb in H.
  pose proof (N_of_ascii_lt c0) as Hc0.
  repeat (split_cmp H; try lia_mod; cbn [orb andb] in H).
  all: try (injection H as <- <-; left; done).
  all: try (injection H as <- <-; right; left; eauto 10).
  all: destruct t as [|c1 t]; try (injection H as <- <-; left; done).
  all: pose proof (N_of_ascii_lt c1) as Hc1.
  all: repeat (split_cmp H; try lia_mod; cbn [orb andb] in H).
  all: try (injection H as <- <-; left; done).
  all: try (injection H as <- <-; right; right; left;
            exists c0, c1, t; rewrite rune2; repeat split; lia_mod).
  all: destruct t as [|c2 t]; try (injection H as <- <-; left; done).
  all: pose proof (N_of_ascii_lt c2) as Hc2.
  all: repeat (split_cmp H; try lia_mod; cbn [orb andb] in H).
  all: try (injection H as <- <-; left; done).
  all: try (injection H as <- <-; right; right; right; left;
            exists c0, c1, c2, t; rewrite rune3; unfold RuneError;
            repeat split; lia_mod).
  all: destruct t as [|c3 t]; try (injection H as <- <-; left; done).
  all: pose proof (N_of_ascii_lt c3) as Hc3.
  all: repeat (split_cmp H; try lia_mod; cbn [orb andb] in H).
  all: try (injection H as <- <-; left; done).
  all: try (injection H as <- <-; right; right; right; right;
            exists c0, c1, c2, c3, t; rewrite rune4;
            repeat split; lia_mod).
Qed.

(** The bytes of [replacementChar]. *)
Definition fffd : list ascii :=
  [ascii_of_N 239; ascii_of_N 191; ascii_of_N 189].

Lemma unescape_spec_plain (c : ascii) (rest : list ascii) :
  c ≠ "%"%char → unescape_spec (c :: rest) = c :: unescape_spec rest.
Proof. intros Hc. cbn [unescape_spec]. by rewrite bool_decide_eq_false_2. Qed.

Lemma unescape_spec_skip (piece rest : list ascii) :
  "%"%char ∉ piece →
  unescape_spec (piece ++ rest) = piece ++ unescape_spec rest.
Proof.
  induction piece as [|c piece IH]; [done|].
  intros [Hc Hp]%not_elem_of_cons. cbn [app].
  rewrite unescape_spec_plain by done. by rewrite IH.
Qed.

(** The two digits that [escape] writes for a byte decode to it. *)
Lemma hex_roundtrip (c : ascii) :
  ∃ hi lo,
    CHARS !! N.to_nat (N.land (N.shiftr (N_of_ascii c) 4) 15) = Some hi
    ∧ CHARS !! N.to_nat (N.land (N_of_ascii c) 15) = Some lo
    ∧ ∀ rest, unescape_spec ("%"%char :: hi :: lo :: rest)
              = c :: unescape_spec rest.
Proof.
  destruct c as [[] [] [] [] [] [] [] []];
    (eexists _, _; split; [reflexivity|split; [reflexivity|]];
     intros rest; reflexivity).
Qed.

Lemma high_not_percent (c : ascii) : (128 ≤ N_of_ascii c)%N → c ≠ "%"%char.
Proof. intros Hc ->. vm_compute in Hc. by apply Hc. Qed.

Lemma byte_of_N_of_ascii (c : ascii) : byte_of_N (N_of_ascii c) = c.
Proof.
  unfold byte_of_N. rewrite N.mod_small by apply N_of_ascii_lt.
  apply ascii_N_embedding.
Qed.

Lemma N_of_ascii_eq (c : ascii) (n : N) : N_of_ascii c = n → c = ascii_of_N n.
Proof. intros <-. symmetry. apply ascii_N_embedding. Qed.

(** The test of [escape] on a rune. *)
Definition special (r : N) : bool :=
  ((r =? RuneError) || (r <? 32) || (r =? 37) || (r =? 34) || (r =? 92))%N.

Lemma escape_step_escaped (o : list ascii) (i : nat) (r : N)
    (acc : list ascii) (c0 : ascii) :
  o !! i = Some c0 → special r = true →
  r = RuneError ∨ r = N_of_ascii c0 →
  ∃ piece,
    escape_step o i r (Some acc) = Some (Some (acc ++ piece))
    ∧ ∀ rest, unescape_spec (piece ++ rest) = c0 :: unescape_spec rest.
Proof.
  intros Hc0 Hsp Hr. unfold escape_step. fold (special r). rewrite Hsp.
  assert (Hc : (if (r =? RuneError)%N then o !! i else Some (byte_of_N r))
               = Some c0).
  { destruct (N.eqb_spec r RuneError) as [|Hne]; [done|].
    destruct Hr as [Hr | ->]; [done|]. by rewrite byte_of_N_of_ascii. }
  rewrite Hc. cbn [mbind option_bind].
  destruct (hex_roundtrip c0) as (hi & lo & -> & -> & Hdec).
  cbn [mbind option_bind]. exists ["%"%char; hi; lo]. split; [done|].
  intros rest. apply Hdec.
Qed.

Lemma escape_step_plain (o : list ascii) (i w : nat) (r : N)
    (acc : list ascii) :
  special r = false → RuneLen r = Some w →
  (i + w ≤ List.length o)%nat → "%"%char ∉ take w (drop i o) →
  ∃ piece,
    escape_step o i r (Some acc) = Some (Some (acc ++ piece))
    ∧ ∀ rest, unescape_spec (piece ++ rest)
              = take w (drop i o) ++ unescape_spec rest.
Proof.
  intros Hsp Hlen Hfit Hnp. unfold escape_step. fold (special r).
  rewrite Hsp, Hlen. cbn [mbind option_bind]. unfold slice.
  rewrite decide_True by lia. cbn [mbind option_bind].
  replace (i + w - i)%nat with w by lia.
  exists (take w (drop i o)). split; [done|].
  intros rest. by apply unescape_spec_skip.
Qed.

(** One round of the loop of [escape] returns, consumes between one
    byte and the rest of the string, and what it appends decodes to the
    bytes consumed unless these are the encoding of U+FFFD. *)
Lemma escape_step_spec (o : list ascii) (i w : nat) (r : N)
    (acc : list ascii) :
  (i < List.length o)%nat → decodeRune (drop i o) = (r, w) →
  ∃ piece,
    escape_step o i r (Some acc) = Some (Some (acc ++ piece))
    ∧ (1 ≤ w ≤ List.length o - i)%nat
    ∧ (take 3 (drop i o) ≠ fffd →
       ∀ rest, unescape_spec (piece ++ rest)
               = take w (drop i o) ++ unescape_spec rest).
Proof.
  intros Hi Hdec.
  destruct (lookup_lt_is_Some_2 o i Hi) as [c Hc].
  pose proof (drop_S _ _ _ Hc) as Hdrop.
  assert (Hlen : List.length (drop i o) = (List.length o - i)%nat)
    by apply length_drop.
  destruct (decodeRune_spec _ _ _ Hdec) as
    [(-> & ->)|[(c0 & t' & Ht & -> & -> & Hr)
    |[(c0 & c1 & t' & Ht & -> & H0 & H1 & Hr)
    |[(c0 & c1 & c2 & t' & Ht & -> & H0 & H1 & H2 & Hr & Hsur & Hfffd)
    |(c0 & c1 & c2 & c3 & t' & Ht & -> & H0 & H1 & H2 & H3 & Hr)]]]].
  { by rewrite Hdrop. }
  - destruct (escape_step_escaped o i RuneError acc c Hc) as (piece & Hp & Hu);
      [done|by left|].
    exists piece. split; [done|]. split; [lia|]. intros _ rest.
    by rewrite Hu, Hdrop.
  - rewrite Hdrop in Ht. injection Ht as <- <-.
    destruct (special (N_of_ascii c)) eqn:Hsp.
    + destruct (escape_step_escaped o i (N_of_ascii c) acc c Hc)
        as (piece & Hp & Hu); [done|by right|].
      exists piece. split; [done|]. split; [lia|]. intros _ rest.
      by rewrite Hu, Hdrop.
    + destruct (escape_step_plain o i 1 (N_of_ascii c) acc)
        as (piece & Hp & Hu); try done.
      * unfold RuneLen. destruct (N.leb_spec (N_of_ascii c) 127); [done|lia].
      * lia.
      * rewrite Hdrop. cbn. intros Heq%list_elem_of_singleton.
        subst c. vm_compute in Hsp. discriminate.
      * exists piece. split; [done|]. split; [lia|]. by intros _.
  - assert (Hsp : special r = false).
    { unfold special, RuneError.
      repeat (match goal with
              | |- context [(?a =? ?b)%N] => destruct (N.eqb_spec a b)
              | |- context [(?a <? ?b)%N] => destruct (N.ltb_spec a b)
              end; try lia); try done. }
    rewrite Ht in Hlen. cbn in Hlen.
    destruct (escape_step_plain o i 2 r acc) as (piece & Hp & Hu); try done.
    + unfold RuneLen.
      repeat (match goal with
              | |- context [(?a <=? ?b)%N] => destruct (N.leb_spec a b)
              end; try lia); try done.
    + lia.
    + rewrite Ht. cbn.
      intros [Heq|Heq%list_elem_of_singleton]%elem_of_cons;
        by eapply high_not_percent; [|symmetry; exact Heq].
    + exists piece. split; [done|]. split; [lia|]. by intros _.
  - rewrite Ht in Hlen. cbn in Hlen.
    destruct (N.eqb_spec r RuneError) as [Heq|Hne].
    + destruct (Hfffd Heq) as (E0 & E1 & E2).
      apply N_of_ascii_eq in E0, E1, E2. subst c0 c1 c2.
      rewrite Hdrop in Ht. injection Ht as -> Ht'.
      destruct (escape_step_escaped o i r acc (ascii_of_N 239) Hc)
        as (piece & Hp & Hu); [by rewrite Heq|by left|].
      exists piece. split; [done|]. split; [lia|].
      intros Hno. exfalso. apply Hno. by rewrite Hdrop, Ht'.
    + assert (Hsp : special r = false).
      { unfold special.
        destruct (N.eqb_spec r RuneError); [done|].
        repeat (match goal with
                | |- context [(?a =? ?b)%N] => destruct (N.eqb_spec a b)
                | |- context [(?a <? ?b)%N] => destruct (N.ltb_spec a b)
                end; try lia); try done. }
      destruct (escape_step_plain o i 3 r acc) as (piece & Hp & Hu); try done.
      * unfold RuneLen.
        repeat (match goal with
                | |- context [(?a <=? ?b)%N] => destruct (N.leb_spec a b)
                end; try lia; cbn [andb]); try done.
      * lia.
      * rewrite Ht. cbn.
        intros [Heq|[Heq|Heq%list_elem_of_singleton]%elem_of_cons]
                 %elem_of_cons;
          by eapply high_not_percent; [|symmetry; exact Heq].
      * exists piece. split; [done|]. split; [lia|]. by intros _.
  - assert (Hsp : special r = false).
    { unfold special, RuneError.
      repeat (match goal with
              | |- context [(?a =? ?b)%N] => destruct (N.eqb_spec a b)
              | |- context [(?a <? ?b)%N] => destruct (N.ltb_spec a b)
              end; try lia); try done. }
    rewrite Ht in Hlen. cbn in Hlen.
    destruct (escape_step_plain o i 4 r acc) as (piece & Hp & Hu); try done.
    + unfold RuneLen.
      repeat (match goal with
              | |- context [(?a <=? ?b)%N] => destruct (N.leb_spec a b)
              end; try lia; cbn [andb]); try done.
    + lia.
    + rewrite Ht. cbn.
      intros [Heq|[Heq|[Heq|Heq%list_elem_of_singleton]%elem_of_cons]
                %elem_of_cons]%elem_of_cons;
        by eapply high_not_percent; [|symmetry; exact Heq].
    + exists piece. split; [done|]. split; [lia|]. by intros _.
Qed.

Lemma escape_range_spec (o : list ascii) (fuel : nat) :
  ∀ (i : nat) (acc : list ascii),
    (List.length o - i ≤ fuel)%nat →
    ∃ out,
      escape_range fuel o i (Some acc) = Some (Some (acc ++ out))
      ∧ ((∀ j, take 3 (drop j o) ≠ fffd) → unescape_spec out = drop i o).
Proof.
  induction fuel as [|fuel IH]; intros i acc Hfuel.
  { exists []. cbn [escape_range]. rewrite decide_False by lia.
    rewrite app_nil_r. split; [done|].
    intros _. by rewrite drop_ge by lia. }
  cbn [escape_range].
  destruct (decide (i < List.length o)%nat) as [Hi|Hi].
  2:{ exists []. rewrite app_nil_r. split; [done|].
      intros _. by rewrite drop_ge by lia. }
  destruct (decodeRune (drop i o)) as [r w] eqn:Hdec.
  destruct (escape_step_spec o i w r acc Hi Hdec) as (piece & -> & Hw & Hu).
  cbn [mbind option_bind].
  destruct (IH (i + w)%nat (acc ++ piece)) as (out & -> & Hout); [lia|].
  exists (piece ++ out). split; [by rewrite app_assoc|].
  intros Hno. rewrite (Hu (Hno i)), (Hout Hno).
  by rewrite <- drop_drop, take_drop.
Qed.

Lemma bytes_str (b : list ascii) : bytes (str b) = b.
Proof. apply list_ascii_of_string_of_list_ascii. Qed.

(** [escape] never panics. *)
Theorem escape_total (s : string) : is_Some (escape s).
Proof.
  unfold escape.
  destruct (escape_range_spec (bytes s) (List.length (bytes s)) 0 [])
    as (out & -> & _); [lia|].
  cbn. eauto.
Qed.

(** X3.  The round trip: [unescape] returns the bytes of a text from
    what [escape] returns for it, for every text in which the encoding of
    U+FFFD does not occur. *)
Theorem escape_unescape_roundtrip (s : string) :
  (∀ j, take 3 (drop j (bytes s)) ≠ bytes replacementChar) →
  ∃ t, escape s = Some t ∧ unescape t = Some (bytes s).
Proof.
  intros Hno. unfold escape.
  destruct (escape_range_spec (bytes s) (List.length (bytes s)) 0 [])
    as (out & -> & Hout); [lia|].
  cbn. eexists. split; [done|].
  rewrite unescape_is_scan, bytes_str. f_equal. by apply Hout.
Qed.

(** C1.  The round trip fails on the well-formed encoding of U+FFFD: the
    [range] loop yields [utf8.RuneError] for it with width three, [escape]
    takes it for an ill-formed byte and writes the first byte only.  By
    [escape_unescape_roundtrip] this is the only way for it to fail. *)
Theorem escape_loses_replacement_char :
  escape replacementChar = Some "%EF"%string
  ∧ unescape "%EF" = Some [ascii_of_N 239]
  ∧ (escape replacementChar ≫= unescape) ≠ Some (bytes replacementChar).
Proof. repeat split; try reflexivity. discriminate. Qed.

(** *** What [escape] writes, and the sizes of what [unescape] returns *)

(** A byte that stands for itself in a quoted text: no control byte, no
    quote, no backslash. *)
Definition quotable (c : ascii) : Prop :=
  (32 ≤ N_of_ascii c)%N ∧ c ≠ ascii_of_N 34 ∧ c ≠ ascii_of_N 92.

(** A byte that [escape] passes on: quotable and no percent sign. *)
Definition passes (c : ascii) : Prop := quotable c ∧ c ≠ "%"%char.

Lemma hex_quotable (c : ascii) (hi lo : ascii) :
  CHARS !! N.to_nat (N.land (N.shiftr (N_of_ascii c) 4) 15) = Some hi →
  CHARS !! N.to_nat (N.land (N_of_ascii c) 15) = Some lo →
  quotable hi ∧ quotable lo.
Proof.
  destruct c as [[] [] [] [] [] [] [] []];
    intros [= <-] [= <-]; split; (split; [vm_compute; discriminate|]);
    split; discriminate.
Qed.

Lemma high_passes (c : ascii) : (128 ≤ N_of_ascii c)%N → passes c.
Proof.
  intros Hc. repeat split.
  - lia.
  - intros ->. vm_compute in Hc. by apply Hc.
  - intros ->. vm_compute in Hc. by apply Hc.
  - by apply high_not_percent.
Qed.

Lemma decodeRune_ascii (c : ascii) (t : list ascii) :
  (N_of_ascii c < 128)%N → decodeRune (c :: t) = (N_of_ascii c, 1%nat).
Proof.
  intros Hc. unfold decodeRune, first.
  destruct (N.ltb_spec (N_of_ascii c) 194) as [_|]; [|lia].
  by destruct (N.ltb_spec (N_of_ascii c) 128) as [_|]; [|lia].
Qed.

(** One round of the loop of [escape], with what it appends: the three
    characters of an escape for the byte at [i], or the bytes of the
    rune as they are, none of which needs an escape. *)
Lemma escape_step_pieces (o : list ascii) (i w : nat) (r : N)
    (acc : list ascii) :
  (i < List.length o)%nat → decodeRune (drop i o) = (r, w) →
  (1 ≤ w ≤ List.length o - i)%nat
  ∧ ((∃ c hi lo,
        o !! i = Some c
        ∧ CHARS !! N.to_nat (N.land (N.shiftr (N_of_ascii c) 4) 15) = Some hi
        ∧ CHARS !! N.to_nat (N.land (N_of_ascii c) 15) = Some lo
        ∧ ((128 ≤ N_of_ascii c)%N ∨ ¬ passes c)
        ∧ escape_step o i r (Some acc)
          = Some (Some (acc ++ ["%"%char; hi; lo])))
     ∨ (Forall passes (take w (drop i o))
        ∧ escape_step o i r (Some acc)
          = Some (Some (acc ++ take w (drop i o))))).
Proof.
  intros Hi Hdec.
  destruct (lookup_lt_is_Some_2 o i Hi) as [c Hc].
  pose proof (drop_S _ _ _ Hc) as Hdrop.
  assert (Hlen : List.length (drop i o) = (List.length o - i)%nat)
    by apply length_drop.
  assert (Hesc : ∀ r', special r' = true →
            r' = RuneError ∨ r' = N_of_ascii c →
            ∃ hi lo,
              CHARS !! N.to_nat (N.land (N.shiftr (N_of_ascii c) 4) 15)
              = Some hi
              ∧ CHARS !! N.to_nat (N.land (N_of_ascii c) 15) = Some lo
              ∧ escape_step o i r' (Some acc)
                = Some (Some (acc ++ ["%"%char; hi; lo]))).
  { intros r' Hsp Hr'. unfold escape_step. fold (special r'). rewrite Hsp.
    assert (Hc' : (if (r' =? RuneError)%N then o !! i
                   else Some (byte_of_N r')) = Some c).
    { destruct (N.eqb_spec r' RuneError) as [|Hne]; [done|].
      destruct Hr' as [Hr' | ->]; [done|]. by rewrite byte_of_N_of_ascii. }
    rewrite Hc'. cbn [mbind option_bind].
    destruct (hex_roundtrip c) as (hi & lo & Hhi & Hlo & _).
    rewrite Hhi, Hlo. cbn [mbind option_bind]. by exists hi, lo. }
  assert (Hplain : ∀ w', special r = false → RuneLen r = Some w' →
            (i + w' ≤ List.length o)%nat →
            escape_step o i r (Some acc)
            = Some (Some (acc ++ take w' (drop i o)))).
  { intros w' Hsp Hrl Hfit. unfold escape_step. fold (special r).
    rewrite Hsp, Hrl. cbn [mbind option_bind]. unfold slice.
    rewrite decide_True by lia. cbn [mbind option_bind].
    by replace (i + w' - i)%nat with w' by lia. }
  destruct (decodeRune_spec _ _ _ Hdec) as
    [(-> & ->)|[(c0 & t' & Ht & -> & -> & Hr)
    |[(c0 & c1 & t' & Ht & -> & H0 & H1 & Hr)
    |[(c0 & c1 & c2 & t' & Ht & -> & H0 & H1 & H2 & Hr & Hsur & Hfffd)
    |(c0 & c1 & c2 & c3 & t' & Ht & -> & H0 & H1 & H2 & H3 & Hr)]]]].
  { by rewrite Hdrop. }
  - split; [lia|]. left.
    destruct (Hesc RuneError) as (hi & lo & Hhi & Hlo & Hst);
      [done|by left|].
    exists c, hi, lo. repeat split; try done. left.
    destruct (N.le_gt_cases 128 (N_of_ascii c)) as [|Hlt]; [done|].
    rewrite Hdrop, decodeRune_ascii in Hdec by lia.
    injection Hdec as Hdec. unfold RuneError in Hdec. lia.
  - rewrite Hdrop in Ht. injection Ht as <- <-. split; [lia|].
    destruct (special (N_of_ascii c)) eqn:Hsp.
    + left. destruct (Hesc (N_of_ascii c)) as (hi & lo & Hhi & Hlo & Hst);
        [done|by right|].
      exists c, hi, lo. repeat split; try done. right.
      intros [(H32 & H34 & H92) H37]. unfold special, RuneError in Hsp.
      repeat (split_cmp Hsp; try lia; cbn [orb] in Hsp); try done.
      all: match goal with
           | E : N_of_ascii _ = _ |- _ => apply N_of_ascii_eq in E; done
           end.
    + right. split.
      * rewrite Hdrop. cbn [take]. rewrite take_0. apply Forall_singleton.
        unfold special, RuneError in Hsp.
        repeat (split_cmp Hsp; try lia; cbn [orb] in Hsp); try done.
        repeat split; [lia|intros ->; done..].
      * apply Hplain; [done| |lia].
        unfold RuneLen. destruct (N.leb_spec (N_of_ascii c) 127); [done|lia].
  - assert (Hsp : special r = false).
    { unfold special, RuneError.
      repeat (match goal with
              | |- context [(?a =? ?b)%N] => destruct (N.eqb_spec a b)
              | |- context [(?a <? ?b)%N] => destruct (N.ltb_spec a b)
              end; try lia); try done. }
    rewrite Ht in Hlen. cbn in Hlen. split; [lia|]. right. split.
    + rewrite Ht. cbn. rewrite take_0. by repeat constructor; apply high_passes.
    + apply Hplain; [done| |lia]. unfold RuneLen.
      repeat (match goal with
              | |- context [(?a <=? ?b)%N] => destruct (N.leb_spec a b)
              end; try lia); try done.
  - rewrite Ht in Hlen. cbn in Hlen. split; [lia|].
    destruct (N.eqb_spec r RuneError) as [Heq|Hne].
    + left. destruct (Hfffd Heq) as (E0 & E1 & E2).
      rewrite Hdrop in Ht. injection Ht as -> Ht'.
      destruct (Hesc r) as (hi & lo & Hhi & Hlo & Hst);
        [by rewrite Heq|by left|].
      exists c0, hi, lo. repeat split; try done. left. lia.
    + right.
      assert (Hsp : special r = false).
      { unfold special.
        destruct (N.eqb_spec r RuneError); [done|].
        repeat (match goal with
                | |- context [(?a =? ?b)%N] => destruct (N.eqb_spec a b)
                | |- context [(?a <? ?b)%N] => destruct (N.ltb_spec a b)
                end; try lia); try done. }
      split.
      * rewrite Ht. cbn. rewrite take_0.
        by repeat constructor; apply high_passes.
      * apply Hplain; [done| |lia]. unfold RuneLen.
        repeat (match goal with
                | |- context [(?a <=? ?b)%N] => destruct (N.leb_spec a b)
                end; try lia; cbn [andb]); try done.
  - assert (Hsp : special r = false).
    { unfold special, RuneError.
      repeat (match goal with
              | |- context [(?a =? ?b)%N] => destruct (N.eqb_spec a b)
              | |- context [(?a <? ?b)%N] => destruct (N.ltb_spec a b)
              end; try lia); try done. }
    rewrite Ht in Hlen. cbn in Hlen. split; [lia|]. right. split.
    + rewrite Ht. cbn. rewrite take_0. by repeat constructor; apply high_passes.
    + apply Hplain; [done| |lia]. unfold RuneLen.
      repeat (match goal with
              | |- context [(?a <=? ?b)%N] => destruct (N.leb_spec a b)
              end; try lia; cbn [andb]); try done.
Qed.

(** The loop of [escape] from offset [i] on: it returns, and what it
    appends is made of escapes and of bytes that need none. *)
Lemma escape_range_quotable (o : list ascii) (fuel : nat) :
  ∀ (i : nat) (acc : list ascii),
    (List.length o - i ≤ fuel)%nat →
    ∃ out,
      escape_range fuel o i (Some acc) = Some (Some (acc ++ out))
      ∧ Forall quotable out
      ∧ (Forall passes (drop i o) →
         Forall (λ c, (N_of_ascii c < 128)%N) (drop i o) → out = drop i o).
Proof.
  induction fuel as [|fuel IH]; intros i acc Hfuel.
  { exists []. cbn [escape_range]. rewrite decide_False by lia.
    rewrite app_nil_r. repeat split; [done|].
    intros _ _. by rewrite drop_ge by lia. }
  cbn [escape_range].
  destruct (decide (i < List.length o)%nat) as [Hi|Hi].
  2:{ exists []. rewrite app_nil_r. repeat split; [done|].
      intros _ _. by rewrite drop_ge by lia. }
  destruct (decodeRune (drop i o)) as [r w] eqn:Hdec.
  destruct (lookup_lt_is_Some_2 o i Hi) as [c Hc].
  pose proof (drop_S _ _ _ Hc) as Hdrop.
  destruct (escape_step_pieces o i w r acc Hi Hdec)
    as [Hw [(c' & hi & lo & Hc' & Hhi & Hlo & Hwhy & ->)|[Hpass ->]]];
    cbn [mbind option_bind].
  - destruct (IH (i + w)%nat (acc ++ ["%"%char; hi; lo]))
      as (out & -> & Hq & Hid); [lia|].
    exists (["%"%char; hi; lo] ++ out). split; [by rewrite app_assoc|].
    destruct (hex_quotable c' hi lo Hhi Hlo) as [Qhi Qlo].
    split.
    + apply Forall_app. split; [|done].
      assert (Qp : quotable "%"%char)
        by (repeat split; [vm_compute; discriminate|discriminate..]).
      by repeat apply Forall_cons_2.
    + intros Hp Hlow. exfalso. rewrite Hdrop in Hp, Hlow.
      apply Forall_cons in Hp as [Hp _]. apply Forall_cons in Hlow as [Hlow _].
      assert (c' = c) as -> by congruence.
      destruct Hwhy as [Hhigh|Hnp]; [lia|done].
  - destruct (IH (i + w)%nat (acc ++ take w (drop i o)))
      as (out & -> & Hq & Hid); [lia|].
    exists (take w (drop i o) ++ out). split; [by rewrite app_assoc|].
    split.
    + apply Forall_app. split; [|done].
      eapply Forall_impl; [exact Hpass|]. by intros ? [? _].
    + intros Hp Hlow. rewrite Hid.
      * by rewrite <- drop_drop, take_drop.
      * rewrite <- drop_drop. by apply Forall_drop.
      * rewrite <- drop_drop. by apply Forall_drop.
Qed.

(** A byte of plain text: printable ASCII other than the percent sign,
    the quote and the backslash. *)
Definition plain (c : ascii) : Prop :=
  (32 ≤ N_of_ascii c < 128)%N
  ∧ c ≠ "%"%char ∧ c ≠ ascii_of_N 34 ∧ c ≠ ascii_of_N 92.

(** X1.  [escape] always returns, and the text it returns can stand
    between quotes as it is: it holds no control byte, no quote and no
    backslash. *)
Theorem escape_output_quotable (s : string) :
  ∃ t, escape s = Some t ∧ Forall quotable (bytes t).
Proof.
  unfold escape.
  destruct (escape_range_quotable (bytes s) (List.length (bytes s)) 0 [])
    as (out & -> & Hq & _); [lia|].
  cbn. eexists. split; [done|]. by rewrite bytes_str.
Qed.

(** X2.  [escape] returns a text of plain bytes as it is. *)
Theorem escape_plain_unchanged (s : string) :
  Forall plain (bytes s) → escape s = Some s.
Proof.
  intros Hp. unfold escape.
  destruct (escape_range_quotable (bytes s) (List.length (bytes s)) 0 [])
    as (out & -> & _ & Hid); [lia|].
  cbn. f_equal. rewrite Hid.
  - apply string_of_list_ascii_of_string.
  - rewrite drop_0. eapply Forall_impl; [exact Hp|].
    intros c (Hr & H37 & H34 & H92). repeat split; try done. lia.
  - rewrite drop_0. eapply Forall_impl; [exact Hp|].
    intros c (Hr & _). lia.
Qed.

Lemma escape_plain_unchanged_witness :
  Forall plain (bytes "a b.txt") ∧ escape "a b.txt" = Some "a b.txt"%string.
Proof.
  assert (H : Forall plain (bytes "a b.txt")).
  { repeat constructor; vm_compute; congruence. }
  split; [exact H|]. apply (escape_plain_unchanged "a b.txt" H).
Defined.

Lemma escape_unescape_roundtrip_witness :
  ∃ t, escape "50% off" = Some t ∧ unescape t = Some (bytes "50% off").
Proof.
  apply (escape_unescape_roundtrip "50% off").
  intros j. do 7 (destruct j as [|j]; [vm_compute; discriminate|]).
  vm_compute. destruct j; discriminate.
Defined.

(** X4.  [parseHex] accepts the sixteen characters of [CHARS] and no
    other, and returns the position of the character in [CHARS]. *)
Theorem parseHex_inverts_CHARS (c h : ascii) :
  parseHex c = inl h ↔ CHARS !! N.to_nat (N_of_ascii h) = Some c.
Proof.
  split.
  - destruct c as [[] [] [] [] [] [] [] []]; intros [= <-]; reflexivity.
  - destruct h as [[] [] [] [] [] [] [] []]; intros [= <-]; reflexivity.
Qed.

Lemma unescape_spec_length (s : list ascii) :
  (List.length (unescape_spec s) ≤ List.length s)%nat
  ∧ (List.length (unescape_spec s) = List.length s → unescape_spec s = s).
Proof.
  remember (List.length s) as n eqn:Hn.
  revert s Hn. induction n as [n IH] using lt_wf_ind. intros s ->.
  destruct s as [|c t]; [done|].
  destruct (IH (List.length t) ltac:(cbn; lia) t eq_refl) as [Ht Ht'].
  cbn [unescape_spec List.length].
  assert (Hkeep :
    (List.length (c :: unescape_spec t) ≤ S (List.length t))%nat
    ∧ (List.length (c :: unescape_spec t) = S (List.length t) →
       c :: unescape_spec t = c :: t)).
  { cbn [List.length]. split; [lia|]. intros Heq. f_equal. apply Ht'. lia. }
  destruct (bool_decide (c = "%"%char)); [|done].
  destruct t as [|c1 [|c2 t']]; [done..|].
  destruct (parseHex c1); [destruct (parseHex c2)|]; try done.
  destruct (IH (List.length t') ltac:(cbn; lia) t' eq_refl) as [Ht1 _].
  cbn [List.length]. split; lia.
Qed.

(** X5.  [unescape] always returns, and what it returns is never longer
    than the text; it is as long only when it is the text itself. *)
Theorem unescape_never_longer (s : string) :
  ∃ b, unescape s = Some b
       ∧ (List.length b ≤ List.length (bytes s))%nat
       ∧ (List.length b = List.length (bytes s) → b = bytes s).
Proof.
  exists (unescape_spec (bytes s)). split; [apply unescape_is_scan|].
  apply unescape_spec_length.
Qed.

End CodecSpec.

(** ** The dumped data model *)

Module Dump.

Abbreviation Ino := Z (only parsing).

Record DumpedAttr := mkAttr {
  Inode : Ino;
  Type_ : string;
  Mode : Z;
  Uid : Z;
  Gid : Z;
  Atime : Z;
  Mtime : Z;
  Ctime : Z;
  Atimensec : Z;
  Mtimensec : Z;
  Ctimensec : Z;
  Nlink : Z;
  Length : Z;
  Rdev : Z;
}.

Record DumpedSlice := mkSlice {
  Chunkid : N;
  Pos : N;
  Size : N;
  Off : N;
  Len : N;
}.

(** [Slices] is [None] for a nil slice.  The pointers that the slices
    [Slices] and [Chunks] hold are taken to point to objects, as the
    decoder leaves them for the members of a document that are objects;
    [json.Marshal] writes null for one that is nil. *)
Record DumpedChunk := mkChunk {
  Index : N;
  Slices : option (list DumpedSlice);
}.

Record DumpedXattr := mkXattr {
  XName : string;
  XValue : string;
}.

(** A node of the tree.  [Attr] is [None] for a nil pointer.  [Entries]
    lists the members of the Go map in the order in which a [range] loop
    over it yields them, which Go leaves open: a statement about every
    tree is a statement about every such order.  A member of [Entries]
    and an element of [Xattrs] is [None] for a nil pointer, as the decoder
    leaves it for one that is null in the document. *)
#[local] Unset Elimination Schemes.
Inductive DumpedEntry := mkEntry {
  Name : string;
  Parents : list Ino;
  Attr : option DumpedAttr;
  Symlink : string;
  Xattrs : list (option DumpedXattr);
  Chunks : list DumpedChunk;
  Entries : list (string * option DumpedEntry);
}.
#[local] Set Elimination Schemes.

Definition withChunks (de : DumpedEntry) (cs : list DumpedChunk)
    : DumpedEntry :=
  mkEntry (Name de) (Parents de) (Attr de) (Symlink de) (Xattrs de) cs
          (Entries de).

End Dump.

(** ** encoding/json on chunks

    [json.Marshal] of a [DumpedChunk] and of a slice of them: compact
    objects with the fields in declaration order, [omitempty] fields left
    out when zero, numbers in decimal, [null] for a nil slice. *)

Module json.
Import Dump.

(** The double quote, and a quoted key followed by a colon. *)
Definition dq : string := String (ascii_of_N 34) EmptyString.

Definition key (k : string) : string := dq +:+ k +:+ dq +:+ ":".

Definition number (n : N) : string :=
  DecimalString.NilEmpty.string_of_uint (N.to_uint n).

Fixpoint join (sep : string) (l : list string) : string :=
  match l with
  | [] => EmptyString
  | [x] => x
  | x :: l' => x +:+ sep +:+ join sep l'
  end.

Definition array (l : list string) : string := "[" +:+ join "," l +:+ "]".

Definition marshalSlice (s : DumpedSlice) : string :=
  "{" +:+ key "chunkid" +:+ number (Chunkid s)
  +:+ (if (Pos s =? 0)%N then EmptyString
       else "," +:+ key "pos" +:+ number (Pos s))
  +:+ "," +:+ key "size" +:+ number (Size s)
  +:+ (if (Off s =? 0)%N then EmptyString
       else "," +:+ key "off" +:+ number (Off s))
  +:+ "," +:+ key "len" +:+ number (Len s) +:+ "}".

Definition marshalChunk (c : DumpedChunk) : string :=
  "{" +:+ key "index" +:+ number (Index c) +:+ "," +:+ key "slices"
  +:+ match Slices c with
      | None => "null"
      | Some l => array (marshalSlice <$> l)
      end
  +:+ "}".

Definition marshalChunks (cs : list DumpedChunk) : string :=
  array (marshalChunk <$> cs).

End json.

(** ** The streaming node writer *)

Module Writer.
Import Dump Codec json.

Definition nl : string := String (ascii_of_N 10) EmptyString.

Definition jsonIndent : string := "  ".

(** [count] copies of [s], one after the other. *)
Fixpoint copies (s : string) (count : nat) : string :=
  match count with
  | O => EmptyString
  | S n => s +:+ copies s n
  end.

(** [strings.Repeat] where an [int] has 64 bits: it panics, which is
    [None], on a negative count and when the length of the result
    overflows an [int]. *)
Definition Repeat (s : string) (count : Z) : option string :=
  if (count <? 0)%Z then None
  else if (2 ^ 63 - 1 <? Z.of_nat (String.length s) * count)%Z then None
  else Some (copies s (Z.to_nat count)).

(** A run of the writer on the text the [bufio.Writer] has accepted so
    far: it returns a value and the new text ([Ret]), returns an error
    ([Err]) or panics ([Panic]). *)
Inductive run (A : Type) :=
  | Ret (a : A) (bw : string)
  | Err (bw : string)
  | Panic.
Arguments Ret {A} a bw.
Arguments Err {A} bw.
Arguments Panic {A}.

Definition W (A : Type) : Type := string → run A.

Definition ret {A} (a : A) : W A := λ bw, Ret a bw.

Definition bind {A B} (m : W A) (k : A → W B) : W B :=
  λ bw, match m bw with
        | Ret a bw' => k a bw'
        | Err bw' => Err bw'
        | Panic => Panic
        end.

Notation "x ←ʷ m ; k" := (bind m (λ x, k))
  (at level 100, m at next level, right associativity).
Notation "m ;;ʷ k" := (bind m (λ _, k))
  (at level 100, right associativity).

(** A call that returns [(data, err)], followed by [return err] when
    [err] is not nil. *)
Definition try {A} (o : option A) : W A :=
  λ bw, match o with Some a => Ret a bw | None => Err bw end.

(** A call that panics when its model has no result. *)
Definition must {A} (o : option A) : W A :=
  λ bw, match o with Some a => Ret a bw | None => Panic end.

(** [for _, dumpedXattr := range de.Xattrs]: every value is escaped in
    place; the loop panics at an element that is nil.  The result is the
    objects as the loop leaves them. *)
Fixpoint escapeXattrs (xs : list (option DumpedXattr))
    : W (list DumpedXattr) :=
  match xs with
  | [] => ret []
  | None :: _ => λ _, Panic
  | Some x :: xs' =>
    v ←ʷ must (escape (XValue x));
    xs'' ←ʷ escapeXattrs xs';
    ret (mkXattr (XName x) v :: xs'')
  end.

Section writeJSON.

(** [bw.WriteString]: whether the writer that has accepted the text [bw]
    accepts [s] as well; it returns an error when it does not. *)
Variable sink : string → string → bool.

(** [json.Marshal] on the attribute and on the extended attributes, whose
    text does not matter here; [None] is a returned error. *)
Variable marshalAttr : option DumpedAttr → option string.
Variable marshalXattrs : list DumpedXattr → option string.

(** The closure [write] of the source, which panics when
    [bw.WriteString] returns an error. *)
Definition write (s : string) : W unit :=
  λ bw, if sink bw s then Ret tt (bw +:+ s) else Panic.

(** The writes of [writeJSON] before the chunks, behind the indentation
    [prefix]; the result is [de.Xattrs] as the call leaves it, which is
    empty when there are none. *)
Definition writeHead (de : DumpedEntry) (prefix : string)
    : W (list DumpedXattr) :=
  let fieldPrefix := prefix +:+ jsonIndent in
  name ←ʷ must (escape (Name de));
  write (nl +:+ prefix +:+ dq +:+ name +:+ dq +:+ ": {") ;;ʷ
  data ←ʷ try (marshalAttr (Attr de));
  write (nl +:+ fieldPrefix +:+ dq +:+ "attr" +:+ dq +:+ ": " +:+ data) ;;ʷ
  (if (0 <? String.length (Symlink de))%nat then
     target ←ʷ must (escape (Symlink de));
     write ("," +:+ nl +:+ fieldPrefix +:+ dq +:+ "symlink" +:+ dq +:+ ": "
            +:+ dq +:+ target +:+ dq)
   else ret tt) ;;ʷ
  if (0 <? List.length (Xattrs de))%nat then
    xattrs ←ʷ escapeXattrs (Xattrs de);
    data ←ʷ try (marshalXattrs xattrs);
    write ("," +:+ nl +:+ fieldPrefix +:+ dq +:+ "xattrs" +:+ dq +:+ ": "
           +:+ data) ;;ʷ
    ret xattrs
  else ret [].

(** [for i, c := range de.Chunks] of the branch for two chunks or more,
    from index [i] on; [len] is [len(de.Chunks)]. *)
Fixpoint writeChunkLines (chunkPrefix : string) (len i : nat)
    (cs : list DumpedChunk) : W unit :=
  match cs with
  | [] => ret tt
  | c :: cs' =>
    write (nl +:+ chunkPrefix +:+ marshalChunk c) ;;ʷ
    (if negb (i =? len - 1)%nat then write "," else ret tt) ;;ʷ
    writeChunkLines chunkPrefix len (S i) cs'
  end.

(** The writes of [writeJSON] for the chunks. *)
Definition writeChunks (de : DumpedEntry) (prefix : string) : W unit :=
  let fieldPrefix := prefix +:+ jsonIndent in
  if (List.length (Chunks de) =? 1)%nat then
    write ("," +:+ nl +:+ fieldPrefix +:+ dq +:+ "chunks" +:+ dq +:+ ": "
           +:+ marshalChunks (Chunks de))
  else if (1 <? List.length (Chunks de))%nat then
    let chunkPrefix := fieldPrefix +:+ jsonIndent in
    write ("," +:+ nl +:+ fieldPrefix +:+ dq +:+ "chunks" +:+ dq +:+ ": [") ;;ʷ
    writeChunkLines chunkPrefix (List.length (Chunks de)) 0 (Chunks de) ;;ʷ
    write (nl +:+ fieldPrefix +:+ "]")
  else ret tt.

(** [writeJSON] on a node that is not nil; the result is [de.Xattrs] as
    the call leaves it. *)
Definition writeJSON (de : DumpedEntry) (depth : Z) : W (list DumpedXattr) :=
  prefix ←ʷ must (Repeat jsonIndent depth);
  xattrs ←ʷ writeHead de prefix;
  writeChunks de prefix ;;ʷ
  write (nl +:+ prefix +:+ "}") ;;ʷ
  ret xattrs.

(** [writeJsonWithOutEntry] on a node that is not nil: the name, the
    attribute and the extended attributes as [writeJSON] writes them,
    and then the opening of the field of the members; the symbolic link
    and the chunks are not looked at.  The result is [de.Xattrs] as the
    call leaves it. *)
Definition writeJsonWithOutEntry (de : DumpedEntry) (depth : Z)
    : W (list DumpedXattr) :=
  prefix ←ʷ must (Repeat jsonIndent depth);
  let fieldPrefix := prefix +:+ jsonIndent in
  name ←ʷ must (escape (Name de));
  write (nl +:+ prefix +:+ dq +:+ name +:+ dq +:+ ": {") ;;ʷ
  data ←ʷ try (marshalAttr (Attr de));
  write (nl +:+ fieldPrefix +:+ dq +:+ "attr" +:+ dq +:+ ": " +:+ data) ;;ʷ
  xattrs ←ʷ (if (0 <? List.length (Xattrs de))%nat then
               xattrs ←ʷ escapeXattrs (Xattrs de);
               data ←ʷ try (marshalXattrs xattrs);
               write ("," +:+ nl +:+ fieldPrefix +:+ dq +:+ "xattrs" +:+ dq
                      +:+ ": " +:+ data) ;;ʷ
               ret xattrs
             else ret []);
  write ("," +:+ nl +:+ fieldPrefix +:+ dq +:+ "entries" +:+ dq +:+ ": {") ;;ʷ
  ret xattrs.

End writeJSON.

End Writer.

(** ** Properties of the writer *)

Module WriterSpec.
Import Dump Codec json Writer.

(** The lines of a text: the maximal runs without a newline. *)
Fixpoint lines (s : string) : list string :=
  match s with
  | EmptyString => [EmptyString]
  | String c t =>
    if Ascii.eqb c (ascii_of_N 10) then EmptyString :: lines t
    else match lines t with
         | [] => [String c EmptyString]
         | l :: ls => String c l :: ls
         end
  end.

(** No newline occurs in the text. *)
Fixpoint oneLine (s : string) : bool :=
  match s with
  | EmptyString => true
  | String c t => negb (Ascii.eqb c (ascii_of_N 10)) && oneLine t
  end.

(** The lines that the branch for two chunks or more writes for them:
    each chunk alone on its line behind the indentation [cp], and a comma
    behind all but the last. *)
Fixpoint chunkLines (cp : string) (cs : list DumpedChunk) : list string :=
  match cs with
  | [] => []
  | [c] => [cp +:+ marshalChunk c]
  | c :: cs' => (cp +:+ marshalChunk c +:+ ",") :: chunkLines cp cs'
  end.

(** The text between the last field before the chunks and the closing
    brace of the node, by the number of chunks. *)
Definition chunksText (depth : nat) (cs : list DumpedChunk) : string :=
  let fp := copies jsonIndent depth +:+ jsonIndent in
  match cs with
  | [] => EmptyString
  | [c] => join nl ["," ; fp +:+ dq +:+ "chunks" +:+ dq +:+ ": ["
                           +:+ marshalChunk c +:+ "]"]
  | _ => join nl ([","; fp +:+ dq +:+ "chunks" +:+ dq +:+ ": ["]
                  ++ chunkLines (fp +:+ jsonIndent) cs ++ [fp +:+ "]"])
  end.

(** [json.Marshal] for the examples, whose nodes have no attribute: a nil
    pointer and a nil slice are [null]. *)
Definition marshalNil (a : option DumpedAttr) : option string :=
  match a with None => Some "null"%string | Some _ => None end.

Definition marshalNoXattrs (xs : list DumpedXattr) : option string :=
  match xs with [] => Some "null"%string | _ => None end.

(** A writer that accepts every write. *)
Definition takesAll (bw s : string) : bool := true.

Definition chunk0 : DumpedChunk :=
  mkChunk 0 (Some [mkSlice 7 0 4096 0 4096; mkSlice 9 4096 512 16 100]).

Definition chunk1 : DumpedChunk := mkChunk 1 None.

Definition node (cs : list DumpedChunk) : DumpedEntry :=
  mkEntry "f" [] None EmptyString [] cs [].

(** Whether [pat] occurs in [s]. *)
Fixpoint occursIn (pat s : string) : bool :=
  String.prefix pat s
  || match s with
     | EmptyString => false
     | String _ t => occursIn pat t
     end.

Lemma sapp_cons (x : ascii) (a b : string) :
  String x a +:+ b = String x (a +:+ b).
Proof. reflexivity. Qed.

Lemma sapp_nil_l (b : string) : EmptyString +:+ b = b.
Proof. reflexivity. Qed.

Lemma sapp_assoc (a b c : string) : (a +:+ b) +:+ c = a +:+ b +:+ c.
Proof.
  induction a as [|x a IH]; [done|]. by rewrite !sapp_cons, IH.
Qed.

Lemma sapp_nil_r (a : string) : a +:+ EmptyString = a.
Proof. induction a as [|x a IH]; [done|]. by rewrite sapp_cons, IH. Qed.

Lemma oneLine_app (a b : string) :
  oneLine (a +:+ b) = oneLine a && oneLine b.
Proof.
  induction a as [|x a IH]; [done|]. rewrite sapp_cons. cbn. rewrite IH.
  by rewrite andb_assoc.
Qed.

Lemma oneLine_uint (d : Decimal.uint) :
  oneLine (NilEmpty.string_of_uint d) = true.
Proof. induction d; cbn; auto. Qed.

Lemma oneLine_number (n : N) : oneLine (number n) = true.
Proof. apply oneLine_uint. Qed.

Lemma oneLine_join (sep : string) (l : list string) :
  oneLine sep = true → Forall (λ s, oneLine s = true) l →
  oneLine (join sep l) = true.
Proof.
  intros Hsep. induction 1 as [|x l Hx Hl IH]; [done|].
  destruct l as [|y l]; [done|].
  change (join sep (x :: y :: l)) with (x +:+ sep +:+ join sep (y :: l)).
  by rewrite !oneLine_app, Hx, Hsep, IH.
Qed.

Lemma oneLine_marshalSlice (s : DumpedSlice) : oneLine (marshalSlice s) = true.
Proof.
  unfold marshalSlice. rewrite !oneLine_app, !oneLine_number.
  by destruct (Pos s =? 0)%N, (Off s =? 0)%N;
    rewrite ?oneLine_app, ?oneLine_number.
Qed.

Lemma oneLine_marshalChunk (c : DumpedChunk) : oneLine (marshalChunk c) = true.
Proof.
  unfold marshalChunk. rewrite !oneLine_app, oneLine_number.
  destruct (Slices c) as [l|]; [|done].
  unfold array. rewrite !oneLine_app, oneLine_join; [done..|].
  apply Forall_fmap, Forall_forall. intros s _. apply oneLine_marshalSlice.
Qed.

Lemma oneLine_copies (n : nat) : oneLine (copies jsonIndent n) = true.
Proof.
  induction n as [|n IH]; [done|].
  cbn [copies]. by rewrite oneLine_app, IH.
Qed.

Lemma lines_oneLine (a : string) : oneLine a = true → lines a = [a].
Proof.
  induction a as [|x a IH]; [done|]. cbn [lines oneLine].
  destruct (Ascii.eqb x (ascii_of_N 10)); cbn [negb andb]; [discriminate|].
  intros Ha. by rewrite IH.
Qed.

Lemma lines_cons (a b : string) :
  oneLine a = true → lines (a +:+ nl +:+ b) = a :: lines b.
Proof.
  induction a as [|x a IH]; [done|].
  rewrite sapp_cons. cbn [lines oneLine].
  destruct (Ascii.eqb x (ascii_of_N 10)); cbn [negb andb]; [discriminate|].
  intros Ha. by rewrite IH.
Qed.

(** A text put together from lines has these lines. *)
Lemma lines_join (l : list string) :
  l ≠ [] → Forall (λ s, oneLine s = true) l → lines (join nl l) = l.
Proof.
  intros Hne Hl. induction Hl as [|x l Hx Hl IH]; [done|].
  destruct l as [|y l]; [by apply lines_oneLine|].
  change (join nl (x :: y :: l)) with (x +:+ nl +:+ join nl (y :: l)).
  rewrite lines_cons by done. by rewrite IH.
Qed.

Lemma oneLine_chunkLines (cp : string) (cs : list DumpedChunk) :
  oneLine cp = true → Forall (λ s, oneLine s = true) (chunkLines cp cs).
Proof.
  intros Hcp. induction cs as [|c cs IH]; [constructor|].
  destruct cs as [|c' cs].
  - repeat constructor. by rewrite oneLine_app, Hcp, oneLine_marshalChunk.
  - change (chunkLines cp (c :: c' :: cs))
      with ((cp +:+ marshalChunk c +:+ ",") :: chunkLines cp (c' :: cs)).
    constructor; [|done].
    by rewrite !oneLine_app, Hcp, oneLine_marshalChunk.
Qed.

Section accepted.

(** The text of the chunks, under a writer that accepts every write. *)
Variable sink : string → string → bool.
Hypothesis Hsink : ∀ bw s, sink bw s = true.

Lemma writeChunkLines_cons (cp : string) (len i : nat) (c : DumpedChunk)
    (cs : list DumpedChunk) (bw : string) :
  writeChunkLines sink cp len i (c :: cs) bw
  = writeChunkLines sink cp len (S i) cs
      (bw +:+ nl +:+ cp +:+ marshalChunk c
          +:+ (if (i =? len - 1)%nat then EmptyString else ",")).
Proof.
  change (writeChunkLines sink cp len i (c :: cs) bw)
    with (bind (write sink (nl +:+ cp +:+ marshalChunk c))
            (λ _, bind (if negb (i =? len - 1)%nat then write sink ","
                        else ret tt)
                       (λ _, writeChunkLines sink cp len (S i) cs)) bw).
  unfold bind, write, ret. rewrite Hsink.
  destruct (i =? len - 1)%nat; cbn [negb];
    by rewrite ?Hsink, ?sapp_nil_r, ?sapp_assoc.
Qed.

(** What the loop over the chunks appends, up to and including the line
    that closes the sequence. *)
Lemma writeChunkLines_text (cp last : string) (len : nat) :
  ∀ (cs : list DumpedChunk) (i : nat) (bw : string),
    cs ≠ [] → (i + List.length cs = len)%nat →
    bind (writeChunkLines sink cp len i cs)
         (λ _, write sink (nl +:+ last)) bw
    = Ret tt (bw +:+ nl +:+ join nl (chunkLines cp cs ++ [last])).
Proof.
  induction cs as [|c cs IH]; intros i bw Hne Hlen; [done|].
  unfold bind. rewrite writeChunkLines_cons.
  destruct cs as [|c' cs].
  - cbn in Hlen. cbn [writeChunkLines chunkLines app join].
    unfold write, ret. rewrite Hsink.
    replace (i =? len - 1)%nat with true by (symmetry; apply Nat.eqb_eq; lia).
    by rewrite sapp_nil_r, !sapp_assoc.
  - change (chunkLines cp (c :: c' :: cs))
      with ((cp +:+ marshalChunk c +:+ ",") :: chunkLines cp (c' :: cs)).
    specialize (IH (S i)). unfold bind in IH.
    replace (i =? len - 1)%nat with false
      by (symmetry; apply Nat.eqb_neq; cbn in Hlen; lia).
    rewrite IH by (done || cbn in Hlen |- *; lia).
    f_equal.
    destruct (chunkLines cp (c' :: cs) ++ [last]) as [|y l] eqn:Hl.
    { by destruct (chunkLines cp (c' :: cs)). }
    cbn [app]. rewrite Hl.
    change (join nl ((cp +:+ marshalChunk c +:+ ",") :: y :: l))
      with ((cp +:+ marshalChunk c +:+ ",") +:+ nl +:+ join nl (y :: l)).
    by rewrite !sapp_assoc.
Qed.

Lemma writeChunks_text (de : DumpedEntry) (depth : nat) (bw : string) :
  writeChunks sink de (copies jsonIndent depth) bw
  = Ret tt (bw +:+ chunksText depth (Chunks de)).
Proof.
  unfold writeChunks, chunksText.
  destruct (Chunks de) as [|c [|c' cs]] eqn:Hcs.
  - cbn [List.length Nat.eqb Nat.ltb Nat.leb]. unfold ret.
    by rewrite sapp_nil_r.
  - cbn [List.length Nat.eqb]. unfold write. by rewrite Hsink.
  - cbn [List.length Nat.eqb Nat.ltb Nat.leb].
    set (fp := copies jsonIndent depth +:+ jsonIndent).
    pose proof (writeChunkLines_text (fp +:+ jsonIndent) (fp +:+ "]")
                  (S (S (List.length cs))) (c :: c' :: cs) 0) as Htext.
    unfold bind in Htext |- *. unfold write at 1. rewrite Hsink.
    rewrite Htext by (done || cbn; lia).
    f_equal. cbn [app].
    change (join nl ("," :: ?x :: ?l)) with ("," +:+ nl +:+ join nl (x :: l)).
    destruct (chunkLines (fp +:+ jsonIndent) (c :: c' :: cs) ++ [fp +:+ "]"])
      as [|y l] eqn:Hl.
    { by destruct (chunkLines (fp +:+ jsonIndent) (c :: c' :: cs)). }
    match goal with
    | |- context [join nl (?x :: y :: l)] =>
      change (join nl (x :: y :: l)) with (x +:+ nl +:+ join nl (y :: l))
    end.
    by rewrite !sapp_assoc.
Qed.

End accepted.

Lemma Repeat_Some (s : string) (count : Z) (p : string) :
  Repeat s count = Some p → p = copies s (Z.to_nat count) ∧ (0 ≤ count)%Z.
Proof.
  unfold Repeat. destruct (Z.ltb_spec count 0); [done|].
  destruct (_ <? _)%Z; [done|]. by intros [= <-].
Qed.

Lemma Repeat_indent (depth : Z) :
  (0 ≤ depth < 2 ^ 62)%Z →
  Repeat jsonIndent depth = Some (copies jsonIndent (Z.to_nat depth)).
Proof.
  intros Hdepth. unfold Repeat.
  destruct (Z.ltb_spec depth 0); [lia|].
  destruct (Z.ltb_spec (2 ^ 63 - 1)
              (Z.of_nat (String.length jsonIndent) * depth)) as [Hlt|]; [|done].
  cbn in Hlt. lia.
Qed.

(** An extended attribute and what the loop over [de.Xattrs] leaves in
    its place: the same name, and the value escaped. *)
Definition escaped (ox : option DumpedXattr) (x' : DumpedXattr) : Prop :=
  ∃ x, ox = Some x
       ∧ XName x' = XName x ∧ escape (XValue x) = Some (XValue x').

(** The loop over the extended attributes returns no error and writes
    nothing; it panics exactly when an element is nil. *)
Lemma escapeXattrs_escaped (xs : list (option DumpedXattr)) (bw : string) :
  match escapeXattrs xs bw with
  | Ret xs' out => Forall2 escaped xs xs' ∧ out = bw
  | Err _ => False
  | Panic => None ∈ xs
  end.
Proof.
  induction xs as [|[x|] xs IH]; cbn [escapeXattrs].
  - by split; [constructor|].
  - unfold bind, must, ret.
    destruct (CodecSpec.escape_total (XValue x)) as [v Hv]. rewrite Hv.
    destruct (escapeXattrs xs bw) as [xs' out| |]; [|done|].
    + destruct IH as [Hall ->]. split; [|done].
      constructor; [|done]. by exists x.
    + by apply list_elem_of_further.
  - apply list_elem_of_here.
Qed.

Lemma escaped_is_Some (xs : list (option DumpedXattr))
    (xs' : list DumpedXattr) :
  Forall2 escaped xs xs' → None ∉ xs.
Proof.
  induction 1 as [|ox x' xs xs' (x & -> & _) _ IH]; [by intros ?%elem_of_nil|].
  intros [[=]|?]%elem_of_cons. by apply IH.
Qed.

Lemma escapeXattrs_returns (xs : list (option DumpedXattr)) (bw : string) :
  Forall is_Some xs → ∃ xs', escapeXattrs xs bw = Ret xs' bw.
Proof.
  intros Hall. pose proof (escapeXattrs_escaped xs bw) as Hrun.
  destruct (escapeXattrs xs bw) as [xs' out| |]; [|done|].
  - destruct Hrun as [_ ->]. by eexists.
  - rewrite Forall_forall in Hall. by destruct (Hall _ Hrun).
Qed.

(** *** Writers that refuse a write *)

(** A run under the writer [sink] is the run under another writer, or it
    panics and [sink] is a writer that refuses a write. *)
Definition refines (sink : string → string → bool) {A} (m m' : W A) : Prop :=
  ∀ bw, m bw = m' bw ∨ (m bw = Panic ∧ ∃ bw' s, sink bw' s = false).

Lemma refines_refl (sink : string → string → bool) {A} (m : W A) :
  refines sink m m.
Proof. intros bw. by left. Qed.

Lemma refines_bind (sink : string → string → bool) {A B} (m m' : W A)
    (k k' : A → W B) :
  refines sink m m' → (∀ a, refines sink (k a) (k' a)) →
  refines sink (bind m k) (bind m' k').
Proof.
  intros Hm Hk bw. unfold bind.
  destruct (Hm bw) as [<-|[-> ?]]; [|by right].
  destruct (m bw) as [a out|out|]; [apply Hk|by left..].
Qed.

Lemma refines_write (sink : string → string → bool) (s : string) :
  refines sink (write sink s) (write takesAll s).
Proof.
  intros bw. unfold write, takesAll.
  destruct (sink bw s) eqn:Hs; [by left|]. right. eauto.
Qed.

Lemma refines_if (sink : string → string → bool) {A} (b : bool)
    (m1 m1' m2 m2' : W A) :
  refines sink m1 m1' → refines sink m2 m2' →
  refines sink (if b then m1 else m2) (if b then m1' else m2').
Proof. by destruct b. Qed.

Ltac refines :=
  repeat first
    [ apply refines_write
    | apply refines_refl
    | apply refines_if
    | apply refines_bind; [|intros ?] ].

Lemma refines_writeChunkLines (sink : string → string → bool)
    (cp : string) (len : nat) (cs : list DumpedChunk) (i : nat) :
  refines sink (writeChunkLines sink cp len i cs)
               (writeChunkLines takesAll cp len i cs).
Proof.
  revert i. induction cs as [|c cs IH]; intros i; cbn [writeChunkLines].
  - apply refines_refl.
  - refines. apply IH.
Qed.

Lemma refines_writeChunks (sink : string → string → bool)
    (de : DumpedEntry) (prefix : string) :
  refines sink (writeChunks sink de prefix) (writeChunks takesAll de prefix).
Proof.
  unfold writeChunks. apply refines_if; [refines|].
  apply refines_if; [|refines].
  apply refines_bind; [refines|intros _].
  apply refines_bind; [apply refines_writeChunkLines|intros _].
  refines.
Qed.

Lemma refines_writeHead (sink : string → string → bool)
    (marshalAttr : option DumpedAttr → option string)
    (marshalXattrs : list DumpedXattr → option string)
    (de : DumpedEntry) (prefix : string) :
  refines sink (writeHead sink marshalAttr marshalXattrs de prefix)
               (writeHead takesAll marshalAttr marshalXattrs de prefix).
Proof. unfold writeHead. refines. Qed.

(** What a writer that refuses writes lets [writeJSON] return, a writer
    that accepts every write lets it return as well. *)
Lemma refines_writeJSON (sink : string → string → bool)
    (marshalAttr : option DumpedAttr → option string)
    (marshalXattrs : list DumpedXattr → option string)
    (de : DumpedEntry) (depth : Z) :
  refines sink (writeJSON sink marshalAttr marshalXattrs de depth)
               (writeJSON takesAll marshalAttr marshalXattrs de depth).
Proof.
  unfold writeJSON.
  apply refines_bind; [apply refines_refl|intros prefix].
  apply refines_bind; [apply refines_writeHead|intros xattrs].
  apply refines_bind; [apply refines_writeChunks|intros _].
  refines.
Qed.

Lemma refines_Ret (sink : string → string → bool) {A} (m m' : W A)
    (bw : string) (a : A) (out : string) :
  refines sink m m' → m bw = Ret a out → m' bw = Ret a out.
Proof. intros Hm Hrun. destruct (Hm bw) as [<-|[Hp _]]; congruence. Qed.

(** The text a run has written, when it returned. *)
Definition output {A} (r : run A) : option string :=
  match r with Ret _ bw => Some bw | _ => None end.

(** The head of a node when every write is accepted: it returns with the
    extended attributes escaped, returns an error of [json.Marshal], or
    panics at an extended attribute that is nil. *)
Lemma writeHead_takesAll
    (marshalAttr : option DumpedAttr → option string)
    (marshalXattrs : list DumpedXattr → option string)
    (de : DumpedEntry) (prefix bw : string) :
  match writeHead takesAll marshalAttr marshalXattrs de prefix bw with
  | Ret xattrs _ =>
    Forall2 escaped (Xattrs de) xattrs
    ∧ is_Some (marshalAttr (Attr de))
    ∧ (Xattrs de ≠ [] → is_Some (marshalXattrs xattrs))
  | Err _ =>
    marshalAttr (Attr de) = None
    ∨ ∃ xattrs, Forall2 escaped (Xattrs de) xattrs
                ∧ marshalXattrs xattrs = None
  | Panic => is_Some (marshalAttr (Attr de)) ∧ None ∈ Xattrs de
  end.
Proof.
  unfold writeHead, bind, must, try, write, ret, takesAll.
  destruct (CodecSpec.escape_total (Name de)) as [name ->].
  destruct (CodecSpec.escape_total (Symlink de)) as [target ->].
  destruct (marshalAttr (Attr de)) as [data|]; [|by left].
  assert (Hnil : (0 <? List.length (Xattrs de))%nat = false →
                 Forall2 escaped (Xattrs de) []).
  { destruct (Xattrs de); [constructor|done]. }
  assert (Hcons : (0 <? List.length (Xattrs de))%nat = false →
                  Xattrs de ≠ [] → False).
  { by destruct (Xattrs de). }
  destruct (0 <? String.length (Symlink de))%nat;
    (destruct (0 <? List.length (Xattrs de))%nat;
     [|split; [auto|split; [done|intros ?; exfalso; auto]]]).
  all: match goal with
       | |- context [escapeXattrs ?xs ?b] =>
         pose proof (escapeXattrs_escaped xs b) as Hrun;
         destruct (escapeXattrs xs b) as [xs' out| |]; [|done|done]
       end.
  all: destruct Hrun as [Hall ->].
  all: destruct (marshalXattrs xs') as [data'|] eqn:Hx; [|right; eauto].
  all: by rewrite Hx.
Qed.

(** X6.  [writeJSON] panics when [depth] is negative, and when
    [json.Marshal] has accepted the attribute and an element of
    [de.Xattrs] is nil.  When the writer accepts every write, [depth] is
    not negative and below 2^62, and no element of [de.Xattrs] is nil, it
    does not panic, and it returns nil when [json.Marshal] returns no
    error. *)
Theorem writeJSON_returns
    (sink : string → string → bool)
    (marshalAttr : option DumpedAttr → option string)
    (marshalXattrs : list DumpedXattr → option string)
    (de : DumpedEntry) (depth : Z) (bw : string) :
  ((depth < 0)%Z →
   writeJSON sink marshalAttr marshalXattrs de depth bw = Panic)
  ∧ (is_Some (marshalAttr (Attr de)) → None ∈ Xattrs de →
     writeJSON sink marshalAttr marshalXattrs de depth bw = Panic)
  ∧ ((∀ bw' s, sink bw' s = true) → (0 ≤ depth < 2 ^ 62)%Z →
     Forall is_Some (Xattrs de) →
     writeJSON sink marshalAttr marshalXattrs de depth bw ≠ Panic
     ∧ (is_Some (marshalAttr (Attr de)) →
        (∀ xs, is_Some (marshalXattrs xs)) →
        ∃ xattrs out,
          writeJSON sink marshalAttr marshalXattrs de depth bw
          = Ret xattrs out)).
Proof.
  split; [|split].
  - intros Hdepth. unfold writeJSON, bind, must, Repeat.
    by destruct (Z.ltb_spec depth 0); [|lia].
  - intros Hattr Hnil.
    destruct (refines_writeJSON sink marshalAttr marshalXattrs de depth bw)
      as [->|[Hp _]]; [|done].
    unfold writeJSON, bind, must.
    destruct (Repeat jsonIndent depth) as [prefix|]; [|done].
    pose proof (writeHead_takesAll marshalAttr marshalXattrs de prefix bw)
      as Hhead.
    destruct (writeHead takesAll marshalAttr marshalXattrs de prefix bw)
      as [xattrs out|out|]; [| |done].
    + destruct Hhead as [Hall _]. by destruct (escaped_is_Some _ _ Hall).
    + destruct Hhead as [Hnone|(xattrs & Hall & _)].
      * rewrite Hnone in Hattr. by destruct Hattr.
      * by destruct (escaped_is_Some _ _ Hall).
  - intros Hsink Hdepth Hall.
    unfold writeJSON, writeHead, bind, must, try, write, ret.
    rewrite (Repeat_indent depth Hdepth).
    destruct (CodecSpec.escape_total (Name de)) as [name ->].
    destruct (CodecSpec.escape_total (Symlink de)) as [target ->].
    rewrite !Hsink.
    destruct (marshalAttr (Attr de)) as [data|]; [|by split; [|intros [??]]].
    rewrite !Hsink.
    destruct (0 <? String.length (Symlink de))%nat; rewrite ?Hsink;
      destruct (0 <? List.length (Xattrs de))%nat;
      try match goal with
          | |- context [escapeXattrs ?xs ?b] =>
            destruct (escapeXattrs_returns xs b Hall) as [xs' ->];
            destruct (marshalXattrs xs') as [data'|] eqn:Hx
          end;
      rewrite ?Hsink, ?(writeChunks_text sink Hsink), ?Hsink;
      (split; [done|]); intros _ Hmarshal; eauto;
      destruct (Hmarshal xs') as [? Hsome]; congruence.
Qed.

(** C9, as the code has it.  A node with exactly one chunk gets the field
    inline, the one-element array on the line of the key; a node with two
    chunks or more gets an opening line, one line for each chunk and a
    closing line; a node without chunks gets no such field at all: its
    text is that of the node up to the chunks followed by the closing
    brace, as a writer that accepts every write takes it. *)
Theorem writeJSON_chunks_field
    (sink : string → string → bool)
    (marshalAttr : option DumpedAttr → option string)
    (marshalXattrs : list DumpedXattr → option string)
    (de : DumpedEntry) (depth : Z) (bw : string)
    (xattrs : list DumpedXattr) (out : string) :
  writeJSON sink marshalAttr marshalXattrs de depth bw = Ret xattrs out →
  let prefix := copies jsonIndent (Z.to_nat depth) in
  let fp := prefix +:+ jsonIndent in
  let field := chunksText (Z.to_nat depth) (Chunks de) in
  ∃ before : string,
    writeJSON takesAll marshalAttr marshalXattrs (withChunks de []) depth bw
    = Ret xattrs (before +:+ nl +:+ prefix +:+ "}")
    ∧ out = before +:+ field +:+ nl +:+ prefix +:+ "}"
    ∧ match Chunks de with
      | [] => field = EmptyString
      | [c] =>
        lines field
        = [","%string;
           fp +:+ dq +:+ "chunks" +:+ dq +:+ ": [" +:+ marshalChunk c +:+ "]"]
      | cs =>
        lines field
        = [","%string; fp +:+ dq +:+ "chunks" +:+ dq +:+ ": ["]
          ++ chunkLines (fp +:+ jsonIndent) cs ++ [fp +:+ "]"]
      end.
Proof.
  intros Hrun prefix fp field.
  apply (refines_Ret _ _ _ _ _ _ (refines_writeJSON _ _ _ _ _)) in Hrun.
  unfold writeJSON in Hrun |- *. unfold bind, must in Hrun |- *.
  destruct (Repeat jsonIndent depth) as [p|] eqn:Hp; [|done].
  apply Repeat_Some in Hp as [-> _]. fold prefix in Hrun |- *.
  change (writeHead takesAll marshalAttr marshalXattrs (withChunks de [])
            prefix bw)
    with (writeHead takesAll marshalAttr marshalXattrs de prefix bw).
  destruct (writeHead takesAll marshalAttr marshalXattrs de prefix bw)
    as [xs before| |]; [|discriminate..].
  subst prefix.
  rewrite (writeChunks_text takesAll) in Hrun by done.
  rewrite (writeChunks_text takesAll) by done.
  set (prefix := copies jsonIndent (Z.to_nat depth)) in *.
  unfold write, ret, takesAll in Hrun |- *.
  injection Hrun as -> <-.
  assert (Hfp : oneLine fp = true).
  { subst fp prefix. by rewrite oneLine_app, oneLine_copies. }
  exists before. split; [|split].
  - cbn [withChunks Chunks chunksText]. by rewrite sapp_nil_r.
  - by rewrite !sapp_assoc.
  - subst field. unfold chunksText. fold prefix. fold fp.
    destruct (Chunks de) as [|c [|c' cs]]; [done| |].
    + apply lines_join; [done|].
      repeat constructor.
      by rewrite !oneLine_app, Hfp, oneLine_marshalChunk.
    + apply lines_join; [done|].
      constructor; [done|]. constructor.
      { by rewrite !oneLine_app, Hfp. }
      apply Forall_app. split.
      * apply oneLine_chunkLines. by rewrite oneLine_app, Hfp.
      * repeat constructor. by rewrite oneLine_app, Hfp.
Qed.

Lemma writeJSON_chunks_field_witness :
  lines (chunksText 1 [chunk0; chunk1])
  = [","%string; "    " +:+ dq +:+ "chunks" +:+ dq +:+ ": ["]
    ++ chunkLines "      " [chunk0; chunk1] ++ ["    ]"%string].
Proof.
  destruct (writeJSON_chunks_field takesAll marshalNil marshalNoXattrs
              (node [chunk0; chunk1]) 1 EmptyString []
              (default EmptyString
                 (output (writeJSON takesAll marshalNil marshalNoXattrs
                            (node [chunk0; chunk1]) 1 EmptyString))))
    as (before & _ & _ & Hlines).
  - vm_compute. reflexivity.
  - exact Hlines.
Defined.

(** C9, zero chunks.  The text of a node without chunks has no "chunks"
    field, neither inline nor otherwise. *)
Lemma writeJSON_no_chunks_no_field :
  output (writeJSON takesAll marshalNil marshalNoXattrs (node []) 0
            EmptyString)
  = Some (nl +:+ dq +:+ "f" +:+ dq +:+ ": {" +:+ nl +:+ "  " +:+ dq +:+ "attr"
             +:+ dq +:+ ": null" +:+ nl +:+ "}")
  ∧ from_option (occursIn "chunks") true
      (output (writeJSON takesAll marshalNil marshalNoXattrs (node []) 0
                 EmptyString))
    = false.
Proof. split; vm_compute; reflexivity. Qed.

(** *** The extended attributes and the head of a directory *)

(** The node without its symbolic link and its chunks. *)
Definition bare (de : DumpedEntry) : DumpedEntry :=
  mkEntry (Name de) (Parents de) (Attr de) EmptyString (Xattrs de) []
          (Entries de).

(** X8.  A call of [writeJSON] that returns nil leaves every extended
    attribute of the node with its value escaped: the values are escaped
    in place, so that a second call on the node escapes them again. *)
Theorem writeJSON_escapes_xattrs_in_place
    (sink : string → string → bool)
    (marshalAttr : option DumpedAttr → option string)
    (marshalXattrs : list DumpedXattr → option string)
    (de : DumpedEntry) (depth : Z) (bw : string)
    (xattrs : list DumpedXattr) (out : string) :
  writeJSON sink marshalAttr marshalXattrs de depth bw = Ret xattrs out →
  Forall2 escaped (Xattrs de) xattrs.
Proof.
  intros Hrun.
  apply (refines_Ret _ _ _ _ _ _ (refines_writeJSON _ _ _ _ _)) in Hrun.
  unfold writeJSON, bind, must in Hrun.
  destruct (Repeat jsonIndent depth) as [prefix|]; [|done].
  pose proof (writeHead_takesAll marshalAttr marshalXattrs de prefix bw)
    as Hhead.
  destruct (writeHead takesAll marshalAttr marshalXattrs de prefix bw)
    as [xs before| |]; [|done..].
  destruct (writeChunks takesAll de prefix before) as [[] mid| |]; [|done..].
  unfold write, ret, takesAll in Hrun. injection Hrun as <- _.
  by destruct Hhead.
Qed.

(** [writeJsonWithOutEntry] writes the head of the node without its
    symbolic link, and then the opening of the field of the members. *)
Lemma writeJsonWithOutEntry_head
    (sink : string → string → bool)
    (marshalAttr : option DumpedAttr → option string)
    (marshalXattrs : list DumpedXattr → option string)
    (de : DumpedEntry) (depth : Z) (bw : string) :
  writeJsonWithOutEntry sink marshalAttr marshalXattrs de depth bw
  = bind (must (Repeat jsonIndent depth))
      (λ prefix,
         bind (writeHead sink marshalAttr marshalXattrs (bare de) prefix)
           (λ xattrs,
              bind (write sink ("," +:+ nl +:+ (prefix +:+ jsonIndent) +:+ dq
                                +:+ "entries" +:+ dq +:+ ": {"))
                   (λ _, ret xattrs))) bw.
Proof.
  unfold writeJsonWithOutEntry, writeHead, bind, must, try, write, ret.
  cbn [bare Name Attr Symlink Xattrs String.length Nat.ltb Nat.leb].
  destruct (Repeat jsonIndent depth) as [prefix|]; [|done].
  destruct (escape (Name de)) as [name|]; [|done].
  repeat match goal with
         | |- context [sink ?b ?s] => destruct (sink b s); [|done]
         | |- context [escapeXattrs ?xs ?b] =>
           destruct (escapeXattrs xs b) as [xs' out| |]; [|done..]
         | |- context [marshalAttr ?a] => destruct (marshalAttr a); [|done]
         | |- context [marshalXattrs ?a] =>
           destruct (marshalXattrs a); [|done]
         | |- context [(0 <? ?n)%nat] => destruct (0 <? n)%nat
         end; done.
Qed.

(** X9.  [writeJsonWithOutEntry] writes what [writeJSON] writes for the
    node without symbolic link and chunks, with the opening of the field
    of the members in the place of the closing brace; it returns an error
    where [writeJSON] does, with the same text written; and when it
    panics, [writeJSON] panics on that node as well, also with a writer
    that accepts every write, unless the writer is one that refuses a
    write. *)
Theorem header_is_node_left_open
    (sink : string → string → bool)
    (marshalAttr : option DumpedAttr → option string)
    (marshalXattrs : list DumpedXattr → option string)
    (de : DumpedEntry) (depth : Z) (bw : string) :
  let prefix := copies jsonIndent (Z.to_nat depth) in
  let fp := prefix +:+ jsonIndent in
  match writeJsonWithOutEntry sink marshalAttr marshalXattrs de depth bw with
  | Ret xattrs out =>
    ∃ before,
      out = before +:+ "," +:+ nl +:+ fp +:+ dq +:+ "entries" +:+ dq +:+ ": {"
      ∧ writeJSON takesAll marshalAttr marshalXattrs (bare de) depth bw
        = Ret xattrs (before +:+ nl +:+ prefix +:+ "}")
  | Err out =>
    writeJSON sink marshalAttr marshalXattrs (bare de) depth bw = Err out
  | Panic =>
    writeJSON takesAll marshalAttr marshalXattrs (bare de) depth bw = Panic
    ∨ ∃ bw' s, sink bw' s = false
  end.
Proof.
  intros prefix fp. rewrite writeJsonWithOutEntry_head.
  unfold writeJSON, bind, must.
  destruct (Repeat jsonIndent depth) as [p|] eqn:Hp; [|by left].
  apply Repeat_Some in Hp as [-> _]. fold prefix. fold fp.
  destruct (refines_writeHead sink marshalAttr marshalXattrs (bare de)
              prefix bw) as [Hhead|[Hhead ?]]; [|rewrite Hhead; by right].
  rewrite <- Hhead.
  destruct (writeHead sink marshalAttr marshalXattrs (bare de) prefix bw)
    as [xs before|out|]; [|done|by left].
  subst prefix. rewrite (writeChunks_text takesAll) by done.
  unfold write, ret. cbn [bare Chunks chunksText takesAll].
  rewrite sapp_nil_r.
  destruct (sink before _) eqn:Hs; [by eexists|].
  right. eauto.
Qed.

(** A marshalling function for the examples that writes nothing of the
    extended attributes. *)
Definition marshalAny (xs : list DumpedXattr) : option string :=
  Some "[]"%string.

Definition tagged : DumpedEntry :=
  mkEntry "f" [] None EmptyString [Some (mkXattr "user.k" "100%")] [] [].

Lemma writeJSON_returns_witness :
  ∃ xattrs out,
    writeJSON takesAll marshalNil marshalAny tagged 1 EmptyString
    = Ret xattrs out.
Proof.
  apply (writeJSON_returns takesAll marshalNil marshalAny tagged 1
           EmptyString).
  - reflexivity.
  - vm_compute. split; [discriminate|reflexivity].
  - repeat constructor. vm_compute. eauto.
  - vm_compute. eauto.
  - intros xs. vm_compute. eauto.
Defined.

Lemma writeJSON_escapes_xattrs_in_place_witness :
  Forall2 escaped [Some (mkXattr "user.k" "100%")]
          [mkXattr "user.k" "100%25"].
Proof.
  apply (writeJSON_escapes_xattrs_in_place takesAll marshalNil marshalAny
           tagged 0 EmptyString [mkXattr "user.k" "100%25"]
           (default EmptyString
              (output (writeJSON takesAll marshalNil marshalAny tagged 0
                         EmptyString)))).
  vm_compute. reflexivity.
Defined.

End WriterSpec.

(** ** The hardlink-resolving collector *)

Module Collector.
Import Dump.

(** Modelled from the spec: the constants [TypeFile], [TypeDirectory] and
    the other type tags are declared outside dump.go; these are the tags
    that the data model of the specification lists. *)
Inductive FileType :=
  | TypeFile | TypeDirectory | TypeSymlink | TypeDevice | TypeFIFO
  | TypeSocket.

Global Instance FileType_eq_dec : EqDecision FileType.
Proof. solve_decision. Defined.

(** The address of a node of the tree that is loaded: the indices of the
    members chosen on the way from the root.  Every node is an object of
    its own, as the JSON decoder allocates them. *)
Definition loc := list nat.

(** A [*DumpedEntry]: the address of the object and what it holds.  The
    fields that [collectEntry] assigns ([Name], [Parents], [Attr.Nlink])
    are read through the store of the [State], where an assignment through
    one pointer is seen through every other pointer to the object. *)
Record ptr := mkPtr { addr : loc; obj : DumpedEntry }.

Inductive Error :=
  | InodeConflict (inode : Ino)
    (* inode conflict: %d *)
  | InvalidNlink (nlink : Z) (inode : Ino) (type : string).
    (* invalid nlink %d for inode %d type %s *)

Global Instance Error_eq_dec : EqDecision Error.
Proof. solve_decision. Defined.

(** How a call ends: it returns nil, returns an error, or panics on a nil
    pointer. *)
Inductive result := ok | error (err : Error) | panic.

Global Instance result_eq_dec : EqDecision result.
Proof. solve_decision. Defined.

Record State := mkState {
  entries : gmap Z ptr;             (* the map [entries] *)
  names : gmap loc string;          (* Name, where assigned *)
  parents : gmap loc (list Ino);    (* Parents, where assigned *)
  nlinks : gmap loc Z;              (* Attr.Nlink, where assigned *)
  progress : list (Z * Z);          (* the calls of showProgress *)
  warnings : list (Ino * string);   (* the calls of logger.Warnf *)
}.

(** Before a run on an empty map, as [make] returns it: nothing is
    assigned, and no call is made. *)
Definition init : State := mkState ∅ ∅ ∅ ∅ [] [].

Definition setEntry (inode : Ino) (q : ptr) (st : State) : State :=
  mkState (<[inode := q]> (entries st)) (names st) (parents st) (nlinks st)
          (progress st) (warnings st).

Definition setName (a : loc) (name : string) (st : State) : State :=
  mkState (entries st) (<[a := name]> (names st)) (parents st) (nlinks st)
          (progress st) (warnings st).

Definition setParents (a : loc) (ps : list Ino) (st : State) : State :=
  mkState (entries st) (names st) (<[a := ps]> (parents st)) (nlinks st)
          (progress st) (warnings st).

Definition setNlink (a : loc) (n : Z) (st : State) : State :=
  mkState (entries st) (names st) (parents st) (<[a := n]> (nlinks st))
          (progress st) (warnings st).

Definition called (totalIncr currentIncr : Z) (st : State) : State :=
  mkState (entries st) (names st) (parents st) (nlinks st)
          (progress st ++ [(totalIncr, currentIncr)]) (warnings st).

Definition warned (inode : Ino) (name : string) (st : State) : State :=
  mkState (entries st) (names st) (parents st) (nlinks st) (progress st)
          (warnings st ++ [(inode, name)]).

(** The value of [Name], [Parents] and [Attr.Nlink] of the object at an
    address: what was assigned, or else what the decoder left there. *)
Definition getName (st : State) (a : loc) (e : DumpedEntry) : string :=
  default (Name e) (names st !! a).

Definition getParents (st : State) (a : loc) (e : DumpedEntry) : list Ino :=
  default (Parents e) (parents st !! a).

Definition getNlink (st : State) (a : loc) (attr : DumpedAttr) : Z :=
  default (Nlink attr) (nlinks st !! a).

(** [uint32] and [int64] arithmetic. *)
Definition wrap32 (z : Z) : Z := z mod 2 ^ 32.

Definition wrap64 (z : Z) : Z := (z + 2 ^ 63) mod 2 ^ 64 - 2 ^ 63.

(** [attr.Ctime*1e9 + int64(attr.Ctimensec)]. *)
Definition ctimeNano (attr : DumpedAttr) : Z :=
  wrap64 (wrap64 (Ctime attr * 10 ^ 9) + Ctimensec attr).

Section collectEntry.

(** [typeFromString] and [TrashInode] are declared outside dump.go;
    [typeFromString] is taken as a function on every string.
    [showProgress] is [true] when the callback is not nil; its calls are
    recorded in [progress]. *)
Variable typeFromString : string → FileType.
Variable TrashInode : Ino.
Variable showProgress : bool.

Section rangeEntries.

Variable collectEntry : loc → DumpedEntry → State → result * State.

(** [for name, child := range e.Entries] in the object at [p], whose
    inode is [inode] and whose attribute is [attr], from the [k]-th member
    on.  The first assignment, [child.Name = name], panics on a member
    that is nil. *)
Fixpoint rangeEntries (p : loc) (inode : Ino) (attr : DumpedAttr) (k : nat)
    (cs : list (string * option DumpedEntry)) (st : State) : result * State :=
  match cs with
  | [] => (ok, st)
  | (name, None) :: cs' => (panic, st)
  | (name, Some child) :: cs' =>
    let c := p ++ [k] in
    let st := setName c name st in
    let st := setParents c [inode] st in
    match Attr child with
    | None => rangeEntries p inode attr (S k) cs' (warned inode name st)
    | Some cattr =>
      let st :=
        if decide (typeFromString (Type_ cattr) = TypeDirectory)
        then setNlink p (wrap32 (getNlink st p attr + 1)) st
        else st in
      match collectEntry c child st with
      | (ok, st) => rangeEntries p inode attr (S k) cs' st
      | (err, st) => (err, st)
      end
    end
  end.

End rangeEntries.

Fixpoint collectEntry (p : loc) (e : DumpedEntry) (st : State) {struct e}
    : result * State :=
  match Attr e with
  | None => (panic, st)
  | Some attr =>
    let typ := typeFromString (Type_ attr) in
    let inode := Inode attr in
    let st :=
      if showProgress then
        if decide (typ = TypeDirectory)
        then called (Z.of_nat (List.length (Entries e))) 1 st
        else called 0 1 st
      else st in
    match entries st !! inode with
    | Some exist' =>
      if decide (typ ≠ TypeFile) then (error (InodeConflict inode), st) else
      match Attr (obj exist') with
      | None => (panic, st)
      | Some eattr =>
        if decide (typeFromString (Type_ eattr) ≠ TypeFile)
        then (error (InodeConflict inode), st) else
        let st :=
          setNlink (addr exist')
                   (wrap32 (getNlink st (addr exist') eattr + 1)) st in
        let st :=
          setParents (addr exist')
                     (getParents st (addr exist') (obj exist')
                      ++ getParents st p e) st in
        if (ctimeNano eattr <? ctimeNano attr)%Z then
          let st := setNlink p (getNlink st (addr exist') eattr) st in
          let st :=
            setParents p (getParents st (addr exist') (obj exist')) st in
          (ok, setEntry inode (mkPtr p e) st)
        else (ok, st)
      end
    | None =>
      let st := setEntry inode (mkPtr p e) st in
      if decide (typ = TypeFile) then (ok, setNlink p 1 st)
      else if decide (typ = TypeDirectory) then
        let st :=
          if decide (inode = 1%Z ∨ inode = TrashInode)
          then setParents p [1%Z] st else st in
        let st := setNlink p 2 st in
        rangeEntries collectEntry p inode attr 0 (Entries e) st
      else if decide (getNlink st p attr ≠ 1%Z)
      then (error (InvalidNlink (getNlink st p attr) inode (Type_ attr)), st)
      else (ok, st)
    end
  end.

End collectEntry.

End Collector.

(** ** Properties of the collector *)

Module CollectorSpec.
Import Dump Collector.

(** Induction on a tree with the hypothesis for every member of
    [Entries]. *)
Lemma DumpedEntry_tree_ind (P : DumpedEntry → Prop) :
  (∀ e, Forall (λ nc, from_option P True nc.2) (Entries e) → P e) →
  ∀ e, P e.
Proof.
  intros step. fix IH 1. intros [name ps attr sym xs cs es].
  apply step. cbn [Entries].
  induction es as [|[name' [child|]] es IHes]; constructor.
  - apply IH.
  - apply IHes.
  - exact I.
  - apply IHes.
Qed.

Section facts.

Variable typeFromString : string → FileType.
Variable TrashInode : Ino.
Variable showProgress : bool.

#[local] Abbreviation collect :=
  (collectEntry typeFromString TrashInode showProgress).
#[local] Abbreviation range :=
  (rangeEntries typeFromString
     (collectEntry typeFromString TrashInode showProgress)).

(** The state after the call of [showProgress] at the head of
    [collectEntry]. *)
Definition entered (e : DumpedEntry) (attr : DumpedAttr) (st : State) : State :=
  if showProgress then
    if decide (typeFromString (Type_ attr) = TypeDirectory)
    then called (Z.of_nat (List.length (Entries e))) 1 st
    else called 0 1 st
  else st.

(** The state after the head of the body of the loop over the members:
    the name and the parent of the member are assigned. *)
Definition adopted (p : loc) (inode : Ino) (k : nat) (name : string)
    (st : State) : State :=
  setParents (p ++ [k]) [inode] (setName (p ++ [k]) name st).

Lemma collectEntry_eq (p : loc) (e : DumpedEntry) (st : State) :
  collect p e st
  = match Attr e with
    | None => (panic, st)
    | Some attr =>
      let typ := typeFromString (Type_ attr) in
      let inode := Inode attr in
      let st := entered e attr st in
      match entries st !! inode with
      | Some exist' =>
        if decide (typ ≠ TypeFile) then (error (InodeConflict inode), st) else
        match Attr (obj exist') with
        | None => (panic, st)
        | Some eattr =>
          if decide (typeFromString (Type_ eattr) ≠ TypeFile)
          then (error (InodeConflict inode), st) else
          let st :=
            setNlink (addr exist')
                     (wrap32 (getNlink st (addr exist') eattr + 1)) st in
          let st :=
            setParents (addr exist')
                       (getParents st (addr exist') (obj exist')
                        ++ getParents st p e) st in
          if (ctimeNano eattr <? ctimeNano attr)%Z then
            let st := setNlink p (getNlink st (addr exist') eattr) st in
            let st :=
              setParents p (getParents st (addr exist') (obj exist')) st in
            (ok, setEntry inode (mkPtr p e) st)
          else (ok, st)
        end
      | None =>
        let st := setEntry inode (mkPtr p e) st in
        if decide (typ = TypeFile) then (ok, setNlink p 1 st)
        else if decide (typ = TypeDirectory) then
          let st :=
            if decide (inode = 1%Z ∨ inode = TrashInode)
            then setParents p [1%Z] st else st in
          let st := setNlink p 2 st in
          range p inode attr 0 (Entries e) st
        else if decide (getNlink st p attr ≠ 1%Z)
        then (error (InvalidNlink (getNlink st p attr) inode (Type_ attr)), st)
        else (ok, st)
      end
    end.
Proof. destruct e; reflexivity. Qed.

Lemma rangeEntries_cons (p : loc) (inode : Ino) (attr : DumpedAttr) (k : nat)
    (name : string) (child : DumpedEntry) (cs : list (string * option DumpedEntry))
    (st : State) :
  range p inode attr k ((name, Some child) :: cs) st
  = let st := adopted p inode k name st in
    match Attr child with
    | None => range p inode attr (S k) cs (warned inode name st)
    | Some cattr =>
      let st :=
        if decide (typeFromString (Type_ cattr) = TypeDirectory)
        then setNlink p (wrap32 (getNlink st p attr + 1)) st
        else st in
      match collect (p ++ [k]) child st with
      | (ok, st) => range p inode attr (S k) cs st
      | (err, st) => (err, st)
      end
    end.
Proof. reflexivity. Qed.

Lemma entries_entered e attr st : entries (entered e attr st) = entries st.
Proof. unfold entered. by repeat case_match. Qed.

Lemma nlinks_entered e attr st : nlinks (entered e attr st) = nlinks st.
Proof. unfold entered. by repeat case_match. Qed.

Lemma parents_entered e attr st : parents (entered e attr st) = parents st.
Proof. unfold entered. by repeat case_match. Qed.

Lemma warnings_entered e attr st : warnings (entered e attr st) = warnings st.
Proof. unfold entered. by repeat case_match. Qed.

Lemma getNlink_entered e attr st a attr' :
  getNlink (entered e attr st) a attr' = getNlink st a attr'.
Proof. unfold getNlink. by rewrite nlinks_entered. Qed.

Lemma getParents_entered e attr st a e' :
  getParents (entered e attr st) a e' = getParents st a e'.
Proof. unfold getParents. by rewrite parents_entered. Qed.

(** C7.  A node that is seen for the first time and is neither a regular
    file nor a directory fails with the invalid-nlink error that names
    its inode exactly when its link count is not 1, and is accepted
    otherwise. *)
Theorem other_types_need_nlink_one (p : loc) (e : DumpedEntry)
    (attr : DumpedAttr) (st : State) :
  Attr e = Some attr →
  entries st !! Inode attr = None →
  typeFromString (Type_ attr) ≠ TypeFile →
  typeFromString (Type_ attr) ≠ TypeDirectory →
  let nlink := getNlink st p attr in
  let err := InvalidNlink nlink (Inode attr) (Type_ attr) in
  (fst (collect p e st) = error err ↔ nlink ≠ 1%Z)
  ∧ (fst (collect p e st) = ok ↔ nlink = 1%Z)
  ∧ ∀ err', fst (collect p e st) = error err' → err' = err.
Proof.
  intros Hattr Hnew Hfile Hdir nlink err.
  rewrite collectEntry_eq, Hattr. cbv zeta.
  rewrite entries_entered, Hnew.
  rewrite decide_False by done. rewrite decide_False by done.
  assert (Hn : getNlink
                 (setEntry (Inode attr) (mkPtr p e) (entered e attr st)) p attr
               = nlink).
  { unfold getNlink, setEntry. cbn. by rewrite nlinks_entered. }
  rewrite Hn. fold err.
  destruct (decide (nlink ≠ 1%Z)) as [Hne|Heq]; cbn [fst].
  - split; [done|]. split; [|by intros err' [= <-]].
    split; [discriminate|done].
  - apply dec_stable in Heq.
    split; [split; [discriminate|done]|].
    split; [done|discriminate].
Qed.

(** *** What holds of every call, however it ends *)

(** No key leaves the map. *)
Definition grows (st st' : State) : Prop :=
  ∀ i, is_Some (entries st !! i) → is_Some (entries st' !! i).

(** The map holds, under [i], a node of type [t] that is neither a regular
    file nor a directory and whose link count is [n], which is not 1. *)
Definition offending (st : State) (n : Z) (i : Ino) (t : string) : Prop :=
  ∃ q attr,
    entries st !! i = Some q ∧ Attr (obj q) = Some attr
    ∧ Inode attr = i ∧ Type_ attr = t
    ∧ getNlink st (addr q) attr = n ∧ n ≠ 1%Z
    ∧ typeFromString t ≠ TypeFile ∧ typeFromString t ≠ TypeDirectory.

(** Every pointer in the map points to a node with an attribute. *)
Definition attributed (st : State) : Prop :=
  ∀ i q, entries st !! i = Some q → is_Some (Attr (obj q)).

Section allObjects.

Variable objects : DumpedEntry → Prop.

Fixpoint allObjects (cs : list (string * option DumpedEntry)) : Prop :=
  match cs with
  | [] => True
  | (_, None) :: _ => False
  | (_, Some child) :: cs' => objects child ∧ allObjects cs'
  end.

End allObjects.

(** Every member of the node, at every depth, is an object: no member
    is null in the document. *)
Fixpoint objects (e : DumpedEntry) : Prop := allObjects objects (Entries e).

Lemma objects_eq (e : DumpedEntry) :
  objects e = allObjects objects (Entries e).
Proof. by destruct e. Qed.

Definition anyCall (r : result) (st st' : State) (hasAttr : Prop) : Prop :=
  grows st st'
  ∧ (∀ n i t, r = error (InvalidNlink n i t) →
       offending st' n i t ∧ entries st !! i = None)
  ∧ (attributed st → attributed st' ∧ (hasAttr → r ≠ panic)).

Lemma grows_refl st : grows st st.
Proof. by intros i. Qed.

Lemma grows_trans st1 st2 st3 : grows st1 st2 → grows st2 st3 → grows st1 st3.
Proof. intros H12 H23 i Hi. by apply H23, H12. Qed.

Lemma grows_None st st' i :
  grows st st' → entries st' !! i = None → entries st !! i = None.
Proof.
  intros Hg Hnone. destruct (entries st !! i) as [q|] eqn:Hq; [|done].
  destruct (Hg i) as [q' Hq']; [by rewrite Hq|congruence].
Qed.

Lemma grows_setEntry st i q : grows st (setEntry i q st).
Proof.
  intros j Hj. cbn. destruct (decide (i = j)) as [->|Hne].
  - rewrite lookup_insert_eq. eauto.
  - by rewrite lookup_insert_ne.
Qed.

Lemma attributed_setEntry st i p e :
  attributed st → is_Some (Attr e) → attributed (setEntry i (mkPtr p e) st).
Proof.
  intros Hst He j q. cbn. destruct (decide (i = j)) as [->|Hne].
  - rewrite lookup_insert_eq. by intros [= <-].
  - rewrite lookup_insert_ne by done. apply Hst.
Qed.

Lemma rangeEntries_anyCall (p : loc) (inode : Ino) (attr : DumpedAttr)
    (cs : list (string * option DumpedEntry)) :
  Forall (λ nc, from_option
                  (λ c, ∀ p st, anyCall (collect p c st).1 st (collect p c st).2
                                  (is_Some (Attr c) ∧ objects c))
                  True nc.2) cs →
  ∀ k st, anyCall (range p inode attr k cs st).1 st
                  (range p inode attr k cs st).2 (allObjects objects cs).
Proof.
  induction 1 as [|[name [child|]] cs Hchild _ IH]; intros k st.
  { cbn. split; [apply grows_refl|]. split; [done|]. by intros Hst. }
  2:{ cbn. split; [apply grows_refl|]. split; [done|]. by intros Hst. }
  rewrite rangeEntries_cons. cbv zeta. cbn [from_option snd] in Hchild.
  cbn [allObjects].
  destruct (Attr child) as [cattr|] eqn:Hcattr.
  2:{ destruct (IH (S k) (warned inode name (adopted p inode k name st)))
        as (Hg & Herr & Hattr).
      split; [exact Hg|]. split; [exact Herr|].
      intros Hst. destruct (Hattr Hst) as [H1 H2]. split; [done|].
      intros [_ Hcs]. by apply H2. }
  set (st1 := if decide (typeFromString (Type_ cattr) = TypeDirectory)
              then _ else _).
  assert (Hst1 : entries st1 = entries st).
  { subst st1. by case_decide. }
  specialize (Hchild (p ++ [k]) st1).
  destruct (collect (p ++ [k]) child st1) as [r st2].
  cbn [fst snd] in Hchild. destruct Hchild as (Hg & Herr & Hattr).
  assert (Hg1 : grows st st2).
  { intros i Hi. apply Hg. by rewrite Hst1. }
  assert (Hattr1 : attributed st →
            attributed st2 ∧ (objects child → r ≠ panic)).
  { intros Hst. destruct Hattr as [H1 H2]; [|by eauto].
    intros i q. rewrite Hst1. apply Hst. }
  destruct r as [|err|].
  - destruct (IH (S k) st2) as (Hg' & Herr' & Hattr').
    split; [by eapply grows_trans|]. split.
    + intros n i t Hr. destruct (Herr' n i t Hr) as [Hoff Hnone].
      split; [done|]. by eapply grows_None.
    + intros Hst. destruct (Hattr1 Hst) as [Hst2 _].
      destruct (Hattr' Hst2) as [H1 H2]. split; [done|].
      intros [_ Hcs]. by apply H2.
  - cbn [fst snd]. split; [done|]. split.
    + intros n i t Hr. destruct (Herr n i t Hr) as [Hoff Hnone].
      split; [done|]. by rewrite <- Hst1.
    + intros Hst. split; [by apply Hattr1|done].
  - cbn [fst snd]. split; [done|]. split; [done|].
    intros Hst. destruct (Hattr1 Hst) as [H1 H2]. split; [done|].
    intros [Hc _]. by apply H2.
Qed.

Lemma collectEntry_anyCall (e : DumpedEntry) :
  ∀ p st, anyCall (collect p e st).1 st (collect p e st).2
                  (is_Some (Attr e) ∧ objects e).
Proof.
  induction e as [e IH] using DumpedEntry_tree_ind. intros p st.
  rewrite collectEntry_eq.
  destruct (Attr e) as [attr|] eqn:Hattr.
  2:{ cbn. split; [apply grows_refl|]. split; [done|].
      intros Hst. split; [done|]. by intros [[? ?] _]. }
  cbv zeta.
  set (st0 := entered e attr st).
  assert (Hst0 : entries st0 = entries st) by apply entries_entered.
  assert (Hsame : ∀ r st', entries st' = entries st → r ≠ panic →
            (∀ n i t, r ≠ error (InvalidNlink n i t)) →
            anyCall r st st' True).
  { intros r st' Hent Hr Hnot.
    split; [intros i; by rewrite Hent|]. split.
    - intros n i t Heq. by destruct (Hnot n i t).
    - intros Hst. split; [|done]. intros i q. rewrite Hent. apply Hst. }
  assert (Hweaken : ∀ r st', anyCall r st st' True →
            anyCall r st st' (is_Some (Some attr) ∧ objects e)).
  { intros r st' (H1 & H2 & H3). split; [done|]. split; [done|].
    intros Hst. destruct (H3 Hst). eauto. }
  destruct (entries st0 !! Inode attr) as [q|] eqn:Hq.
  - destruct (decide (typeFromString (Type_ attr) ≠ TypeFile)) as [Hty|Hty].
    { apply Hweaken, Hsame; done. }
    destruct (Attr (obj q)) as [eattr|] eqn:Heattr.
    2:{ cbn [fst snd]. split; [intros i; by rewrite Hst0|].
        split; [done|]. intros Hst. exfalso.
        rewrite Hst0 in Hq. destruct (Hst _ _ Hq) as [? Hsome]. congruence. }
    destruct (decide (typeFromString (Type_ eattr) ≠ TypeFile)) as [Hety|Hety].
    { apply Hweaken, Hsame; done. }
    destruct (ctimeNano eattr <? ctimeNano attr)%Z.
    + cbn [fst snd]. split.
      { eapply grows_trans; [|apply grows_setEntry].
        intros i. cbn. by rewrite Hst0. }
      split; [done|]. intros Hst. split; [|done].
      apply attributed_setEntry; [|by rewrite Hattr].
      intros i q'. cbn. rewrite Hst0. apply Hst.
    + apply Hweaken, Hsame; done.
  - set (st1 := setEntry (Inode attr) (mkPtr p e) st0).
    assert (Hg1 : grows st st1).
    { eapply grows_trans; [|apply grows_setEntry]. intros i. by rewrite Hst0. }
    assert (Hat1 : attributed st → attributed st1).
    { intros Hst. apply attributed_setEntry; [|by rewrite Hattr].
      intros i q. rewrite Hst0. apply Hst. }
    destruct (decide (typeFromString (Type_ attr) = TypeFile)) as [Hty|Hty].
    { cbn [fst snd]. split; [done|]. split; [done|]. by intros Hst; split;
        [apply Hat1|]. }
    destruct (decide (typeFromString (Type_ attr) = TypeDirectory)) as [Hdir|Hdir].
    { set (st2 := setNlink p 2 _).
      assert (Hst2 : entries st2 = entries st1).
      { subst st2. cbn. by case_decide. }
      destruct (rangeEntries_anyCall p (Inode attr) attr (Entries e) IH 0 st2)
        as (Hg & Herr & Hat).
      split.
      { eapply grows_trans; [exact Hg1|]. intros i. rewrite <- Hst2.
        apply Hg. }
      split.
      { intros n i t Hr. destruct (Herr n i t Hr) as [Hoff Hnone].
        split; [done|]. apply (grows_None st st1); [done|].
        by rewrite <- Hst2. }
      intros Hst. destruct Hat as [H1 H2].
      { intros i q. rewrite Hst2. by apply Hat1. }
      split; [done|]. intros [_ Hobj]. apply H2. by rewrite objects_eq in Hobj. }
    destruct (decide (getNlink st1 p attr ≠ 1%Z)) as [Hn|Hn].
    + cbn [fst snd]. split; [done|]. split.
      * intros n' i t [= <- <- <-]. split; [|by rewrite <- Hst0].
        exists (mkPtr p e), attr. cbn [addr obj].
        split; [apply lookup_insert_eq|]. done.
      * intros Hst. split; [by apply Hat1|done].
    + cbn [fst snd]. split; [done|]. split; [done|].
      intros Hst. split; [by apply Hat1|done].
Qed.

(** *** The nodes that a run visits *)

(** A visit of a node: its address, the node, its attribute, and the value
    of [Parents] that it has when [collectEntry] is called on it. *)
Record occ := mkOcc {
  oaddr : loc;
  oobj : DumpedEntry;
  oattr : DumpedAttr;
  opar : list Ino;
}.

Definition optr (o : occ) : ptr := mkPtr (oaddr o) (oobj o).
Definition oino (o : occ) : Ino := Inode (oattr o).
Definition isFile (o : occ) : Prop :=
  typeFromString (Type_ (oattr o)) = TypeFile.
Definition isDir (o : occ) : Prop :=
  typeFromString (Type_ (oattr o)) = TypeDirectory.

Section visitEntries.

Variable visit : list Ino → loc → DumpedEntry → list occ.

Fixpoint visitEntries (par : list Ino) (p : loc) (k : nat)
    (cs : list (string * option DumpedEntry)) : list occ :=
  match cs with
  | [] => []
  | (_, None) :: cs' => visitEntries par p (S k) cs'
  | (_, Some child) :: cs' =>
    visit par (p ++ [k]) child ++ visitEntries par p (S k) cs'
  end.

End visitEntries.

(** The nodes on which a run that meets no error calls [collectEntry], in
    the order of the calls: the node itself when it has an attribute, and
    then, when it is a directory, the nodes under its members.  A member
    without attribute is passed over with all that is under it, and so is
    what the decoder may have left under a node that is no directory.  A
    member that is nil, at which a run panics, has no place in a run
    without error; the list goes on with the members behind it. *)
Fixpoint visit (par : list Ino) (p : loc) (e : DumpedEntry) {struct e}
    : list occ :=
  match Attr e with
  | None => []
  | Some attr =>
    mkOcc p e attr par
    :: (if decide (typeFromString (Type_ attr) = TypeDirectory)
        then visitEntries visit [Inode attr] p 0 (Entries e)
        else [])
  end.

Lemma visit_eq (par : list Ino) (p : loc) (e : DumpedEntry) :
  visit par p e
  = match Attr e with
    | None => []
    | Some attr =>
      mkOcc p e attr par
      :: (if decide (typeFromString (Type_ attr) = TypeDirectory)
          then visitEntries visit [Inode attr] p 0 (Entries e)
          else [])
    end.
Proof. destruct e; reflexivity. Qed.

(** The members that are directories. *)
Definition isDirEntry (nc : string * option DumpedEntry) : Prop :=
  ∃ child cattr, nc.2 = Some child ∧ Attr child = Some cattr
                 ∧ typeFromString (Type_ cattr) = TypeDirectory.

Global Instance isDirEntry_dec nc : Decision (isDirEntry nc).
Proof.
  unfold isDirEntry. destruct nc.2 as [child|].
  2:{ right. by intros (? & ? & [=] & _). }
  destruct (Attr child) as [cattr|] eqn:Hattr.
  - destruct (decide (typeFromString (Type_ cattr) = TypeDirectory)).
    + left. eauto.
    + right. intros (? & ? & [= <-] & Ha & ?). congruence.
  - right. intros (? & ? & [= <-] & Ha & ?). congruence.
Defined.

Definition countDirs (cs : list (string * option DumpedEntry)) : Z :=
  Z.of_nat (List.length (filter isDirEntry cs)).

(** The visits of one inode. *)
Definition group (i : Ino) (V : list occ) : list occ :=
  filter (λ o, oino o = i) V.

(** The choice between the node in the map and the node that comes:
    the one that comes when it is strictly newer. *)
Definition newer (cur o : occ) : occ :=
  if (ctimeNano (oattr cur) <? ctimeNano (oattr o))%Z then o else cur.

Definition canon (g : list occ) : option occ :=
  match g with
  | [] => None
  | o :: g' => Some (fold_left newer g' o)
  end.

Lemma group_app i V W : group i (V ++ W) = group i V ++ group i W.
Proof. unfold group. apply filter_app. Qed.

Lemma group_elem i V o : o ∈ group i V ↔ oino o = i ∧ o ∈ V.
Proof. unfold group. by rewrite list_elem_of_filter. Qed.

Lemma group_singleton i o :
  group i [o] = if decide (oino o = i) then [o] else [].
Proof. unfold group. rewrite filter_cons, filter_nil. by case_decide. Qed.

Lemma canon_snoc g o :
  canon (g ++ [o])
  = Some (match canon g with Some cur => newer cur o | None => o end).
Proof.
  destruct g as [|x g]; [done|]. cbn. by rewrite fold_left_app.
Qed.

Lemma fold_newer_elem g : ∀ x, fold_left newer g x ∈ x :: g.
Proof.
  induction g as [|y g IH]; intros x; cbn.
  - apply elem_of_cons; by left.
  - specialize (IH (newer x y)). apply elem_of_cons in IH as [->|IH].
    + unfold newer. case_match; set_solver.
    + set_solver.
Qed.

Lemma canon_elem g q : canon g = Some q → q ∈ g.
Proof.
  destruct g as [|x g]; [done|]. intros [= <-]. apply fold_newer_elem.
Qed.

Lemma canon_None g : canon g = None → g = [].
Proof. by destruct g. Qed.

Lemma canon_group_ino i V q : canon (group i V) = Some q → oino q = i ∧ q ∈ V.
Proof. intros Hq%canon_elem. by apply group_elem. Qed.

(** Addresses under a member. *)
Lemma prefix_snoc_eq (p a : loc) (j k : nat) :
  p ++ [j] `prefix_of` a → p ++ [k] `prefix_of` a → j = k.
Proof.
  intros [a1 ->] [a2 Heq]. rewrite <- !app_assoc in Heq.
  apply app_inv_head in Heq. by injection Heq.
Qed.

Lemma visitEntries_prefix (par : list Ino) (p : loc)
    (cs : list (string * option DumpedEntry)) :
  Forall (λ nc, from_option
                  (λ c, ∀ par p o, o ∈ visit par p c → p `prefix_of` oaddr o)
                  True nc.2) cs →
  ∀ k o, o ∈ visitEntries visit par p k cs →
    ∃ j, (k ≤ j)%nat ∧ p ++ [j] `prefix_of` oaddr o.
Proof.
  induction 1 as [|[name [child|]] cs Hchild _ IH]; intros k o; cbn.
  - by intros ?%elem_of_nil.
  - intros [Ho|Ho]%elem_of_app.
    + exists k. split; [lia|]. by eapply Hchild.
    + destruct (IH _ _ Ho) as (j & Hj & Hpre). exists j. split; [lia|done].
  - intros Ho.
    destruct (IH _ _ Ho) as (j & Hj & Hpre). exists j. split; [lia|done].
Qed.

Lemma visit_prefix (e : DumpedEntry) :
  ∀ par p o, o ∈ visit par p e → p `prefix_of` oaddr o.
Proof.
  induction e as [e IH] using DumpedEntry_tree_ind. intros par p o.
  rewrite visit_eq. destruct (Attr e) as [attr|]; [|by intros ?%elem_of_nil].
  intros [->|Ho]%elem_of_cons; [done|].
  case_decide; [|by apply elem_of_nil in Ho].
  destruct (visitEntries_prefix _ _ _ IH _ _ Ho) as (j & _ & Hpre).
  by eapply prefix_app_l.
Qed.

Lemma visitEntries_under par p k cs o :
  o ∈ visitEntries visit par p k cs →
  ∃ j, (k ≤ j)%nat ∧ p ++ [j] `prefix_of` oaddr o.
Proof.
  apply visitEntries_prefix, Forall_forall. intros [name [child|]] _; [|done].
  cbn. apply visit_prefix.
Qed.

Lemma visitEntries_attr (par : list Ino) (p : loc)
    (cs : list (string * option DumpedEntry)) :
  Forall (λ nc, from_option
                  (λ c, ∀ par p o, o ∈ visit par p c →
                          Attr (oobj o) = Some (oattr o))
                  True nc.2) cs →
  ∀ k o, o ∈ visitEntries visit par p k cs → Attr (oobj o) = Some (oattr o).
Proof.
  induction 1 as [|[name [child|]] cs Hchild _ IH]; intros k o; cbn.
  - by intros ?%elem_of_nil.
  - intros [Ho|Ho]%elem_of_app; [by eapply Hchild|by eapply IH].
  - apply IH.
Qed.

Lemma visit_attr (e : DumpedEntry) :
  ∀ par p o, o ∈ visit par p e → Attr (oobj o) = Some (oattr o).
Proof.
  induction e as [e IH] using DumpedEntry_tree_ind. intros par p o.
  rewrite visit_eq.
  destruct (Attr e) as [attr|] eqn:Hattr; [|by intros ?%elem_of_nil].
  intros [->|Ho]%elem_of_cons; [done|].
  case_decide; [|by apply elem_of_nil in Ho].
  by eapply visitEntries_attr.
Qed.

Lemma visitEntries_NoDup (par : list Ino) (p : loc)
    (cs : list (string * option DumpedEntry)) :
  Forall (λ nc, from_option
                  (λ c, ∀ par p, NoDup (oaddr <$> visit par p c))
                  True nc.2) cs →
  ∀ k, NoDup (oaddr <$> visitEntries visit par p k cs).
Proof.
  induction 1 as [|[name [child|]] cs Hchild _ IH]; intros k; cbn;
    [constructor| |apply IH].
  - rewrite fmap_app. apply NoDup_app. split; [apply Hchild|].
    split; [|apply IH].
    intros a (o1 & -> & Ho1)%list_elem_of_fmap
             (o2 & Heq & Ho2)%list_elem_of_fmap.
    apply visit_prefix in Ho1.
    apply visitEntries_under in Ho2 as (j & Hj & Hpre).
    rewrite <- Heq in Hpre.
    pose proof (prefix_snoc_eq _ _ _ _ Ho1 Hpre). lia.
Qed.

Lemma visit_NoDup (e : DumpedEntry) :
  ∀ par p, NoDup (oaddr <$> visit par p e).
Proof.
  induction e as [e IH] using DumpedEntry_tree_ind. intros par p.
  rewrite visit_eq. destruct (Attr e) as [attr|]; [|constructor].
  cbn [fmap list_fmap]. apply NoDup_cons. split.
  - case_decide; [|by intros ?%elem_of_nil].
    intros (o & Heq & Ho)%list_elem_of_fmap. cbn in Heq.
    apply visitEntries_under in Ho as (j & _ & Hpre).
    rewrite <- Heq in Hpre. by apply prefix_snoc_not in Hpre.
  - case_decide; [|constructor]. by apply visitEntries_NoDup.
Qed.

(** *** The invariant of a run without error

    [V] lists the visits made so far.  The addresses are distinct; the
    map holds, for every inode, the visit that [canon] chooses among the
    visits of the inode; for a regular file the object that the map
    points to has the number of the visits as link count and their
    parents as [Parents]; and a node that is no regular file is the only
    visit of its inode. *)
Record Inv (V : list occ) (st : State) : Prop := mkInv {
  inv_nodup : NoDup (oaddr <$> V);
  inv_attr : ∀ o, o ∈ V → Attr (oobj o) = Some (oattr o);
  inv_table : ∀ i, entries st !! i = optr <$> canon (group i V);
  inv_files : ∀ i q, canon (group i V) = Some q → isFile q →
    getNlink st (oaddr q) (oattr q)
    = wrap32 (Z.of_nat (List.length (group i V)))
    ∧ getParents st (oaddr q) (oobj q) = concat (opar <$> group i V);
  inv_single : ∀ o, o ∈ V → ¬ isFile o → group (oino o) V = [o];
}.

(** What a call leaves as it is: [Nlink] and [Parents] of the nodes
    visited before that are no regular files. *)
Definition frame (V : list occ) (st st' : State) : Prop :=
  ∀ o, o ∈ V → ¬ isFile o →
    nlinks st' !! oaddr o = nlinks st !! oaddr o
    ∧ parents st' !! oaddr o = parents st !! oaddr o.

(** The same for the loop over the members of the directory at [p],
    which counts in [Nlink] of that directory. *)
Definition frameLoop (p : loc) (V : list occ) (st st' : State) : Prop :=
  ∀ o, o ∈ V → ¬ isFile o →
    parents st' !! oaddr o = parents st !! oaddr o
    ∧ (oaddr o ≠ p → nlinks st' !! oaddr o = nlinks st !! oaddr o).

(** The directories among [W] have their link count, and those with the
    inode of the root or of the trash have the root as parent. *)
Definition dirsDone (W : list occ) (st : State) : Prop :=
  ∀ o, o ∈ W → isDir o →
    getNlink st (oaddr o) (oattr o)
    = wrap32 (2 + countDirs (Entries (oobj o)))
    ∧ (oino o = 1%Z ∨ oino o = TrashInode →
       getParents st (oaddr o) (oobj o) = [1%Z]).

Lemma wrap32_add_l (a b : Z) : wrap32 (wrap32 a + b) = wrap32 (a + b).
Proof. unfold wrap32. by rewrite Zplus_mod_idemp_l. Qed.

Lemma isDir_not_isFile o : isDir o → ¬ isFile o.
Proof. unfold isDir, isFile. congruence. Qed.

Lemma addr_inj (V : list occ) (o1 o2 : occ) :
  NoDup (oaddr <$> V) → o1 ∈ V → o2 ∈ V → oaddr o1 = oaddr o2 → o1 = o2.
Proof.
  induction V as [|x V IH]; [by intros _ ?%elem_of_nil|].
  cbn [fmap list_fmap]. intros [Hx HV]%NoDup_cons.
  intros [->|H1]%elem_of_cons [->|H2]%elem_of_cons Heq; [done| | |by apply IH].
  - destruct Hx. rewrite Heq. by apply list_elem_of_fmap_2.
  - destruct Hx. rewrite <- Heq. by apply list_elem_of_fmap_2.
Qed.

Lemma Inv_store (V : list occ) (st st' : State) :
  Inv V st → entries st' = entries st →
  (∀ o, o ∈ V → isFile o →
     nlinks st' !! oaddr o = nlinks st !! oaddr o
     ∧ parents st' !! oaddr o = parents st !! oaddr o) →
  Inv V st'.
Proof.
  intros [Hnd Hat Htab Hfiles Hsingle] Hent Hsame.
  split; [done|done| |..|done].
  - intros i. rewrite Hent. apply Htab.
  - intros i q Hq Hfile.
    destruct (canon_group_ino _ _ _ Hq) as [_ HqV].
    destruct (Hsame q HqV Hfile) as [Hn Hp].
    unfold getNlink, getParents. rewrite Hn, Hp. by apply Hfiles.
Qed.

Lemma group_snoc_other i V o : oino o ≠ i → group i (V ++ [o]) = group i V.
Proof.
  intros Hne. rewrite group_app, group_singleton.
  rewrite decide_False by done. apply app_nil_r.
Qed.

Lemma group_snoc_same V o :
  group (oino o) (V ++ [o]) = group (oino o) V ++ [o].
Proof. by rewrite group_app, group_singleton, decide_True. Qed.

(** The invariant after the first visit of an inode. *)
Lemma Inv_first (V : list occ) (st st' : State) (o : occ) :
  Inv V st →
  (∀ o', o' ∈ V → oaddr o' ≠ oaddr o) →
  Attr (oobj o) = Some (oattr o) →
  entries st !! oino o = None →
  entries st' = <[oino o := optr o]> (entries st) →
  (∀ o', o' ∈ V → isFile o' →
     nlinks st' !! oaddr o' = nlinks st !! oaddr o'
     ∧ parents st' !! oaddr o' = parents st !! oaddr o') →
  (isFile o → getNlink st' (oaddr o) (oattr o) = 1%Z
              ∧ getParents st' (oaddr o) (oobj o) = opar o) →
  Inv (V ++ [o]) st'.
Proof.
  intros [Hnd Hat Htab Hfiles Hsingle] Hfresh Hattr Hnew Hent Hsame Ho.
  assert (Hgroup : group (oino o) V = []).
  { apply canon_None. specialize (Htab (oino o)). rewrite Hnew in Htab.
    by destruct (canon (group (oino o) V)). }
  split.
  - rewrite fmap_app. apply NoDup_app. split; [done|].
    split; [|apply NoDup_singleton].
    intros a (o' & -> & Ho')%list_elem_of_fmap ?%list_elem_of_singleton.
    by eapply Hfresh.
  - intros o' [Ho'| ->%list_elem_of_singleton]%elem_of_app; auto.
  - intros i. rewrite Hent. destruct (decide (oino o = i)) as [<-|Hne].
    + rewrite lookup_insert_eq, group_snoc_same, Hgroup. done.
    + rewrite lookup_insert_ne, group_snoc_other by done. apply Htab.
  - intros i q. destruct (decide (oino o = i)) as [<-|Hne].
    + rewrite group_snoc_same, Hgroup. intros [= <-] Hfile. cbn.
      destruct (Ho Hfile) as [-> ->]. by rewrite app_nil_r.
    + rewrite group_snoc_other by done. intros Hq Hfile.
      destruct (canon_group_ino _ _ _ Hq) as [_ HqV].
      destruct (Hsame q HqV Hfile) as [Hn Hp].
      unfold getNlink, getParents. rewrite Hn, Hp. by apply Hfiles.
  - intros o' [Ho'| ->%list_elem_of_singleton]%elem_of_app Hnf.
    + rewrite group_snoc_other; [by apply Hsingle|].
      intros Heq. assert (o' ∈ group (oino o) V) as Hin
        by by apply group_elem.
      rewrite Hgroup in Hin. by apply elem_of_nil in Hin.
    + by rewrite group_snoc_same, Hgroup.
Qed.

(** The invariant after a further visit of an inode whose visits are
    regular files. *)
Lemma Inv_link (V : list occ) (st st' : State) (o q : occ) :
  Inv V st →
  (∀ o', o' ∈ V → oaddr o' ≠ oaddr o) →
  Attr (oobj o) = Some (oattr o) →
  canon (group (oino o) V) = Some q → isFile q → isFile o →
  entries st'
  = (if (ctimeNano (oattr q) <? ctimeNano (oattr o))%Z
     then <[oino o := optr o]> (entries st) else entries st) →
  (∀ o', o' ∈ V → isFile o' → oaddr o' ≠ oaddr q →
     nlinks st' !! oaddr o' = nlinks st !! oaddr o'
     ∧ parents st' !! oaddr o' = parents st !! oaddr o') →
  getNlink st' (oaddr (newer q o)) (oattr (newer q o))
  = wrap32 (getNlink st (oaddr q) (oattr q) + 1) →
  getParents st' (oaddr (newer q o)) (oobj (newer q o))
  = getParents st (oaddr q) (oobj q) ++ opar o →
  Inv (V ++ [o]) st'.
Proof.
  intros [Hnd Hat Htab Hfiles Hsingle] Hfresh Hattr Hq Hqfile Hofile
    Hent Hsame Hnl Hps.
  destruct (canon_group_ino _ _ _ Hq) as [Hqi HqV].
  split.
  - rewrite fmap_app. apply NoDup_app. split; [done|].
    split; [|apply NoDup_singleton].
    intros a (o' & -> & Ho')%list_elem_of_fmap ?%list_elem_of_singleton.
    by eapply Hfresh.
  - intros o' [Ho'| ->%list_elem_of_singleton]%elem_of_app; auto.
  - intros i. rewrite Hent. destruct (decide (oino o = i)) as [<-|Hne].
    + rewrite group_snoc_same, canon_snoc, Hq. unfold newer.
      destruct (ctimeNano (oattr q) <? ctimeNano (oattr o))%Z.
      * by rewrite lookup_insert_eq.
      * rewrite Htab, Hq. done.
    + rewrite group_snoc_other by done.
      destruct (ctimeNano (oattr q) <? ctimeNano (oattr o))%Z;
        rewrite ?lookup_insert_ne by done; apply Htab.
  - intros i w. destruct (decide (oino o = i)) as [<-|Hne].
    + rewrite group_snoc_same, canon_snoc, Hq. intros [= <-] _.
      rewrite Hnl, Hps. destruct (Hfiles _ _ Hq Hqfile) as [-> ->].
      rewrite wrap32_add_l, length_app, fmap_app, concat_app.
      cbn. rewrite app_nil_r. split; [f_equal; lia|done].
    + rewrite group_snoc_other by done. intros Hw Hfile.
      destruct (canon_group_ino _ _ _ Hw) as [Hwi HwV].
      destruct (Hsame w HwV Hfile) as [Hn Hp].
      { intros Heq. apply (addr_inj V) in Heq; [|done..]. congruence. }
      unfold getNlink, getParents. rewrite Hn, Hp. by apply Hfiles.
  - intros o' [Ho'| ->%list_elem_of_singleton]%elem_of_app Hnf; [|done].
    rewrite group_snoc_other; [by apply Hsingle|].
    intros Heq. specialize (Hsingle o' Ho' Hnf). rewrite Heq in Hq.
    rewrite Hsingle in Hq. injection Hq as <-. done.
Qed.

(** *** A run without error keeps the invariant *)

Definition sound (e : DumpedEntry) : Prop :=
  ∀ p st st' V,
    collect p e st = (ok, st') → Inv V st →
    (∀ o, o ∈ V → ¬ p `prefix_of` oaddr o) →
    Inv (V ++ visit (getParents st p e) p e) st'
    ∧ frame V st st'
    ∧ dirsDone (visit (getParents st p e) p e) st'.

Lemma countDirs_cons nc cs :
  countDirs (nc :: cs)
  = ((if decide (isDirEntry nc) then 1 else 0) + countDirs cs)%Z.
Proof.
  unfold countDirs. rewrite filter_cons.
  destruct (decide (isDirEntry nc)); cbn [List.length]; lia.
Qed.

Lemma isDirEntry_Some name child cattr :
  Attr child = Some cattr →
  isDirEntry (name, Some child)
  ↔ typeFromString (Type_ cattr) = TypeDirectory.
Proof.
  intros Hattr. unfold isDirEntry. cbn. split.
  - intros (? & ? & [= <-] & Ha & ?). congruence.
  - eauto.
Qed.

Lemma range_sound (p : loc) (inode : Ino) (attr : DumpedAttr)
    (cs : list (string * option DumpedEntry)) :
  Forall (λ nc, from_option sound True nc.2) cs →
  ∀ k st st' V n0,
    range p inode attr k cs st = (ok, st') → Inv V st →
    (∀ o j, o ∈ V → (k ≤ j)%nat → ¬ p ++ [j] `prefix_of` oaddr o) →
    (∃ od, od ∈ V ∧ oaddr od = p ∧ ¬ isFile od) →
    nlinks st !! p = Some (wrap32 n0) →
    Inv (V ++ visitEntries visit [inode] p k cs) st'
    ∧ frameLoop p V st st'
    ∧ dirsDone (visitEntries visit [inode] p k cs) st'
    ∧ nlinks st' !! p = Some (wrap32 (n0 + countDirs cs)).
Proof.
  induction 1 as [|[name [child|]] cs Hchild _ IH];
    intros k st st' V n0 Hrun HInv Hfresh Hod Hn.
  { cbn in Hrun. injection Hrun as <-. cbn [visitEntries].
    rewrite app_nil_r. split; [done|]. split; [by intros o ??|].
    split; [by intros o ?%elem_of_nil|].
    unfold countDirs. cbn. by rewrite Z.add_0_r. }
  2:{ by cbn in Hrun. }
  rewrite rangeEntries_cons in Hrun. cbv zeta in Hrun.
  cbn [visitEntries snd from_option] in *.
  set (c := p ++ [k]) in *.
  set (sta := adopted p inode k name st) in *.
  assert (Hc : ∀ o, o ∈ V → oaddr o ≠ c).
  { intros o Ho Heq. apply (Hfresh o k Ho); [lia|]. by rewrite Heq. }
  assert (Hpa : ∀ o, o ∈ V → parents sta !! oaddr o = parents st !! oaddr o).
  { intros o Ho. cbn. rewrite lookup_insert_ne; [done|].
    intros Heq. by apply (Hc o). }
  assert (HInva : Inv V sta).
  { apply (Inv_store V st); [done|done|]. intros o Ho _. split; [done|].
    by apply Hpa. }
  destruct Hod as (od & HodV & Hodp & Hodf).
  assert (Hfile_p : ∀ o, o ∈ V → isFile o → oaddr o ≠ p).
  { intros o Ho Hfile Heq. rewrite <- Hodp in Heq.
    apply (addr_inj V) in Heq; [|by destruct HInv|done..]. by subst. }
  destruct (Attr child) as [cattr|] eqn:Hcattr.
  - set (stb := if decide (typeFromString (Type_ cattr) = TypeDirectory)
                then _ else _) in Hrun.
    set (d := (if decide (isDirEntry (name, Some child)) then 1 else 0)%Z).
    assert (Hpb : parents stb = parents sta) by (subst stb; by case_decide).
    assert (Heb : entries stb = entries sta) by (subst stb; by case_decide).
    assert (Hnb_other : ∀ a, a ≠ p → nlinks stb !! a = nlinks sta !! a).
    { intros a Ha. subst stb. case_decide; [|done]. cbn.
      by rewrite lookup_insert_ne. }
    assert (Hnb : nlinks stb !! p = Some (wrap32 (n0 + d))).
    { subst stb d.
      destruct (decide (typeFromString (Type_ cattr) = TypeDirectory))
        as [Hdir|Hdir].
      - rewrite decide_True by by eapply isDirEntry_Some.
        cbn. rewrite lookup_insert_eq. unfold getNlink. cbn.
        rewrite Hn. cbn [from_option id]. by rewrite wrap32_add_l.
      - rewrite decide_False by (by erewrite isDirEntry_Some).
        by rewrite Z.add_0_r. }
    assert (HInvb : Inv V stb).
    { apply (Inv_store V sta); [done|done|]. intros o Ho Hfile.
      rewrite Hpb. split; [|done]. apply Hnb_other. by apply Hfile_p. }
    destruct (collect c child stb) as [r st2] eqn:Hcall.
    destruct r; [|discriminate..].
    destruct (Hchild c stb st2 V Hcall HInvb) as (HInv2 & Hframe2 & Hdone2).
    { intros o Ho. apply (Hfresh o k Ho). lia. }
    assert (Hparc : getParents stb c child = [inode]).
    { unfold getParents. rewrite Hpb. cbn. by rewrite lookup_insert_eq. }
    rewrite Hparc in HInv2, Hdone2.
    set (Wc := visit [inode] c child) in *.
    destruct (IH (S k) st2 st' (V ++ Wc) (n0 + d)%Z Hrun HInv2)
      as (HInv' & Hframe' & Hdone' & Hn').
    { intros o j [Ho|Ho]%elem_of_app Hj.
      - apply (Hfresh o j Ho). lia.
      - intros Hpre. apply visit_prefix in Ho.
        pose proof (prefix_snoc_eq _ _ _ _ Ho Hpre). lia. }
    { exists od. split; [apply elem_of_app; by left|done]. }
    { destruct (Hframe2 od HodV Hodf) as [Hnod _].
      rewrite Hodp in Hnod. by rewrite Hnod. }
    split; [by rewrite app_assoc|]. split; [|split].
    + intros o Ho Hnf.
      destruct (Hframe' o) as [Hp' Hn'']; [apply elem_of_app; by left|done|].
      destruct (Hframe2 o Ho Hnf) as [Hn2 Hp2]. split.
      * by rewrite Hp', Hp2, Hpb, Hpa.
      * intros Hop. by rewrite Hn'', Hn2, Hnb_other.
    + intros o [Ho|Ho]%elem_of_app Hdir; [|by apply Hdone'].
      destruct (Hdone2 o Ho Hdir) as [Hnl Hps].
      destruct (Hframe' o) as [Hp' Hn''].
      { apply elem_of_app; by right. }
      { by apply isDir_not_isFile. }
      unfold getNlink, getParents in *. rewrite Hp', Hn''; [done|].
      intros Hop. apply visit_prefix in Ho. rewrite Hop in Ho.
      by apply prefix_snoc_not in Ho.
    + rewrite Hn', countDirs_cons. fold d. f_equal. f_equal. lia.
  - destruct (IH (S k) (warned inode name sta) st' V n0 Hrun)
      as (HInv' & Hframe' & Hdone' & Hn').
    { by apply (Inv_store V sta). }
    { intros o j Ho Hj. apply (Hfresh o j Ho). lia. }
    { by exists od. }
    { done. }
    rewrite visit_eq, Hcattr. cbn [app].
    split; [done|]. split; [|split; [done|]].
    + intros o Ho Hnf. destruct (Hframe' o Ho Hnf) as [Hp' Hn''].
      split; [|done]. rewrite Hp'. by apply Hpa.
    + rewrite Hn', countDirs_cons. rewrite decide_False; [done|].
      intros (? & ? & [= <-] & Hsome & _). congruence.
Qed.

Lemma collectEntry_sound (e : DumpedEntry) : sound e.
Proof.
  induction e as [e IH] using DumpedEntry_tree_ind.
  intros p st st' V Hrun HInv Hfresh.
  rewrite collectEntry_eq in Hrun. rewrite visit_eq.
  destruct (Attr e) as [attr|] eqn:Hattr; [|discriminate].
  cbv zeta in Hrun.
  set (st0 := entered e attr st) in *.
  assert (He0 : entries st0 = entries st) by apply entries_entered.
  assert (Hn0 : nlinks st0 = nlinks st) by apply nlinks_entered.
  assert (Hp0 : parents st0 = parents st) by apply parents_entered.
  set (o := mkOcc p e attr (getParents st p e)).
  assert (Hp : ∀ o', o' ∈ V → oaddr o' ≠ oaddr o).
  { intros o' Ho' Heq. apply (Hfresh o' Ho'). by rewrite Heq. }
  assert (Hnd := inv_nodup _ _ HInv).
  destruct (entries st0 !! Inode attr) as [q|] eqn:Hq.
  - (* a further visit of the inode *)
    destruct (decide (typeFromString (Type_ attr) ≠ TypeFile)) as [|Hfile];
      [discriminate|].
    apply dec_stable in Hfile.
    rewrite decide_False by congruence.
    rewrite He0, (inv_table _ _ HInv) in Hq.
    destruct (canon (group (Inode attr) V)) as [q0|] eqn:Hq0; [|done].
    injection Hq as <-.
    destruct (canon_group_ino _ _ _ Hq0) as [Hq0i Hq0V].
    cbn [optr obj addr] in Hrun.
    rewrite (inv_attr _ _ HInv q0 Hq0V) in Hrun.
    destruct (decide (typeFromString (Type_ (oattr q0)) ≠ TypeFile))
      as [|Hqfile]; [discriminate|].
    apply dec_stable in Hqfile.
    assert (Hq0p : oaddr q0 ≠ p) by by apply (Hp q0).
    assert (Hframe : ∀ o', o' ∈ V → oaddr o' ≠ oaddr q0 →
              nlinks st' !! oaddr o' = nlinks st !! oaddr o'
              ∧ parents st' !! oaddr o' = parents st !! oaddr o').
    { intros o' Ho' Hne. specialize (Hp o' Ho'). cbn in Hp.
      destruct (ctimeNano (oattr q0) <? ctimeNano attr)%Z;
        injection Hrun as <-; cbn;
        rewrite ?lookup_insert_ne by done; by rewrite Hn0, Hp0. }
    split; [|split].
    + apply (Inv_link V st st' o q0); try done.
      * subst o. cbn [oattr oino optr oaddr oobj opar].
        destruct (ctimeNano (oattr q0) <? ctimeNano attr)%Z;
          injection Hrun as <-; cbn; by rewrite He0.
      * intros o' Ho' _ Hne. by apply Hframe.
      * unfold newer. subst o. cbn [oattr oino optr oaddr oobj opar].
        destruct (ctimeNano (oattr q0) <? ctimeNano attr)%Z;
          injection Hrun as <-; unfold getNlink; cbn.
        -- rewrite lookup_insert_eq. cbn.
           rewrite lookup_insert_eq. cbn. by rewrite Hn0.
        -- rewrite lookup_insert_eq. cbn. by rewrite Hn0.
      * unfold newer. subst o. cbn [oattr oino optr oaddr oobj opar].
        destruct (ctimeNano (oattr q0) <? ctimeNano attr)%Z;
          injection Hrun as <-; unfold getParents; cbn.
        -- rewrite lookup_insert_eq. cbn.
           rewrite lookup_insert_eq. cbn. by rewrite Hp0.
        -- rewrite lookup_insert_eq. cbn. by rewrite Hp0.
    + intros o' Ho' Hnf. apply Hframe; [done|].
      intros Heq. apply (addr_inj V) in Heq; [|done..]. by subst.
    + intros o' ->%list_elem_of_singleton Hdir.
      by apply isDir_not_isFile in Hdir.
  - (* the first visit of the inode *)
    rewrite He0 in Hq.
    set (st1 := setEntry (Inode attr) (mkPtr p e) st0) in *.
    destruct (decide (typeFromString (Type_ attr) = TypeFile)) as [Hfile|Hfile].
    { (* a regular file *)
      injection Hrun as <-.
      rewrite decide_False by congruence.
      split; [|split].
      - apply (Inv_first V st _ o); try done.
        + cbn. by rewrite He0.
        + intros o' Ho' _. specialize (Hp o' Ho'). cbn in Hp |- *.
          rewrite lookup_insert_ne by done. by rewrite Hn0, Hp0.
        + intros _. unfold getNlink, getParents. cbn.
          rewrite lookup_insert_eq. by rewrite Hp0.
      - intros o' Ho' _. specialize (Hp o' Ho'). cbn in Hp |- *.
        rewrite lookup_insert_ne by done. by rewrite Hn0, Hp0.
      - intros o' ->%list_elem_of_singleton Hdir.
        by apply isDir_not_isFile in Hdir. }
    destruct (decide (typeFromString (Type_ attr) = TypeDirectory))
      as [Hdir|Hdir].
    2:{ (* neither a regular file nor a directory *)
      destruct (decide (getNlink st1 p attr ≠ 1%Z)); [discriminate|].
      injection Hrun as <-.
      split; [|split].
      - apply (Inv_first V st _ o); try done.
        + cbn. by rewrite He0.
        + intros o' Ho' _. cbn. by rewrite Hn0, Hp0.
      - intros o' Ho' _. cbn. by rewrite Hn0, Hp0.
      - by intros o' ->%list_elem_of_singleton Hdir'. }
    (* a directory *)
    set (st2 := setNlink p 2 _) in Hrun.
    assert (He2 : entries st2 = <[Inode attr := mkPtr p e]> (entries st)).
    { subst st2. cbn. case_decide; cbn; by rewrite He0. }
    assert (Hn2 : nlinks st2 = <[p := 2%Z]> (nlinks st)).
    { subst st2. cbn. case_decide; cbn; by rewrite Hn0. }
    assert (Hp2 : ∀ a, a ≠ p → parents st2 !! a = parents st !! a).
    { intros a Ha. subst st2. cbn. case_decide; cbn;
        rewrite ?lookup_insert_ne by done; by rewrite Hp0. }
    assert (Hroot : Inode attr = 1%Z ∨ Inode attr = TrashInode →
              parents st2 !! p = Some [1%Z]).
    { intros Hr. subst st2. cbn. rewrite decide_True by done. cbn.
      apply lookup_insert_eq. }
    assert (HInv1 : Inv (V ++ [o]) st2).
    { apply (Inv_first V st _ o); try done.
      intros o' Ho' _. specialize (Hp o' Ho'). cbn in Hp.
      rewrite Hn2, lookup_insert_ne by done. split; [done|].
      by apply Hp2. }
    destruct (range_sound p (Inode attr) attr (Entries e) IH 0 st2 st'
                (V ++ [o]) 2 Hrun HInv1) as (HInv' & Hframe' & Hdone' & Hn').
    { intros o' j [Ho'| ->%list_elem_of_singleton]%elem_of_app _ Hpre.
      - apply (Hfresh o' Ho'). by eapply prefix_app_l.
      - cbn in Hpre. by apply prefix_snoc_not in Hpre. }
    { exists o.
      split; [apply elem_of_app; right; by apply list_elem_of_singleton|].
      split; [done|]. unfold isFile. cbn. congruence. }
    { rewrite Hn2. apply lookup_insert_eq. }
    split; [|split].
    + by rewrite (app_assoc V [o]) in HInv' || rewrite <- app_assoc in HInv'.
    + intros o' Ho' Hnf. specialize (Hp o' Ho'). cbn in Hp.
      destruct (Hframe' o') as [Hps Hnl]; [apply elem_of_app; by left|done|].
      rewrite Hps, Hnl, Hn2, Hp2, lookup_insert_ne by done. done.
    + intros o' [->|Ho']%elem_of_cons Hd; [|by apply Hdone'].
      cbn [oaddr oattr oobj oino o].
      destruct (Hframe' o) as [Hps _].
      { apply elem_of_app; right. by apply list_elem_of_singleton. }
      { unfold isFile. cbn. congruence. }
      cbn [oaddr o] in Hps.
      unfold getNlink, getParents. rewrite Hn'. split; [done|].
      intros Hr. by rewrite Hps, Hroot.
Qed.

(** *** A whole run, from the empty map *)

Lemma Inv_init : Inv [] init.
Proof.
  split; try done.
  - constructor.
  - by intros o ?%elem_of_nil.
  - by intros o ?%elem_of_nil.
Qed.

(** The visits of a run on [root] that starts with the empty map. *)
Definition visits (root : DumpedEntry) : list occ :=
  visit (Parents root) [] root.

Lemma run_sound (root : DumpedEntry) (st' : State) :
  collect [] root init = (ok, st') →
  Inv (visits root) st' ∧ dirsDone (visits root) st'.
Proof.
  intros Hrun.
  destruct (collectEntry_sound root [] init st' [] Hrun Inv_init)
    as (HInv & _ & Hdone).
  { by intros o ?%elem_of_nil. }
  done.
Qed.

(** What the map holds is a visit. *)
Lemma run_lookup (root : DumpedEntry) (st' : State) (i : Ino) (q : ptr) :
  collect [] root init = (ok, st') → entries st' !! i = Some q →
  ∃ o, canon (group i (visits root)) = Some o ∧ q = optr o
       ∧ o ∈ visits root ∧ oino o = i ∧ Attr (obj q) = Some (oattr o).
Proof.
  intros [HInv _]%run_sound Hq.
  rewrite (inv_table _ _ HInv) in Hq.
  destruct (canon (group i (visits root))) as [o|] eqn:Ho; [|done].
  injection Hq as <-. exists o.
  destruct (canon_group_ino _ _ _ Ho) as [Hi HV].
  repeat split; try done. by apply (inv_attr _ _ HInv).
Qed.

(** [canon] chooses the first of the visits with the greatest time. *)
Lemma canon_first_greatest (g : list occ) (q : occ) :
  canon g = Some q →
  ∃ g1 g2, g = g1 ++ q :: g2
    ∧ (∀ o, o ∈ g1 → (ctimeNano (oattr o) < ctimeNano (oattr q))%Z)
    ∧ (∀ o, o ∈ g2 → (ctimeNano (oattr o) ≤ ctimeNano (oattr q))%Z).
Proof.
  revert q. induction g as [|o g IH] using rev_ind; [done|].
  intros q. rewrite canon_snoc. intros [= <-].
  destruct (canon g) as [cur|] eqn:Hcur.
  2:{ apply canon_None in Hcur as ->. exists [], [].
      split; [done|]. split; by intros ? ?%elem_of_nil. }
  destruct (IH cur eq_refl) as (g1 & g2 & -> & H1 & H2).
  unfold newer.
  destruct (ctimeNano (oattr cur) <? ctimeNano (oattr o))%Z eqn:Hlt.
  - apply Z.ltb_lt in Hlt. exists (g1 ++ cur :: g2), [].
    split; [done|]. split; [|by intros ? ?%elem_of_nil].
    intros x [Hx|[->|Hx]%elem_of_cons]%elem_of_app.
    + specialize (H1 x Hx). lia.
    + done.
    + specialize (H2 x Hx). lia.
  - apply Z.ltb_ge in Hlt. exists g1, (g2 ++ [o]).
    split; [by rewrite <- app_assoc|]. split; [done|].
    intros x [Hx| ->%list_elem_of_singleton]%elem_of_app; auto.
Qed.

(** Where the parent of a visit comes from: it is the parent that the
    call was given, for the node the run starts at, and the inode of the
    directory that holds the node, for every other. *)
Lemma visitEntries_parent (i : Ino) (p : loc)
    (cs : list (string * option DumpedEntry)) :
  Forall (λ nc, from_option
            (λ c, ∀ par p o, o ∈ visit par p c →
               (oaddr o = p ∧ opar o = par)
               ∨ ∃ d j, d ∈ visit par p c ∧ isDir d
                        ∧ oaddr o = oaddr d ++ [j] ∧ opar o = [oino d])
            True nc.2) cs →
  ∀ k o, o ∈ visitEntries visit [i] p k cs →
    (∃ j, oaddr o = p ++ [j] ∧ opar o = [i])
    ∨ ∃ d j, d ∈ visitEntries visit [i] p k cs ∧ isDir d
             ∧ oaddr o = oaddr d ++ [j] ∧ opar o = [oino d].
Proof.
  induction 1 as [|[name [child|]] cs Hchild _ IH]; intros k o; cbn;
    [by intros ?%elem_of_nil| |apply IH].
  intros [Ho|Ho]%elem_of_app.
  - destruct (Hchild _ _ _ Ho) as [[Ha Hp]|(d & j & Hd & Hdir & Ha & Hp)].
    + left. by exists k.
    + right. exists d, j. split; [apply elem_of_app; by left|done].
  - destruct (IH _ _ Ho) as [?|(d & j & Hd & Hdir & Ha & Hp)]; [by left|].
    right. exists d, j. split; [apply elem_of_app; by right|done].
Qed.

Lemma visit_parent (e : DumpedEntry) :
  ∀ par p o, o ∈ visit par p e →
    (oaddr o = p ∧ opar o = par)
    ∨ ∃ d j, d ∈ visit par p e ∧ isDir d
             ∧ oaddr o = oaddr d ++ [j] ∧ opar o = [oino d].
Proof.
  induction e as [e IH] using DumpedEntry_tree_ind. intros par p o.
  rewrite visit_eq. destruct (Attr e) as [attr|]; [|by intros ?%elem_of_nil].
  intros [->|Ho]%elem_of_cons; [by left|]. right.
  destruct (decide (typeFromString (Type_ attr) = TypeDirectory))
    as [Hdir|]; [|by apply elem_of_nil in Ho].
  destruct (visitEntries_parent _ _ _ IH _ _ Ho)
    as [(j & Ha & Hp)|(d & j & Hd & Hddir & Ha & Hp)].
  - exists (mkOcc p e attr par), j. split; [apply elem_of_cons; by left|done].
  - exists d, j. split; [apply elem_of_cons; by right|done].
Qed.

Lemma wrap64_small (z : Z) : (- 2 ^ 63 ≤ z < 2 ^ 63)%Z → wrap64 z = z.
Proof. intros Hz. unfold wrap64. rewrite Z.mod_small; lia. Qed.

Lemma wrap64_add_l (a b : Z) : wrap64 (wrap64 a + b) = wrap64 (a + b).
Proof.
  unfold wrap64. f_equal.
  replace ((a + 2 ^ 63) mod 2 ^ 64 - 2 ^ 63 + b + 2 ^ 63)%Z
    with ((a + 2 ^ 63) mod 2 ^ 64 + b)%Z by lia.
  rewrite Zplus_mod_idemp_l. f_equal. lia.
Qed.

(** The time of the last change in nanoseconds, as a number, and the
    attributes for which it fits into an [int64]. *)
Definition nanos (attr : DumpedAttr) : Z :=
  (Ctime attr * 10 ^ 9 + Ctimensec attr)%Z.

Definition inRange (attr : DumpedAttr) : Prop :=
  (- 2 ^ 63 ≤ nanos attr < 2 ^ 63)%Z.

(** Where the sum fits into an [int64], [ctimeNano] is the sum. *)
Lemma ctimeNano_exact (attr : DumpedAttr) :
  inRange attr → ctimeNano attr = nanos attr.
Proof.
  intros Hfit. unfold ctimeNano. rewrite wrap64_add_l.
  by apply wrap64_small.
Qed.

(** C2, as the code has it.  After a run without error from the empty
    map, an inode that two visits or more reach as a regular file has in
    the map the first of the visits whose time [ctimeNano], the value of
    ctime*1e9+ctimensec in [int64] arithmetic, is greatest; the object has
    the number of the visits as link count, in [uint32] arithmetic, and
    the parents of the visits, each the inode of the directory that holds
    the node, as [Parents]. *)
Theorem hardlinks_merge (root : DumpedEntry) (st' : State) (i : Ino) :
  collect [] root init = (ok, st') →
  let g := group i (visits root) in
  (2 ≤ List.length g)%nat →
  (∀ o, o ∈ g → isFile o) →
  ∃ q g1 g2,
    entries st' !! i = Some (optr q) ∧ Attr (oobj q) = Some (oattr q)
    ∧ g = g1 ++ q :: g2
    ∧ (∀ o, o ∈ g1 → (ctimeNano (oattr o) < ctimeNano (oattr q))%Z)
    ∧ (∀ o, o ∈ g2 → (ctimeNano (oattr o) ≤ ctimeNano (oattr q))%Z)
    ∧ getNlink st' (oaddr q) (oattr q) = wrap32 (Z.of_nat (List.length g))
    ∧ getParents st' (oaddr q) (oobj q) = concat (opar <$> g)
    ∧ (∀ o, o ∈ g → oaddr o ≠ [] →
         ∃ d j, d ∈ visits root ∧ isDir d
                ∧ oaddr o = oaddr d ++ [j] ∧ opar o = [oino d])
    ∧ ((Z.of_nat (List.length g) < 2 ^ 32)%Z →
       getNlink st' (oaddr q) (oattr q) = Z.of_nat (List.length g))
    ∧ ((∀ o, o ∈ g → inRange (oattr o)) →
       (∀ o, o ∈ g1 → (nanos (oattr o) < nanos (oattr q))%Z)
       ∧ (∀ o, o ∈ g2 → (nanos (oattr o) ≤ nanos (oattr q))%Z)).
Proof.
  intros Hrun g Hlen Hfiles. subst g.
  destruct (run_sound root st' Hrun) as [HInv _].
  destruct (canon (group i (visits root))) as [q|] eqn:Hq.
  2:{ apply canon_None in Hq. rewrite Hq in Hlen. cbn in Hlen. lia. }
  destruct (canon_first_greatest _ q Hq) as (g1 & g2 & Hg & H1 & H2).
  pose proof (canon_elem _ _ Hq) as Hqg.
  destruct (inv_files _ _ HInv i q Hq (Hfiles q Hqg)) as [Hnl Hps].
  exists q, g1, g2.
  split; [by rewrite (inv_table _ _ HInv), Hq|].
  split.
  { apply (inv_attr _ _ HInv). by apply group_elem in Hqg as [_ ?]. }
  do 5 (split; [done|]). split; [|split].
  - intros o [_ Ho]%group_elem Hnotroot.
    destruct (visit_parent root _ _ _ Ho) as [[Ha _]|Hd]; done.
  - intros Hsmall. rewrite Hnl. unfold wrap32. apply Z.mod_small. lia.
  - intros Hfit.
    assert (Hexact : ∀ o, o ∈ group i (visits root) →
              ctimeNano (oattr o) = nanos (oattr o)).
    { intros o Ho. apply ctimeNano_exact. by apply Hfit. }
    rewrite Hg in Hexact. split.
    + intros o Ho. specialize (H1 o Ho).
      rewrite !Hexact in H1; [done|set_solver..].
    + intros o Ho. specialize (H2 o Ho).
      rewrite !Hexact in H2; [done|set_solver..].
Qed.

(** C3.  After a run without error from the empty map, every directory
    in the map has as link count two plus the number of its members that
    are directories, in [uint32] arithmetic, whatever link count the
    document gave. *)
Theorem directory_link_count (root : DumpedEntry) (st' : State) (i : Ino)
    (q : ptr) (attr : DumpedAttr) :
  collect [] root init = (ok, st') →
  entries st' !! i = Some q →
  Attr (obj q) = Some attr →
  typeFromString (Type_ attr) = TypeDirectory →
  let n := (2 + countDirs (Entries (obj q)))%Z in
  getNlink st' (addr q) attr = wrap32 n
  ∧ ((n < 2 ^ 32)%Z → getNlink st' (addr q) attr = n).
Proof.
  intros Hrun Hq Hattr Hdir n.
  destruct (run_lookup root st' i q Hrun Hq) as (o & _ & -> & HoV & _ & Ho).
  destruct (run_sound root st' Hrun) as [_ Hdone].
  rewrite Hattr in Ho. injection Ho as ->.
  destruct (Hdone o HoV Hdir) as [Hnl _]. split; [done|].
  intros Hsmall. subst n. cbn [optr addr obj] in *.
  rewrite Hnl. unfold wrap32. apply Z.mod_small.
  unfold countDirs in *. lia.
Qed.

(** C5, as the code has it.  After a run without error from the empty
    map, the directory with the inode of the root and the directory with
    the inode of the trash both have the root, inode 1, as their only
    parent. *)
Theorem root_and_trash_parent (root : DumpedEntry) (st' : State) (i : Ino)
    (q : ptr) (attr : DumpedAttr) :
  collect [] root init = (ok, st') →
  entries st' !! i = Some q →
  Attr (obj q) = Some attr →
  typeFromString (Type_ attr) = TypeDirectory →
  i = 1%Z ∨ i = TrashInode →
  getParents st' (addr q) (obj q) = [1%Z].
Proof.
  intros Hrun Hq Hattr Hdir Hi.
  destruct (run_lookup root st' i q Hrun Hq) as (o & _ & -> & HoV & Hoi & Ho).
  destruct (run_sound root st' Hrun) as [_ Hdone].
  rewrite Hattr in Ho. injection Ho as ->.
  destruct (Hdone o HoV Hdir) as [_ Hps]. apply Hps. by rewrite Hoi.
Qed.


(** *** What a run that ends with an error leaves behind *)

Section reachedEntries.

Variable reached : loc → DumpedEntry → State → list occ.

Fixpoint reachedEntries (p : loc) (inode : Ino) (attr : DumpedAttr) (k : nat)
    (cs : list (string * option DumpedEntry)) (st : State) : list occ :=
  match cs with
  | [] => []
  | (name, None) :: cs' => []
  | (name, Some child) :: cs' =>
    let st := adopted p inode k name st in
    match Attr child with
    | None => reachedEntries p inode attr (S k) cs' (warned inode name st)
    | Some cattr =>
      let st :=
        if decide (typeFromString (Type_ cattr) = TypeDirectory)
        then setNlink p (wrap32 (getNlink st p attr + 1)) st
        else st in
      reached (p ++ [k]) child st
      ++ match collect (p ++ [k]) child st with
         | (ok, st) => reachedEntries p inode attr (S k) cs' st
         | _ => []
         end
    end
  end.

End reachedEntries.

(** The nodes on which [collectEntry] is called in the course of the call
    on [e] in the state [st], up to the node at which an error ends the
    run, that node included, or up to the member that is nil, at which a
    panic ends it. *)
Fixpoint reached (p : loc) (e : DumpedEntry) (st : State) {struct e}
    : list occ :=
  match Attr e with
  | None => []
  | Some attr =>
    mkOcc p e attr (getParents st p e)
    :: (let st := entered e attr st in
        match entries st !! Inode attr with
        | Some _ => []
        | None =>
          if decide (typeFromString (Type_ attr) = TypeDirectory) then
            let st := setEntry (Inode attr) (mkPtr p e) st in
            let st :=
              if decide (Inode attr = 1%Z ∨ Inode attr = TrashInode)
              then setParents p [1%Z] st else st in
            reachedEntries reached p (Inode attr) attr 0 (Entries e)
                           (setNlink p 2 st)
          else []
        end)
  end.

Lemma reached_eq (p : loc) (e : DumpedEntry) (st : State) :
  reached p e st
  = match Attr e with
    | None => []
    | Some attr =>
      mkOcc p e attr (getParents st p e)
      :: (let st := entered e attr st in
          match entries st !! Inode attr with
          | Some _ => []
          | None =>
            if decide (typeFromString (Type_ attr) = TypeDirectory) then
              let st := setEntry (Inode attr) (mkPtr p e) st in
              let st :=
                if decide (Inode attr = 1%Z ∨ Inode attr = TrashInode)
                then setParents p [1%Z] st else st in
              reachedEntries reached p (Inode attr) attr 0 (Entries e)
                             (setNlink p 2 st)
            else []
          end)
    end.
Proof. destruct e; reflexivity. Qed.

Lemma range_grows (p : loc) (inode : Ino) (attr : DumpedAttr) (k : nat)
    (cs : list (string * option DumpedEntry)) (st : State) :
  grows st (range p inode attr k cs st).2.
Proof.
  destruct (rangeEntries_anyCall p inode attr cs) with (k := k) (st := st)
    as (Hg & _); [|done].
  apply Forall_forall. intros [name [child|]] _; [|done].
  cbn. intros p' st'. apply collectEntry_anyCall.
Qed.

Lemma collectEntry_grows (p : loc) (e : DumpedEntry) (st : State) :
  grows st (collect p e st).2.
Proof. by destruct (collectEntry_anyCall e p st) as (Hg & _). Qed.

Definition kept (e : DumpedEntry) : Prop :=
  ∀ p st o, o ∈ reached p e st →
    is_Some (entries (collect p e st).2 !! oino o).

Lemma reachedEntries_kept (p : loc) (inode : Ino) (attr : DumpedAttr)
    (cs : list (string * option DumpedEntry)) :
  Forall (λ nc, from_option kept True nc.2) cs →
  ∀ k st o, o ∈ reachedEntries reached p inode attr k cs st →
    is_Some (entries (range p inode attr k cs st).2 !! oino o).
Proof.
  induction 1 as [|[name [child|]] cs Hchild _ IH]; intros k st o.
  { by intros ?%elem_of_nil. }
  2:{ by intros ?%elem_of_nil. }
  rewrite rangeEntries_cons. cbn [reachedEntries snd from_option] in *.
  cbv zeta.
  destruct (Attr child) as [cattr|]; [|by apply IH].
  set (stb := if decide (typeFromString (Type_ cattr) = TypeDirectory)
              then _ else _).
  specialize (Hchild (p ++ [k]) stb o).
  destruct (collect (p ++ [k]) child stb) as [r st2].
  cbn [snd] in Hchild.
  intros [Ho|Ho]%elem_of_app.
  - specialize (Hchild Ho).
    destruct r; [|done..]. by apply range_grows.
  - destruct r; [|by apply elem_of_nil in Ho..]. by apply IH.
Qed.

Lemma reached_kept (e : DumpedEntry) : kept e.
Proof.
  induction e as [e IH] using DumpedEntry_tree_ind. intros p st o.
  rewrite reached_eq, collectEntry_eq.
  destruct (Attr e) as [attr|]; [|by intros ?%elem_of_nil].
  cbv zeta. set (st0 := entered e attr st).
  intros [->|Ho]%elem_of_cons.
  - cbn [oino oattr].
    destruct (entries st0 !! Inode attr) as [q|] eqn:Hq.
    + repeat case_match; cbn;
        rewrite ?lookup_insert_eq, ?Hq; eauto.
    + set (st1 := setEntry (Inode attr) (mkPtr p e) st0).
      assert (Hin : is_Some (entries st1 !! Inode attr)).
      { cbn. rewrite lookup_insert_eq. eauto. }
      destruct (decide (typeFromString (Type_ attr) = TypeFile)); [done|].
      destruct (decide (typeFromString (Type_ attr) = TypeDirectory));
        [|by case_decide].
      apply range_grows. cbn. by case_decide.
  - destruct (entries st0 !! Inode attr) as [q|];
      [by apply elem_of_nil in Ho|].
    destruct (decide (typeFromString (Type_ attr) = TypeDirectory))
      as [Hdir|]; [|by apply elem_of_nil in Ho].
    rewrite decide_False by congruence.
    by apply reachedEntries_kept.
Qed.

(** In a run that meets no error the nodes reached are the visits. *)
Definition reachedAll (e : DumpedEntry) : Prop :=
  ∀ p st st',
    collect p e st = (ok, st') →
    reached p e st = visit (getParents st p e) p e.

Lemma reachedEntries_ok (p : loc) (inode : Ino) (attr : DumpedAttr)
    (cs : list (string * option DumpedEntry)) :
  Forall (λ nc, from_option reachedAll True nc.2) cs →
  ∀ k st st',
    range p inode attr k cs st = (ok, st') →
    reachedEntries reached p inode attr k cs st
    = visitEntries visit [inode] p k cs.
Proof.
  induction 1 as [|[name [child|]] cs Hchild _ IH]; intros k st st' Hrun;
    [done| |by cbn in Hrun].
  rewrite rangeEntries_cons in Hrun. cbv zeta in Hrun.
  cbn [reachedEntries visitEntries snd from_option] in *. cbv zeta.
  destruct (Attr child) as [cattr|] eqn:Hcattr.
  - set (stb := if decide (typeFromString (Type_ cattr) = TypeDirectory)
                then _ else _) in *.
    assert (Hpar : getParents stb (p ++ [k]) child = [inode]).
    { unfold getParents. subst stb. case_decide; cbn;
        by rewrite lookup_insert_eq. }
    destruct (collect (p ++ [k]) child stb) as [r st2] eqn:Hcall.
    destruct r; [|discriminate..].
    rewrite (Hchild _ _ _ Hcall), Hpar. f_equal. by eapply IH.
  - rewrite (visit_eq _ _ child), Hcattr. cbn [app]. by eapply IH.
Qed.

Lemma reached_ok (e : DumpedEntry) : reachedAll e.
Proof.
  induction e as [e IH] using DumpedEntry_tree_ind. intros p st st' Hrun.
  rewrite collectEntry_eq in Hrun. rewrite reached_eq, visit_eq.
  destruct (Attr e) as [attr|]; [|done].
  cbv zeta in Hrun |- *. f_equal.
  destruct (entries (entered e attr st) !! Inode attr) as [q|].
  - destruct (decide (typeFromString (Type_ attr) ≠ TypeFile)) as [|Hfile];
      [discriminate|]. apply dec_stable in Hfile.
    by rewrite decide_False by congruence.
  - destruct (decide (typeFromString (Type_ attr) = TypeDirectory))
      as [Hdir|]; [|done].
    rewrite decide_False in Hrun by congruence.
    by eapply reachedEntries_ok.
Qed.

(** C10.  Nothing is undone when a call ends, also with an error: every
    key that was in the map is still there; every node that the run
    reached, up to the one at which it ended, has its inode in the map;
    and when the error is the one about an invalid link count, the node
    it is about, which was not in the map when the call began, is in the
    map under its inode. *)
Theorem collectEntry_keeps_on_error (p : loc) (e : DumpedEntry) (st : State) :
  let r := (collect p e st).1 in
  let st' := (collect p e st).2 in
  (∀ i, is_Some (entries st !! i) → is_Some (entries st' !! i))
  ∧ (∀ o, o ∈ reached p e st → is_Some (entries st' !! oino o))
  ∧ (∀ n i t, r = error (InvalidNlink n i t) →
       entries st !! i = None
       ∧ ∃ q attr,
           entries st' !! i = Some q ∧ Attr (obj q) = Some attr
           ∧ Inode attr = i ∧ Type_ attr = t
           ∧ getNlink st' (addr q) attr = n ∧ n ≠ 1%Z
           ∧ typeFromString t ≠ TypeFile
           ∧ typeFromString t ≠ TypeDirectory).
Proof.
  destruct (collectEntry_anyCall e p st) as (Hg & Herr & _).
  split; [exact Hg|]. split; [apply reached_kept|].
  intros n i t Hr. destruct (Herr n i t Hr) as [Hoff Hnone]. by split.
Qed.

(** *** The warnings and the calls of the callback *)

Section skipsEntries.

Variable skips : DumpedEntry → list (Ino * string).

Fixpoint skipsEntries (inode : Ino) (cs : list (string * option DumpedEntry))
    : list (Ino * string) :=
  match cs with
  | [] => []
  | (name, None) :: cs' => skipsEntries inode cs'
  | (name, Some child) :: cs' =>
    match Attr child with
    | None => [(inode, name)]
    | Some _ => skips child
    end ++ skipsEntries inode cs'
  end.

End skipsEntries.

(** The members without attribute that a run without error meets, each
    with the inode of its directory and its name, in the order of the
    run. *)
Fixpoint skips (e : DumpedEntry) : list (Ino * string) :=
  match Attr e with
  | None => []
  | Some attr =>
    if decide (typeFromString (Type_ attr) = TypeDirectory)
    then skipsEntries skips (Inode attr) (Entries e)
    else []
  end.

Lemma skips_eq (e : DumpedEntry) :
  skips e
  = match Attr e with
    | None => []
    | Some attr =>
      if decide (typeFromString (Type_ attr) = TypeDirectory)
      then skipsEntries skips (Inode attr) (Entries e)
      else []
    end.
Proof. destruct e; reflexivity. Qed.

(** The call of the callback at a visit. *)
Definition callOf (o : occ) : Z * Z :=
  (if decide (typeFromString (Type_ (oattr o)) = TypeDirectory)
   then Z.of_nat (List.length (Entries (oobj o))) else 0%Z, 1%Z).

Definition logged (e : DumpedEntry) : Prop :=
  ∀ par p st st',
    collect p e st = (ok, st') →
    warnings st' = warnings st ++ skips e
    ∧ progress st'
      = progress st
        ++ (if showProgress then callOf <$> visit par p e else []).

Lemma range_logged (p : loc) (inode : Ino) (attr : DumpedAttr)
    (cs : list (string * option DumpedEntry)) :
  Forall (λ nc, from_option logged True nc.2) cs →
  ∀ par k st st',
    range p inode attr k cs st = (ok, st') →
    warnings st' = warnings st ++ skipsEntries skips inode cs
    ∧ progress st'
      = progress st
        ++ (if showProgress then callOf <$> visitEntries visit par p k cs
            else []).
Proof.
  induction 1 as [|[name [child|]] cs Hchild _ IH]; intros par k st st' Hrun.
  { cbn in Hrun. injection Hrun as <-. cbn.
    rewrite !app_nil_r. by destruct showProgress; rewrite ?app_nil_r. }
  2:{ by cbn in Hrun. }
  rewrite rangeEntries_cons in Hrun. cbv zeta in Hrun.
  cbn [skipsEntries visitEntries snd from_option] in *.
  destruct (Attr child) as [cattr|] eqn:Hcattr.
  - set (stb := if decide (typeFromString (Type_ cattr) = TypeDirectory)
                then _ else _) in Hrun.
    assert (Hwb : warnings stb = warnings st) by (subst stb; by case_decide).
    assert (Hpb : progress stb = progress st) by (subst stb; by case_decide).
    destruct (collect (p ++ [k]) child stb) as [r st2] eqn:Hcall.
    destruct r; [|discriminate..].
    destruct (Hchild par (p ++ [k]) stb st2 Hcall) as [Hw2 Hp2].
    destruct (IH par (S k) st2 st' Hrun) as [Hw' Hp'].
    rewrite Hw', Hw2, Hwb, Hp', Hp2, Hpb. split; [by rewrite app_assoc|].
    destruct showProgress; [|by rewrite !app_nil_r].
    by rewrite fmap_app, app_assoc.
  - destruct (IH par (S k) _ st' Hrun) as [Hw' Hp'].
    rewrite Hw', Hp'. cbn. split; [by rewrite <- app_assoc|].
    by rewrite visit_eq, Hcattr.
Qed.

Lemma collectEntry_logged (e : DumpedEntry) : logged e.
Proof.
  induction e as [e IH] using DumpedEntry_tree_ind.
  intros par p st st' Hrun.
  rewrite collectEntry_eq in Hrun. rewrite visit_eq, skips_eq.
  destruct (Attr e) as [attr|] eqn:Hattr; [|discriminate].
  cbv zeta in Hrun.
  set (st0 := entered e attr st) in *.
  assert (Hw0 : warnings st0 = warnings st) by apply warnings_entered.
  assert (Hp0 : progress st0
                = progress st
                  ++ (if showProgress
                      then [callOf (mkOcc p e attr par)] else [])).
  { subst st0. unfold entered, callOf. cbn [oattr oobj].
    destruct showProgress; [|by rewrite app_nil_r].
    by destruct (decide (typeFromString (Type_ attr) = TypeDirectory)). }
  destruct (entries st0 !! Inode attr) as [q|].
  - destruct (decide (typeFromString (Type_ attr) ≠ TypeFile)) as [|Hfile];
      [discriminate|]. apply dec_stable in Hfile.
    rewrite !(decide_False (P := _ = TypeDirectory)) by congruence.
    destruct (Attr (obj q)) as [eattr|]; [|discriminate].
    destruct (decide (typeFromString (Type_ eattr) ≠ TypeFile));
      [discriminate|].
    destruct (ctimeNano eattr <? ctimeNano attr)%Z;
      injection Hrun as <-; cbn; rewrite Hw0, Hp0, app_nil_r;
      by destruct showProgress.
  - destruct (decide (typeFromString (Type_ attr) = TypeFile)) as [Hfile|Hfile].
    { injection Hrun as <-.
      rewrite !(decide_False (P := _ = TypeDirectory)) by congruence.
      cbn. rewrite Hw0, Hp0, app_nil_r. by destruct showProgress. }
    destruct (decide (typeFromString (Type_ attr) = TypeDirectory))
      as [Hdir|Hdir].
    2:{ destruct (decide (_ ≠ 1%Z)); [discriminate|].
        injection Hrun as <-. cbn. rewrite Hw0, Hp0, app_nil_r.
        by destruct showProgress. }
    set (st2 := setNlink p 2 _) in Hrun.
    assert (Hw2 : warnings st2 = warnings st).
    { subst st2. cbn. case_decide; cbn; by rewrite Hw0. }
    assert (Hp2 : progress st2 = progress st0).
    { subst st2. cbn. by case_decide. }
    destruct (range_logged p (Inode attr) attr (Entries e) IH [Inode attr]
                0 st2 st' Hrun) as [Hw' Hp'].
    rewrite Hw', Hw2, Hp', Hp2, Hp0. split; [done|].
    destruct showProgress; [|by rewrite !app_nil_r].
    by rewrite <- app_assoc.
Qed.

(** C8, as the code has it.  The loop over the members passes over a
    member without attribute: it logs a warning and goes on with the
    members that follow, and the callback is not called for it.  After a
    run without error from the empty map the warnings are the members
    passed over, and the callback was called once for every visit, with
    an increment of one, and for nothing else: no count of the members
    passed over is returned. *)
Theorem skipped_members_only_warn :
  (∀ (p : loc) (inode : Ino) (attr : DumpedAttr) (k : nat) (name : string)
     (child : DumpedEntry) (cs : list (string * option DumpedEntry))
     (st : State),
     Attr child = None →
     range p inode attr k ((name, Some child) :: cs) st
     = range p inode attr (S k) cs
         (warned inode name (adopted p inode k name st)))
  ∧ (∀ (root : DumpedEntry) (st' : State),
       collect [] root init = (ok, st') →
       warnings st' = skips root
       ∧ progress st'
         = (if showProgress then callOf <$> visits root else [])
       ∧ snd <$> progress st'
         = (if showProgress then (λ _, 1%Z) <$> visits root else [])).
Proof.
  split.
  - intros p inode attr k name child cs st Hnone.
    rewrite rangeEntries_cons. cbv zeta. by rewrite Hnone.
  - intros root st' Hrun.
    destruct (collectEntry_logged root (Parents root) [] init st' Hrun)
      as [Hw Hp].
    cbn in Hw, Hp. fold (visits root) in Hp.
    split; [done|]. split; [done|]. rewrite Hp.
    destruct showProgress; [|done].
    rewrite <- list_fmap_compose. by apply list_fmap_ext.
Qed.

(** *** More on whole runs *)


(** X13.  After a run without error from the empty map, the keys of the
    map are the inodes of the nodes visited, and what the map holds
    under a key is one of the nodes visited with that inode. *)
Theorem table_holds_visited_inodes (root : DumpedEntry) (st' : State)
    (i : Ino) :
  collect [] root init = (ok, st') →
  (is_Some (entries st' !! i) ↔ ∃ o, o ∈ visits root ∧ oino o = i)
  ∧ ∀ q, entries st' !! i = Some q →
      ∃ o, o ∈ visits root ∧ oino o = i ∧ q = optr o
           ∧ Attr (obj q) = Some (oattr o).
Proof.
  intros Hrun. split.
  - split.
    + intros [q Hq].
      destruct (run_lookup root st' i q Hrun Hq) as (o & _ & _ & Ho & Hi & _).
      by exists o.
    + intros (o & Ho & Hi).
      destruct (run_sound root st' Hrun) as [HInv _].
      rewrite (inv_table _ _ HInv).
      destruct (canon (group i (visits root))) as [q|] eqn:Hq; [by eexists|].
      apply canon_None in Hq.
      assert (Hin : o ∈ group i (visits root)) by by apply group_elem.
      rewrite Hq in Hin. by apply elem_of_nil in Hin.
  - intros q Hq.
    destruct (run_lookup root st' i q Hrun Hq) as (o & _ & -> & Ho & Hi & Ha).
    by exists o.
Qed.

(** X14.  After a run without error from the empty map, a regular file
    that was visited once is in the map with the link count 1, whatever
    the document gave, and with the parents it had when it was visited. *)
Theorem single_file_link_count (root : DumpedEntry) (st' : State) (o : occ) :
  collect [] root init = (ok, st') →
  group (oino o) (visits root) = [o] → isFile o →
  entries st' !! oino o = Some (optr o)
  ∧ getNlink st' (oaddr o) (oattr o) = 1%Z
  ∧ getParents st' (oaddr o) (oobj o) = opar o.
Proof.
  intros Hrun Hg Hfile.
  destruct (run_sound root st' Hrun) as [HInv _].
  assert (Hc : canon (group (oino o) (visits root)) = Some o)
    by by rewrite Hg.
  split; [by rewrite (inv_table _ _ HInv), Hc|].
  destruct (inv_files _ _ HInv (oino o) o Hc Hfile) as [Hn Hp].
  rewrite Hg in Hn, Hp. cbn in Hn, Hp. by rewrite app_nil_r in Hp.
Qed.

(** The sum of the increments of the total and of the increments of the
    current count over the calls of the callback. *)
Definition announced (st : State) : Z := foldr Z.add 0%Z (fst <$> progress st).

Definition completed (st : State) : Z := foldr Z.add 0%Z (snd <$> progress st).

Lemma sum_app (l1 l2 : list Z) :
  foldr Z.add 0%Z (l1 ++ l2) = (foldr Z.add 0%Z l1 + foldr Z.add 0%Z l2)%Z.
Proof. induction l1 as [|x l1 IH]; cbn; [done|]. rewrite IH. lia. Qed.

(** In a run without error, the totals of the calls for a node and for
    what is under it, with one more for the node, add up to the number
    of the visits and of the members passed over. *)
Definition balanced (e : DumpedEntry) : Prop :=
  ∀ par p st st', collect p e st = (ok, st') →
    (foldr Z.add 0 (fst <$> (callOf <$> visit par p e)) + 1
     = Z.of_nat (List.length (visit par p e))
       + Z.of_nat (List.length (skips e)))%Z.

Lemma visitEntries_balance (par : list Ino) (p : loc) (inode : Ino)
    (attr : DumpedAttr) (cs : list (string * option DumpedEntry)) :
  Forall (λ nc, from_option balanced True nc.2) cs →
  ∀ k st st', range p inode attr k cs st = (ok, st') →
    (foldr Z.add 0 (fst <$> (callOf <$> visitEntries visit par p k cs))
     + Z.of_nat (List.length cs)
     = Z.of_nat (List.length (visitEntries visit par p k cs))
       + Z.of_nat (List.length (skipsEntries skips inode cs)))%Z.
Proof.
  induction 1 as [|[name [child|]] cs Hchild _ IH]; intros k st st' Hrun;
    [done| |by cbn in Hrun].
  rewrite rangeEntries_cons in Hrun. cbv zeta in Hrun.
  cbn [visitEntries skipsEntries snd from_option] in *.
  rewrite !fmap_app, sum_app, !length_app.
  destruct (Attr child) as [cattr|] eqn:Hattr.
  - set (stb := if decide (typeFromString (Type_ cattr) = TypeDirectory)
                then _ else _) in Hrun.
    destruct (collect (p ++ [k]) child stb) as [r st2] eqn:Hcall.
    destruct r; [|discriminate..].
    specialize (Hchild par (p ++ [k]) stb st2 Hcall).
    specialize (IH (S k) st2 st' Hrun).
    cbn [List.length]. lia.
  - specialize (IH (S k) _ st' Hrun).
    rewrite visit_eq, Hattr. cbn [List.length fmap list_fmap foldr]. lia.
Qed.

Lemma visit_balance (e : DumpedEntry) : balanced e.
Proof.
  induction e as [e IH] using DumpedEntry_tree_ind.
  intros par p st st' Hrun.
  rewrite collectEntry_eq in Hrun. rewrite visit_eq, skips_eq.
  destruct (Attr e) as [attr|] eqn:Hattr; [|discriminate].
  cbv zeta in Hrun.
  cbn [fmap list_fmap foldr List.length]. unfold callOf at 1.
  cbn [oattr oobj fst].
  destruct (decide (typeFromString (Type_ attr) = TypeDirectory))
    as [Hdir|Hdir]; [|done].
  destruct (entries (entered e attr st) !! Inode attr) as [q|].
  { rewrite decide_True in Hrun by congruence. discriminate. }
  rewrite decide_False in Hrun by congruence.
  pose proof (visitEntries_balance [Inode attr] p (Inode attr) attr
                (Entries e) IH 0 _ st' Hrun).
  change (list_fmap ?A ?B ?f ?l) with (f <$> l). lia.
Qed.

Lemma sum_ones {A} (l : list A) :
  foldr Z.add 0%Z ((λ _, 1%Z) <$> l) = Z.of_nat (List.length l).
Proof.
  induction l as [|x l IH]; cbn [fmap list_fmap foldr List.length]; [done|].
  change (list_fmap ?A ?B ?f ?l) with (f <$> l). lia.
Qed.

(** X15.  After a run without error from the empty map with a callback,
    the increments of the current count add up to the number of the
    nodes visited, and the increments of the total, with one more for the
    node the run starts at, which no call announces, to that number plus
    the number of the members passed over: every member passed over was
    announced and is never counted as done. *)
Theorem progress_counts_skipped_members (root : DumpedEntry) (st' : State) :
  showProgress = true →
  collect [] root init = (ok, st') →
  (announced st' + 1
   = completed st' + Z.of_nat (List.length (warnings st')))%Z
  ∧ completed st' = Z.of_nat (List.length (visits root)).
Proof.
  intros Hshow Hrun.
  destruct (collectEntry_logged root (Parents root) [] init st' Hrun)
    as [Hw Hp].
  cbn in Hw, Hp. fold (visits root) in Hp. rewrite Hshow in Hp.
  pose proof (visit_balance root (Parents root) [] init st' Hrun) as Hbal.
  fold (visits root) in Hbal.
  assert (Hdone : completed st' = Z.of_nat (List.length (visits root))).
  { unfold completed. rewrite Hp, <- list_fmap_compose.
    by rewrite <- (sum_ones (visits root)). }
  split; [|done]. rewrite Hdone. unfold announced. rewrite Hp, Hw. lia.
Qed.

(** *** What a run ends with, read off the tree

    The invariant goes along with a second one, on the store: [Nlink] was
    assigned only at addresses that were visited.  With the two every
    outcome of a call is traced back to the nodes of the tree. *)

(** [Nlink] is as the decoder left it wherever no visit was made. *)
Definition stored (V : list occ) (st : State) : Prop :=
  ∀ a, is_Some (nlinks st !! a) → a ∈ oaddr <$> V.

(** The nodes among [W] that are no regular files have the parents they
    were visited with, the directories with the inode of the root or of
    the trash apart, and those that are no directories either have the
    link count 1, in the store and in the document. *)
Definition othersDone (W : list occ) (st : State) : Prop :=
  ∀ o, o ∈ W → ¬ isFile o →
    (¬ (isDir o ∧ (oino o = 1%Z ∨ oino o = TrashInode)) →
     getParents st (oaddr o) (oobj o) = opar o)
    ∧ (¬ isDir o →
       getNlink st (oaddr o) (oattr o) = 1%Z ∧ Nlink (oattr o) = 1%Z).

(** What is wrong with the nodes [W] when a run ends with [err]: two of
    them have the inode that the conflict names and are not both regular
    files, or one of them, neither a regular file nor a directory, has in
    the document the link count that the error names, which is not 1. *)
Definition bad (W : list occ) (err : Error) : Prop :=
  match err with
  | InodeConflict i =>
    ∃ o1 o2, o1 ∈ W ∧ o2 ∈ W ∧ oaddr o1 ≠ oaddr o2
             ∧ oino o1 = i ∧ oino o2 = i ∧ (¬ isFile o1 ∨ ¬ isFile o2)
  | InvalidNlink n i t =>
    ∃ o, o ∈ W ∧ oino o = i ∧ Type_ (oattr o) = t ∧ Nlink (oattr o) = n
         ∧ n ≠ 1%Z ∧ ¬ isFile o ∧ ¬ isDir o
  end.

Definition outcome (r : result) (V R : list occ) (st' : State) : Prop :=
  match r with
  | ok => stored (V ++ R) st' ∧ othersDone R st'
  | error err => bad (V ++ R) err
  | panic => True
  end.

Definition traced (e : DumpedEntry) : Prop :=
  ∀ p st r st' V,
    collect p e st = (r, st') → Inv V st →
    (∀ o, o ∈ V → ¬ p `prefix_of` oaddr o) →
    stored V st →
    outcome r V (visit (getParents st p e) p e) st'.

Lemma bad_mono (W W' : list occ) (err : Error) :
  (∀ o, o ∈ W → o ∈ W') → bad W err → bad W' err.
Proof.
  intros Hsub. destruct err as [i|n i t]; cbn.
  - intros (o1 & o2 & H1 & H2 & Hrest). exists o1, o2. auto.
  - intros (o & Ho & Hrest). exists o. auto.
Qed.

Lemma stored_mono (V V' : list occ) (st : State) :
  (∀ o, o ∈ V → o ∈ V') → stored V st → stored V' st.
Proof.
  intros Hsub Hst a Ha.
  destruct (proj1 (list_elem_of_fmap _ _ _) (Hst a Ha)) as (o & -> & Ho).
  apply list_elem_of_fmap. exists o. auto.
Qed.

Lemma stored_same (V : list occ) (st st' : State) :
  nlinks st' = nlinks st → stored V st → stored V st'.
Proof. intros Heq Hst a. rewrite Heq. apply Hst. Qed.

Lemma stored_insert (V : list occ) (st st' : State) (o : occ) (n : Z) :
  nlinks st' = <[oaddr o := n]> (nlinks st) → o ∈ V → stored V st →
  stored V st'.
Proof.
  intros Heq Ho Hst a. rewrite Heq.
  destruct (decide (oaddr o = a)) as [<-|Hne].
  - intros _. apply list_elem_of_fmap. by exists o.
  - rewrite lookup_insert_ne by done. apply Hst.
Qed.

Lemma all_sound (cs : list (string * option DumpedEntry)) :
  Forall (λ nc, from_option sound True nc.2) cs.
Proof.
  apply Forall_forall. intros [name [child|]] _; [|done].
  apply collectEntry_sound.
Qed.

Lemma range_traced (p : loc) (inode : Ino) (attr : DumpedAttr)
    (cs : list (string * option DumpedEntry)) :
  Forall (λ nc, from_option traced True nc.2) cs →
  ∀ k st r st' V n0,
    range p inode attr k cs st = (r, st') → Inv V st →
    (∀ o j, o ∈ V → (k ≤ j)%nat → ¬ p ++ [j] `prefix_of` oaddr o) →
    (∃ od, od ∈ V ∧ oaddr od = p ∧ ¬ isFile od) →
    nlinks st !! p = Some (wrap32 n0) →
    stored V st →
    outcome r V (visitEntries visit [inode] p k cs) st'.
Proof.
  induction 1 as [|[name [child|]] cs Hchild Hcs IH];
    intros k st r st' V n0 Hrun HInv Hfresh Hod Hn Hst.
  { cbn in Hrun. injection Hrun as <- <-. cbn [visitEntries outcome].
    rewrite app_nil_r. split; [done|]. by intros o ?%elem_of_nil. }
  2:{ cbn in Hrun. by injection Hrun as <- <-. }
  rewrite rangeEntries_cons in Hrun. cbv zeta in Hrun.
  cbn [visitEntries snd from_option] in *.
  set (c := p ++ [k]) in *.
  set (sta := adopted p inode k name st) in *.
  assert (Hc : ∀ o, o ∈ V → oaddr o ≠ c).
  { intros o Ho Heq. apply (Hfresh o k Ho); [lia|]. by rewrite Heq. }
  assert (Hpa : ∀ o, o ∈ V → parents sta !! oaddr o = parents st !! oaddr o).
  { intros o Ho. cbn. rewrite lookup_insert_ne; [done|].
    intros Heq. by apply (Hc o). }
  assert (HInva : Inv V sta).
  { apply (Inv_store V st); [done|done|]. intros o Ho _. split; [done|].
    by apply Hpa. }
  destruct Hod as (od & HodV & Hodp & Hodf).
  assert (Hfile_p : ∀ o, o ∈ V → isFile o → oaddr o ≠ p).
  { intros o Ho Hfile Heq. rewrite <- Hodp in Heq.
    apply (addr_inj V) in Heq; [|by destruct HInv|done..]. by subst. }
  destruct (Attr child) as [cattr|] eqn:Hcattr.
  2:{ rewrite visit_eq, Hcattr. cbn [app].
      apply (IH (S k) (warned inode name sta) r st' V n0 Hrun); try done.
      - by apply (Inv_store V sta).
      - intros o j Ho Hj. apply (Hfresh o j Ho). lia.
      - by exists od. }
  set (stb := if decide (typeFromString (Type_ cattr) = TypeDirectory)
              then _ else _) in Hrun.
  set (d := (if decide (isDirEntry (name, Some child)) then 1 else 0)%Z).
  assert (Hpb : parents stb = parents sta) by (subst stb; by case_decide).
  assert (Heb : entries stb = entries sta) by (subst stb; by case_decide).
  assert (Hnb_other : ∀ a, a ≠ p → nlinks stb !! a = nlinks sta !! a).
  { intros a Ha. subst stb. case_decide; [|done]. cbn.
    by rewrite lookup_insert_ne. }
  assert (Hnb : nlinks stb !! p = Some (wrap32 (n0 + d))).
  { subst stb d.
    destruct (decide (typeFromString (Type_ cattr) = TypeDirectory))
      as [Hdir|Hdir].
    - rewrite decide_True by by eapply isDirEntry_Some.
      cbn. rewrite lookup_insert_eq. unfold getNlink. cbn.
      rewrite Hn. cbn [from_option id]. by rewrite wrap32_add_l.
    - rewrite decide_False by (by erewrite isDirEntry_Some).
      by rewrite Z.add_0_r. }
  assert (HInvb : Inv V stb).
  { apply (Inv_store V sta); [done|done|]. intros o Ho Hfile.
    rewrite Hpb. split; [|done]. apply Hnb_other. by apply Hfile_p. }
  assert (Hstb : stored V stb).
  { subst stb. case_decide; [|done].
    eapply (stored_insert V sta _ od); [|done|done]. cbn. by rewrite Hodp. }
  assert (Hfreshc : ∀ o, o ∈ V → ¬ c `prefix_of` oaddr o).
  { intros o Ho. apply (Hfresh o k Ho). lia. }
  assert (Hparc : getParents stb c child = [inode]).
  { unfold getParents. rewrite Hpb. cbn. by rewrite lookup_insert_eq. }
  destruct (collect c child stb) as [r2 st2] eqn:Hcall.
  pose proof (Hchild c stb r2 st2 V Hcall HInvb Hfreshc Hstb) as Hout2.
  rewrite Hparc in Hout2.
  set (Wc := visit [inode] c child) in *.
  destruct r2 as [|err2|].
  - destruct (collectEntry_sound child c stb st2 V Hcall HInvb Hfreshc)
      as (HInv2 & Hframe2 & _).
    rewrite Hparc in HInv2. fold Wc in HInv2.
    destruct Hout2 as [Hst2 Hdone2].
    assert (Hfresh2 : ∀ o j, o ∈ V ++ Wc → (S k ≤ j)%nat →
              ¬ p ++ [j] `prefix_of` oaddr o).
    { intros o j [Ho|Ho]%elem_of_app Hj.
      - apply (Hfresh o j Ho). lia.
      - intros Hpre. apply visit_prefix in Ho.
        pose proof (prefix_snoc_eq _ _ _ _ Ho Hpre). lia. }
    assert (Hod2 : ∃ od, od ∈ V ++ Wc ∧ oaddr od = p ∧ ¬ isFile od).
    { exists od. split; [apply elem_of_app; by left|done]. }
    assert (Hn2 : nlinks st2 !! p = Some (wrap32 (n0 + d))).
    { destruct (Hframe2 od HodV Hodf) as [Hnod _].
      rewrite Hodp in Hnod. by rewrite Hnod. }
    pose proof (IH (S k) st2 r st' (V ++ Wc) (n0 + d)%Z Hrun HInv2 Hfresh2
                  Hod2 Hn2 Hst2) as Hout.
    destruct r as [|err|]; cbn [outcome] in Hout |- *; [|by rewrite app_assoc|done].
    destruct Hout as [Hst' Hdone'].
    split; [by rewrite app_assoc|].
    destruct (range_sound p inode attr cs (all_sound cs)
                (S k) st2 st' (V ++ Wc) (n0 + d)%Z Hrun HInv2 Hfresh2 Hod2 Hn2)
      as (_ & Hframe' & _ & _).
    intros o [Ho|Ho]%elem_of_app Hnf; [|by apply Hdone'].
    destruct (Hdone2 o Ho Hnf) as [Hps Hnl].
    destruct (Hframe' o) as [Hp' Hn'']; [apply elem_of_app; by right|done|].
    assert (Hop : oaddr o ≠ p).
    { intros Hop. apply visit_prefix in Ho. rewrite Hop in Ho.
      by apply prefix_snoc_not in Ho. }
    unfold getNlink, getParents in *. by rewrite Hp', Hn''.
  - injection Hrun as <- <-. cbn [outcome] in Hout2 |- *.
    eapply bad_mono; [|exact Hout2].
    intros o Ho. rewrite app_assoc. apply elem_of_app. by left.
  - by injection Hrun as <- <-.
Qed.

Lemma collectEntry_traced (e : DumpedEntry) : traced e.
Proof.
  induction e as [e IH] using DumpedEntry_tree_ind.
  intros p st r st' V Hrun HInv Hfresh Hst.
  rewrite collectEntry_eq in Hrun. rewrite visit_eq.
  destruct (Attr e) as [attr|] eqn:Hattr; [|by injection Hrun as <- <-].
  cbv zeta in Hrun.
  set (st0 := entered e attr st) in *.
  assert (He0 : entries st0 = entries st) by apply entries_entered.
  assert (Hn0 : nlinks st0 = nlinks st) by apply nlinks_entered.
  assert (Hp0 : parents st0 = parents st) by apply parents_entered.
  set (o := mkOcc p e attr (getParents st p e)).
  assert (Hp : ∀ o', o' ∈ V → oaddr o' ≠ oaddr o).
  { intros o' Ho' Heq. apply (Hfresh o' Ho'). by rewrite Heq. }
  assert (Hnone : nlinks st !! p = None).
  { destruct (nlinks st !! p) as [n|] eqn:Hn; [|done].
    destruct (proj1 (list_elem_of_fmap _ _ _) (Hst p ltac:(by eexists)))
      as (o' & Heq & Ho').
    by destruct (Hp o' Ho'). }
  assert (HoV : ∀ W, o ∈ V ++ o :: W).
  { intros W. apply elem_of_app. right. by left. }
  destruct (entries st0 !! Inode attr) as [q|] eqn:Hq.
  - (* a further visit of the inode *)
    rewrite He0, (inv_table _ _ HInv) in Hq.
    destruct (canon (group (Inode attr) V)) as [q0|] eqn:Hq0; [|done].
    injection Hq as <-.
    destruct (canon_group_ino _ _ _ Hq0) as [Hq0i Hq0V].
    assert (Hq0W : ∀ W, q0 ∈ V ++ W) by (intros W; apply elem_of_app; by left).
    destruct (decide (typeFromString (Type_ attr) ≠ TypeFile)) as [Hnf|Hfile].
    { injection Hrun as <- <-. cbn [outcome bad].
      exists o, q0. repeat split; try done.
      - intros Heq. by apply (Hp q0).
      - by left. }
    apply dec_stable in Hfile.
    rewrite decide_False by congruence.
    cbn [optr obj addr] in Hrun.
    rewrite (inv_attr _ _ HInv q0 Hq0V) in Hrun.
    destruct (decide (typeFromString (Type_ (oattr q0)) ≠ TypeFile))
      as [Hqnf|Hqfile].
    { injection Hrun as <- <-. cbn [outcome bad].
      exists q0, o. repeat split; try done.
      - by apply (Hp q0).
      - by left. }
    assert (Hr : r = ok).
    { by destruct (ctimeNano (oattr q0) <? ctimeNano attr)%Z;
        injection Hrun as <- _. }
    subst r. cbn [outcome]. split.
    + intros a Ha. apply list_elem_of_fmap.
      destruct (decide (a = p)) as [->|Hap]; [by exists o|].
      destruct (decide (a = oaddr q0)) as [->|Haq]; [by exists q0|].
      assert (Ha' : is_Some (nlinks st !! a)).
      { destruct (ctimeNano (oattr q0) <? ctimeNano attr)%Z;
          injection Hrun as <-; cbn in Ha;
          rewrite ?lookup_insert_ne in Ha by done; by rewrite <- Hn0. }
      destruct (proj1 (list_elem_of_fmap _ _ _) (Hst a Ha'))
        as (o' & -> & Ho').
      exists o'. split; [done|]. apply elem_of_app. by left.
    + intros o' ->%list_elem_of_singleton Hnf. by destruct Hnf.
  - (* the first visit of the inode *)
    rewrite He0 in Hq.
    set (st1 := setEntry (Inode attr) (mkPtr p e) st0) in *.
    destruct (decide (typeFromString (Type_ attr) = TypeFile)) as [Hfile|Hfile].
    { (* a regular file *)
      injection Hrun as <- <-.
      rewrite decide_False by congruence. cbn [outcome]. split.
      - eapply (stored_insert _ st _ o 1); [by cbn; rewrite Hn0|done|].
        eapply stored_mono; [|done]. intros ??. apply elem_of_app. by left.
      - intros o' ->%list_elem_of_singleton Hnf. by destruct Hnf. }
    assert (Hget : getNlink st1 p attr = Nlink attr).
    { unfold getNlink. cbn. by rewrite Hn0, Hnone. }
    destruct (decide (typeFromString (Type_ attr) = TypeDirectory))
      as [Hdir|Hdir].
    2:{ (* neither a regular file nor a directory *)
      destruct (decide (getNlink st1 p attr ≠ 1%Z)) as [Hbad|Hgood].
      - injection Hrun as <- <-. cbn [outcome bad].
        exists o. by repeat split.
      - apply dec_stable in Hgood. injection Hrun as <- <-.
        cbn [outcome]. split.
        + eapply stored_mono; [|by apply (stored_same V st)].
          intros ??. apply elem_of_app. by left.
        + intros o' ->%list_elem_of_singleton _. split.
          * intros _. unfold getParents. cbn. by rewrite Hp0.
          * intros _. cbn [oaddr oattr o]. by rewrite <- Hget. }
    (* a directory *)
    set (st2 := setNlink p 2 _) in Hrun.
    assert (He2 : entries st2 = <[Inode attr := mkPtr p e]> (entries st)).
    { subst st2. cbn. case_decide; cbn; by rewrite He0. }
    assert (Hn2 : nlinks st2 = <[p := 2%Z]> (nlinks st)).
    { subst st2. cbn. case_decide; cbn; by rewrite Hn0. }
    assert (Hp2 : ∀ a, a ≠ p → parents st2 !! a = parents st !! a).
    { intros a Ha. subst st2. cbn. case_decide; cbn;
        rewrite ?lookup_insert_ne by done; by rewrite Hp0. }
    assert (Hsame : ¬ (Inode attr = 1%Z ∨ Inode attr = TrashInode) →
              parents st2 = parents st).
    { intros Hr. subst st2. cbn. rewrite decide_False by done. cbn.
      by rewrite Hp0. }
    assert (HInv1 : Inv (V ++ [o]) st2).
    { apply (Inv_first V st _ o); try done.
      intros o' Ho' _. specialize (Hp o' Ho'). cbn in Hp.
      rewrite Hn2, lookup_insert_ne by done. split; [done|].
      by apply Hp2. }
    assert (Hfresh1 : ∀ o' j, o' ∈ V ++ [o] → (0 ≤ j)%nat →
              ¬ p ++ [j] `prefix_of` oaddr o').
    { intros o' j [Ho'| ->%list_elem_of_singleton]%elem_of_app _ Hpre.
      - apply (Hfresh o' Ho'). by eapply prefix_app_l.
      - cbn in Hpre. by apply prefix_snoc_not in Hpre. }
    assert (Hod1 : ∃ od, od ∈ V ++ [o] ∧ oaddr od = p ∧ ¬ isFile od).
    { exists o.
      split; [apply elem_of_app; right; by apply list_elem_of_singleton|].
      split; [done|]. unfold isFile. cbn. congruence. }
    assert (Hn1 : nlinks st2 !! p = Some (wrap32 2)).
    { rewrite Hn2. apply lookup_insert_eq. }
    assert (Hst1 : stored (V ++ [o]) st2).
    { eapply (stored_insert _ st _ o 2); [done| |].
      - apply elem_of_app. right. by apply list_elem_of_singleton.
      - eapply stored_mono; [|done]. intros ??. apply elem_of_app. by left. }
    pose proof (range_traced p (Inode attr) attr (Entries e) IH 0 st2 r st'
                  (V ++ [o]) 2 Hrun HInv1 Hfresh1 Hod1 Hn1 Hst1) as Hout.
    destruct r as [|err|]; cbn [outcome] in Hout |- *;
      [|by rewrite <- app_assoc in Hout|done].
    destruct Hout as [Hst' Hdone']. split; [by rewrite <- app_assoc in Hst'|].
    destruct (range_sound p (Inode attr) attr (Entries e)
                (all_sound (Entries e))
                0 st2 st' (V ++ [o]) 2 Hrun HInv1 Hfresh1 Hod1 Hn1)
      as (_ & Hframe' & _ & _).
    intros o' [->|Ho']%elem_of_cons Hnf; [|by apply Hdone'].
    split; [|by intros []].
    intros Hnr. cbn [oaddr oobj opar o].
    destruct (Hframe' o) as [Hps _].
    { apply elem_of_app; right. by apply list_elem_of_singleton. }
    { done. }
    cbn [oaddr o] in Hps. unfold getParents. rewrite Hps, Hsame; [done|].
    intros Hr. apply Hnr. by split.
Qed.

Lemma run_traced (root : DumpedEntry) :
  outcome (collect [] root init).1 [] (visits root) (collect [] root init).2.
Proof.
  destruct (collect [] root init) as [r st'] eqn:Hrun.
  apply (collectEntry_traced root [] init r st' [] Hrun Inv_init).
  - by intros o ?%elem_of_nil.
  - by intros a [? ?].
Qed.

(** X16.  A run from the empty map that ends with the error about a
    conflict names an inode that two nodes of the tree have, at two
    places, and of which one is no regular file: the error is never
    raised for links to one regular file. *)
Theorem conflict_names_two_nodes (root : DumpedEntry) (i : Ino) :
  (collect [] root init).1 = error (InodeConflict i) →
  ∃ o1 o2,
    o1 ∈ visits root ∧ o2 ∈ visits root ∧ oaddr o1 ≠ oaddr o2
    ∧ oino o1 = i ∧ oino o2 = i ∧ (¬ isFile o1 ∨ ¬ isFile o2).
Proof.
  intros Hr. pose proof (run_traced root) as Hout.
  by rewrite Hr in Hout.
Qed.

(** X17.  A run from the empty map that ends with the error about a link
    count names the inode, the type and the link count that a node of
    the tree has in the document, a node that is neither a regular file
    nor a directory and whose link count is not 1. *)
Theorem invalid_nlink_names_a_node (root : DumpedEntry) (n : Z) (i : Ino)
    (t : string) :
  (collect [] root init).1 = error (InvalidNlink n i t) →
  ∃ o,
    o ∈ visits root ∧ oino o = i ∧ Type_ (oattr o) = t
    ∧ Nlink (oattr o) = n ∧ n ≠ 1%Z ∧ ¬ isFile o ∧ ¬ isDir o.
Proof.
  intros Hr. pose proof (run_traced root) as Hout.
  by rewrite Hr in Hout.
Qed.




(** X19.  After a run without error from the empty map, a node that was
    visited and is no regular file is in the map under its inode, and
    has the parents it was visited with, a directory with the inode of
    the root or of the trash apart: those of the call for the node the
    run starts at, and the inode of the directory that holds it for
    every other.  If it is no directory either, its link count is 1. *)
Theorem others_keep_their_parent (root : DumpedEntry) (st' : State)
    (o : occ) :
  collect [] root init = (ok, st') →
  o ∈ visits root → ¬ isFile o →
  entries st' !! oino o = Some (optr o)
  ∧ (¬ (isDir o ∧ (oino o = 1%Z ∨ oino o = TrashInode)) →
     (oaddr o = [] ∧ getParents st' (oaddr o) (oobj o) = Parents root)
     ∨ ∃ d j, d ∈ visits root ∧ isDir d ∧ oaddr o = oaddr d ++ [j]
              ∧ getParents st' (oaddr o) (oobj o) = [oino d])
  ∧ (¬ isDir o → getNlink st' (oaddr o) (oattr o) = 1%Z).
Proof.
  intros Hrun Ho Hnf.
  pose proof (run_traced root) as Hout. rewrite Hrun in Hout.
  destruct Hout as [_ Hdone]. cbn [snd] in Hdone.
  destruct (run_sound root st' Hrun) as [HInv _].
  destruct (Hdone o Ho Hnf) as [Hps Hnl].
  split; [|split].
  - rewrite (inv_table _ _ HInv), (inv_single _ _ HInv o Ho Hnf). done.
  - intros Hnr. rewrite (Hps Hnr).
    destruct (visit_parent root (Parents root) [] o Ho)
      as [[Ha Hp]|(d & j & Hd & Hdir & Ha & Hp)].
    + by left.
    + right. by exists d, j.
  - intros Hnd. by destruct (Hnl Hnd).
Qed.

(** *** The names of the members *)

(** A call assigns [Name] only under the address it is called at. *)
Definition namesKept (e : DumpedEntry) : Prop :=
  ∀ p st a, (∀ j, ¬ p ++ [j] `prefix_of` a) →
    names (collect p e st).2 !! a = names st !! a.

Lemma range_namesKept (p : loc) (inode : Ino) (attr : DumpedAttr)
    (cs : list (string * option DumpedEntry)) :
  Forall (λ nc, from_option namesKept True nc.2) cs →
  ∀ k st a, (∀ j, (k ≤ j)%nat → ¬ p ++ [j] `prefix_of` a) →
    names (range p inode attr k cs st).2 !! a = names st !! a.
Proof.
  induction 1 as [|[name [child|]] cs Hchild _ IH]; intros k st a Ha;
    [done| |done].
  rewrite rangeEntries_cons. cbv zeta. cbn [snd from_option] in Hchild.
  assert (Hadopt : names (adopted p inode k name st) !! a = names st !! a).
  { cbn. rewrite lookup_insert_ne; [done|]. intros <-. by apply (Ha k). }
  assert (Hrest : ∀ j, (S k ≤ j)%nat → ¬ p ++ [j] `prefix_of` a).
  { intros j Hj. apply Ha. lia. }
  destruct (Attr child) as [cattr|].
  - set (stb := if decide (typeFromString (Type_ cattr) = TypeDirectory)
                then _ else _).
    assert (Hb : names stb = names (adopted p inode k name st))
      by (subst stb; by case_decide).
    assert (Hcall : names (collect (p ++ [k]) child stb).2 !! a
                    = names st !! a).
    { rewrite Hchild, Hb; [done|]. intros j Hpre. apply (Ha k); [lia|].
      etrans; [|exact Hpre]. by apply prefix_app_r. }
    destruct (collect (p ++ [k]) child stb) as [[|err|] st2]; [|done..].
    cbn [snd] in Hcall. by rewrite IH.
  - by rewrite IH.
Qed.

Lemma collectEntry_namesKept (e : DumpedEntry) : namesKept e.
Proof.
  induction e as [e IH] using DumpedEntry_tree_ind.
  intros p st a Ha. rewrite collectEntry_eq.
  destruct (Attr e) as [attr|]; [|done]. cbv zeta.
  assert (H0 : names (entered e attr st) = names st).
  { unfold entered. destruct showProgress; [|done]. by case_decide. }
  destruct (entries (entered e attr st) !! Inode attr) as [q|].
  - case_decide; [by rewrite <- H0|].
    destruct (Attr (obj q)); [|by rewrite <- H0].
    case_decide; [by rewrite <- H0|].
    by destruct (_ <? _)%Z; cbn; rewrite H0.
  - case_decide; [by cbn; rewrite H0|].
    case_decide; [|by case_decide; cbn; rewrite H0].
    rewrite range_namesKept; [|done|by intros j _].
    cbn. by case_decide; cbn; rewrite H0.
Qed.

Lemma all_namesKept (cs : list (string * option DumpedEntry)) :
  Forall (λ nc, from_option namesKept True nc.2) cs.
Proof.
  apply Forall_forall. intros [name [child|]] _; [|done].
  apply collectEntry_namesKept.
Qed.

(** A run without error on [e] leaves every member of every directory
    visited with its key as [Name], and none of these members is nil. *)
Definition named (e : DumpedEntry) : Prop :=
  ∀ par p st st', collect p e st = (ok, st') →
    ∀ d, d ∈ visit par p e → isDir d →
      ∀ k name member, Entries (oobj d) !! k = Some (name, member) →
        names st' !! (oaddr d ++ [k]) = Some name ∧ is_Some member.

Lemma range_named (p : loc) (inode : Ino) (attr : DumpedAttr)
    (cs : list (string * option DumpedEntry)) :
  Forall (λ nc, from_option named True nc.2) cs →
  ∀ par k st st', range p inode attr k cs st = (ok, st') →
    (∀ i name member, cs !! i = Some (name, member) →
       names st' !! (p ++ [k + i]%nat) = Some name ∧ is_Some member)
    ∧ (∀ d, d ∈ visitEntries visit par p k cs → isDir d →
         ∀ k' name member, Entries (oobj d) !! k' = Some (name, member) →
           names st' !! (oaddr d ++ [k']) = Some name ∧ is_Some member).
Proof.
  induction 1 as [|[name [child|]] cs Hchild Hcs IH]; intros par k st st' Hrun.
  { split; [done|]. by intros d ?%elem_of_nil. }
  2:{ by cbn in Hrun. }
  pose proof (range_namesKept p inode attr cs (all_namesKept cs)) as Hkept.
  rewrite rangeEntries_cons in Hrun. cbv zeta in Hrun.
  cbn [visitEntries snd from_option] in *.
  assert (Hself : ∀ j, (S k ≤ j)%nat → ¬ p ++ [j] `prefix_of` p ++ [k]).
  { intros j Hj Hpre.
    pose proof (prefix_snoc_eq p (p ++ [k]) j k Hpre ltac:(done)). lia. }
  assert (Hadopt : names (adopted p inode k name st) !! (p ++ [k])
                   = Some name).
  { cbn. apply lookup_insert_eq. }
  destruct (Attr child) as [cattr|] eqn:Hcattr.
  - set (stb := if decide (typeFromString (Type_ cattr) = TypeDirectory)
                then _ else _) in Hrun.
    assert (Hb : names stb = names (adopted p inode k name st))
      by (subst stb; by case_decide).
    pose proof (collectEntry_namesKept child (p ++ [k]) stb (p ++ [k]))
      as Hcall.
    destruct (collect (p ++ [k]) child stb) as [r st2] eqn:Hc.
    destruct r; [|discriminate..]. cbn [snd] in Hcall.
    destruct (IH par (S k) st2 st' Hrun) as [Hkeys Hdirs].
    pose proof (Hkept (S k) st2) as Hkept2. rewrite Hrun in Hkept2.
    cbn [snd] in Hkept2. split.
    + intros [|i] name' child' Hi.
      * injection Hi as <- <-. rewrite Nat.add_0_r. split; [|by eexists].
        rewrite (Hkept2 _ Hself), Hcall, Hb; [done|].
        intros j Hpre. apply prefix_length in Hpre.
        rewrite !length_app in Hpre. cbn in Hpre. lia.
      * rewrite <- Nat.add_succ_comm. by eapply Hkeys.
    + intros d [Hd|Hd]%elem_of_app Hdir k' name' child' Hk';
        [|by eapply Hdirs].
      rewrite Hkept2; [by eapply (Hchild par _ _ _ Hc)|].
      intros j Hj Hpre. apply visit_prefix in Hd.
      assert (Hpk : p ++ [k] `prefix_of` oaddr d ++ [k'])
        by (etrans; [exact Hd|by apply prefix_app_r]).
      pose proof (prefix_snoc_eq _ _ _ _ Hpk Hpre). lia.
  - destruct (IH par (S k) _ st' Hrun) as [Hkeys Hdirs].
    pose proof (Hkept (S k) (warned inode name (adopted p inode k name st)))
      as Hkept2.
    rewrite Hrun in Hkept2. cbn [snd] in Hkept2. split.
    + intros [|i] name' child' Hi.
      * injection Hi as <- <-. rewrite Nat.add_0_r. split; [|by eexists].
        by rewrite (Hkept2 _ Hself).
      * rewrite <- Nat.add_succ_comm. by eapply Hkeys.
    + rewrite visit_eq, Hcattr. cbn [app]. apply Hdirs.
Qed.

Lemma collectEntry_named (e : DumpedEntry) : named e.
Proof.
  induction e as [e IH] using DumpedEntry_tree_ind.
  intros par p st st' Hrun d Hd Hdir k name child Hk.
  rewrite collectEntry_eq in Hrun. rewrite visit_eq in Hd.
  destruct (Attr e) as [attr|] eqn:Hattr; [|discriminate].
  cbv zeta in Hrun.
  destruct (decide (typeFromString (Type_ attr) = TypeDirectory))
    as [Hisdir|Hnodir].
  2:{ apply list_elem_of_singleton in Hd. subst d. by destruct Hnodir. }
  destruct (entries (entered e attr st) !! Inode attr) as [q|].
  { rewrite decide_True in Hrun by congruence. discriminate. }
  rewrite decide_False in Hrun by congruence.
  destruct (range_named p (Inode attr) attr (Entries e) IH [Inode attr] 0 _ st'
              Hrun) as [Hkeys Hdirs].
  apply elem_of_cons in Hd as [->|Hd].
  - cbn [oaddr oobj] in *. by apply (Hkeys k name child).
  - by eapply Hdirs.
Qed.

(** X20.  After a run without error from the empty map, every member of
    every directory visited is an object and has as [Name] the key it is
    filed under in the directory, a member that was passed over for want
    of an attribute as well. *)
Theorem members_get_their_key_as_name (root : DumpedEntry) (st' : State)
    (d : occ) (k : nat) (name : string) (member : option DumpedEntry) :
  collect [] root init = (ok, st') →
  d ∈ visits root → isDir d →
  Entries (oobj d) !! k = Some (name, member) →
  ∃ child, member = Some child ∧ getName st' (oaddr d ++ [k]) child = name.
Proof.
  intros Hrun Hd Hdir Hk.
  destruct (collectEntry_named root (Parents root) [] init st' Hrun d Hd
              Hdir k name member Hk) as [Hname [child ->]].
  exists child. split; [done|]. unfold getName.
  by replace (names st' !! (oaddr d ++ [k])) with (Some name).
Qed.

(** *** What decides whether a run accepts a tree *)

(** The attributes of the nodes visited decide: those that are no
    regular files are alone with their inode, and those that are no
    directories either have the link count 1. *)
Definition regular (a : DumpedAttr) : Prop :=
  typeFromString (Type_ a) = TypeFile.

Definition alone (L : list DumpedAttr) : Prop :=
  ∀ a, a ∈ L → ¬ regular a →
    List.length (filter (λ b, Inode b = Inode a) L) = 1%nat.

Definition ones (L : list DumpedAttr) : Prop :=
  ∀ a, a ∈ L → ¬ regular a →
    typeFromString (Type_ a) ≠ TypeDirectory → Nlink a = 1%Z.

Lemma length_group (i : Ino) (V : list occ) :
  List.length (filter (λ b, Inode b = i) (oattr <$> V))
  = List.length (group i V).
Proof.
  unfold group. induction V as [|o V IH]; [done|].
  cbn [fmap list_fmap]. rewrite !filter_cons. unfold oino at 1.
  destruct (decide (Inode (oattr o) = i)); cbn [List.length];
    change (list_fmap ?A ?B ?f ?l) with (f <$> l); by rewrite IH.
Qed.

Lemma two_elements {A} (l : list A) (x y : A) :
  x ∈ l → y ∈ l → x ≠ y → (2 ≤ List.length l)%nat.
Proof.
  destruct l as [|a [|b l]]; cbn.
  - by intros ?%elem_of_nil.
  - intros ->%list_elem_of_singleton ->%list_elem_of_singleton. done.
  - lia.
Qed.

Lemma accepts_by_attributes (root : DumpedEntry) :
  objects root →
  (collect [] root init).1 = ok
  ↔ oattr <$> visits root ≠ []
    ∧ alone (oattr <$> visits root) ∧ ones (oattr <$> visits root).
Proof.
  intros Hobj.
  pose proof (run_traced root) as Hout.
  destruct (collect [] root init) as [r st'] eqn:Hrun.
  cbn [fst snd] in *. split.
  - intros ->. destruct (run_sound root st' Hrun) as [HInv _].
    destruct Hout as [_ Hdone]. split; [|split].
    + rewrite collectEntry_eq in Hrun. unfold visits. rewrite visit_eq.
      by destruct (Attr root); [|discriminate].
    + intros a (o & -> & Ho)%list_elem_of_fmap Hnf.
      rewrite length_group. fold (oino o).
      by rewrite (inv_single _ _ HInv o Ho Hnf).
    + intros a (o & -> & Ho)%list_elem_of_fmap Hnf Hnd.
      by destruct (Hdone o Ho Hnf) as [_ [_ ?]].
  - intros (Hattr & Halone & Hones).
    destruct r as [|[i|n i t]|]; [done|exfalso..].
    + destruct Hout as (o1 & o2 & H1 & H2 & Hne & Hi1 & Hi2 & Hnf).
      assert (Htwo : (2 ≤ List.length (group i (visits root)))%nat).
      { apply (two_elements _ o1 o2); [by apply group_elem..|].
        by intros ->. }
      assert (Hmem : ∀ o, o ∈ visits root → oattr o ∈ oattr <$> visits root).
      { intros o Ho. apply list_elem_of_fmap. by exists o. }
      destruct Hnf as [Hnf|Hnf].
      * pose proof (Halone (oattr o1) (Hmem o1 H1) Hnf) as Hlen.
        rewrite length_group in Hlen. fold (oino o1) in Hlen.
        rewrite Hi1 in Hlen. lia.
      * pose proof (Halone (oattr o2) (Hmem o2 H2) Hnf) as Hlen.
        rewrite length_group in Hlen. fold (oino o2) in Hlen.
        rewrite Hi2 in Hlen. lia.
    + destruct Hout as (o & Ho & _ & _ & Hn & Hn1 & Hnf & Hnd).
      apply Hn1. rewrite <- Hn. apply Hones; [|done..].
      apply list_elem_of_fmap. by exists o.
    + destruct (collectEntry_anyCall root [] init) as (_ & _ & Hsafe).
      rewrite Hrun in Hsafe. destruct Hsafe as [_ Hno].
      { by intros i q Hq. }
      apply Hno; [|done]. split; [|done].
      unfold visits in Hattr. rewrite visit_eq in Hattr.
      by destruct (Attr root); [eexists|].
Qed.

(** X21.  Among the trees whose members are all objects, none of them
    nil, whether a run from the empty map accepts a tree depends on the
    attributes of the nodes visited alone, not on the places of the nodes
    or on the order of the visits: two such trees whose visits have the
    same attributes, in any order, are both accepted or both refused, so
    that the order in which a map yields its members does not decide
    it. *)
Theorem acceptance_ignores_order (root root' : DumpedEntry) :
  objects root → objects root' →
  oattr <$> visits root ≡ₚ oattr <$> visits root' →
  (collect [] root init).1 = ok ↔ (collect [] root' init).1 = ok.
Proof.
  intros Hobj Hobj'.
  assert (Hone : ∀ L L', L ≡ₚ L' →
            L ≠ [] ∧ alone L ∧ ones L → L' ≠ [] ∧ alone L' ∧ ones L').
  { intros L L' HL (Hne & Halone & Hones). split; [|split].
    - intros ->. by apply Permutation_nil_r in HL.
    - intros a Ha Hnf. rewrite <- HL in Ha |- *. by apply Halone.
    - intros a Ha. rewrite <- HL in Ha. by apply Hones. }
  intros HL. rewrite !accepts_by_attributes by done.
  split; apply Hone; [done|]. by symmetry.
Qed.

(** *** A second run on the map of a first *)

(** X22.  A run without error on a second tree, on the map that a run
    without error on a first tree has left, goes on where the first
    ended: the keys of the map are the inodes of the nodes visited in
    either tree, and a regular file in the map has the number of its
    visits in both trees as link count, in [uint32] arithmetic, and the
    parents of all these visits as [Parents]. *)
Theorem second_run_counts_both_trees (t1 t2 : DumpedEntry) (st1 st2 : State)
    (i : Ino) :
  collect [0%nat] t1 init = (ok, st1) →
  collect [1%nat] t2 st1 = (ok, st2) →
  let V := visit (Parents t1) [0%nat] t1
           ++ visit (getParents st1 [1%nat] t2) [1%nat] t2 in
  (is_Some (entries st2 !! i) ↔ ∃ o, o ∈ V ∧ oino o = i)
  ∧ ∀ q attr,
      entries st2 !! i = Some q → Attr (obj q) = Some attr →
      typeFromString (Type_ attr) = TypeFile →
      getNlink st2 (addr q) attr
      = wrap32 (Z.of_nat (List.length (group i V)))
      ∧ getParents st2 (addr q) (obj q) = concat (opar <$> group i V).
Proof.
  intros Hrun1 Hrun2 V.
  destruct (collectEntry_sound t1 [0%nat] init st1 [] Hrun1 Inv_init)
    as (HInv1 & _ & _).
  { by intros o ?%elem_of_nil. }
  cbn [app] in HInv1.
  destruct (collectEntry_sound t2 [1%nat] st1 st2 _ Hrun2 HInv1)
    as (HInv & _ & _).
  { intros o Ho Hpre. apply visit_prefix in Ho.
    by pose proof (prefix_snoc_eq [] (oaddr o) 0 1 Ho Hpre). }
  change (getParents init [0%nat] t1) with (Parents t1) in HInv.
  fold V in HInv. split.
  - rewrite (inv_table _ _ HInv). split.
    + intros [q Hq].
      destruct (canon (group i V)) as [o|] eqn:Ho; [|done].
      exists o. by destruct (canon_group_ino _ _ _ Ho).
    + intros (o & Ho & Hi).
      destruct (canon (group i V)) as [q|] eqn:Hq; [by eexists|].
      apply canon_None in Hq.
      assert (Hin : o ∈ group i V) by by apply group_elem.
      rewrite Hq in Hin. by apply elem_of_nil in Hin.
  - intros q attr Hq Hattr Hfile. rewrite (inv_table _ _ HInv) in Hq.
    destruct (canon (group i V)) as [o|] eqn:Ho; [|done].
    injection Hq as <-. destruct (canon_group_ino _ _ _ Ho) as [_ HoV].
    cbn [optr obj addr] in *.
    rewrite (inv_attr _ _ HInv o HoV) in Hattr. injection Hattr as <-.
    by apply (inv_files _ _ HInv i o Ho).
Qed.

End facts.

(** *** Runs on small trees *)

(** The type tags and the inode of the trash as JuiceFS declares them,
    for the examples. *)
Definition exampleTypes (s : string) : FileType :=
  if decide (s = "regular"%string) then TypeFile
  else if decide (s = "directory"%string) then TypeDirectory
  else if decide (s = "symlink"%string) then TypeSymlink
  else if decide (s = "fifo"%string) then TypeFIFO
  else if decide (s = "socket"%string) then TypeSocket
  else TypeDevice.

Definition exampleTrash : Ino := 9223372032828243968%Z.

Definition attrOf (inode : Ino) (type : string) (ctime nlink : Z)
    : DumpedAttr :=
  mkAttr inode type 420 0 0 ctime ctime ctime 0 0 0 nlink 0 0.

(** A node whose members are objects. *)
Definition node (attr : option DumpedAttr)
    (members : list (string * DumpedEntry)) : DumpedEntry :=
  mkEntry EmptyString [] attr EmptyString [] []
          ((λ nc, (nc.1, Some nc.2)) <$> members).

Definition fileNode (inode : Ino) (ctime : Z) : DumpedEntry :=
  node (Some (attrOf inode "regular" ctime 1)) [].

Definition linkNode (inode : Ino) (nlink : Z) : DumpedEntry :=
  node (Some (attrOf inode "symlink" 0 nlink)) [].

Definition dirNode (inode : Ino) (members : list (string * DumpedEntry))
    : DumpedEntry :=
  node (Some (attrOf inode "directory" 0 17)) members.

Definition run (showProgress : bool) (root : DumpedEntry) : result * State :=
  collectEntry exampleTypes exampleTrash showProgress [] root init.

(** Inode 5 under x and under y, changed at 100 and at 200. *)
Definition twoLinks : DumpedEntry :=
  dirNode 1 [("x"%string, dirNode 2 [("a"%string, fileNode 5 100)]);
             ("y"%string, dirNode 3 [("b"%string, fileNode 5 200)])].

(** Inode 5 twice, the second with a time after the year 2262. *)
Definition farFuture : DumpedEntry :=
  dirNode 1 [("a"%string, fileNode 5 0);
             ("b"%string, fileNode 5 9223372037)].

(** The symbolic link 7 twice, first with the link count 2. *)
Definition badLinkTwice : DumpedEntry :=
  dirNode 1 [("a"%string, linkNode 7 2); ("b"%string, linkNode 7 1)].

(** The symbolic link 7 under two directories. *)
Definition linkTwice : DumpedEntry :=
  dirNode 1 [("a"%string, linkNode 7 1);
             ("d"%string, dirNode 2 [("b"%string, linkNode 7 1)])].

(** A member without attribute before a regular file. *)
Definition withGap : DumpedEntry :=
  dirNode 1 [("x"%string, node None []); ("f"%string, fileNode 2 0)].

(** A tree that starts at the directory of the trash. *)
Definition trashTree : DumpedEntry :=
  dirNode exampleTrash [("f"%string, fileNode 2 0)].

Lemma hardlinks_merge_witness :
  let st' := (run true twoLinks).2 in
  let g := group 5 (visits exampleTypes twoLinks) in
  ∃ q g1 g2,
    entries st' !! 5%Z = Some (optr q) ∧ Attr (oobj q) = Some (oattr q)
    ∧ g = g1 ++ q :: g2
    ∧ (∀ o, o ∈ g1 → (ctimeNano (oattr o) < ctimeNano (oattr q))%Z)
    ∧ (∀ o, o ∈ g2 → (ctimeNano (oattr o) ≤ ctimeNano (oattr q))%Z)
    ∧ getNlink st' (oaddr q) (oattr q) = wrap32 (Z.of_nat (List.length g))
    ∧ getParents st' (oaddr q) (oobj q) = concat (opar <$> g)
    ∧ (∀ o, o ∈ g → oaddr o ≠ [] →
         ∃ d j, d ∈ visits exampleTypes twoLinks ∧ isDir exampleTypes d
                ∧ oaddr o = oaddr d ++ [j] ∧ opar o = [oino d])
    ∧ ((Z.of_nat (List.length g) < 2 ^ 32)%Z →
       getNlink st' (oaddr q) (oattr q) = Z.of_nat (List.length g))
    ∧ ((∀ o, o ∈ g → inRange (oattr o)) →
       (∀ o, o ∈ g1 → (nanos (oattr o) < nanos (oattr q))%Z)
       ∧ (∀ o, o ∈ g2 → (nanos (oattr o) ≤ nanos (oattr q))%Z)).
Proof.
  apply (hardlinks_merge exampleTypes exampleTrash true twoLinks
           (run true twoLinks).2 5%Z).
  - vm_compute. reflexivity.
  - vm_compute. lia.
  - intros o Ho. vm_compute in Ho.
    repeat (apply elem_of_cons in Ho as [->|Ho]); try reflexivity.
    by apply elem_of_nil in Ho.
Defined.

(** C2, beyond the range of [int64].  The second visit of inode 5 has the
    greater ctime*1e9+ctimensec, and the map keeps the first. *)
Lemma hardlink_time_overflow :
  (run false farFuture).1 = ok
  ∧ entries (run false farFuture).2 !! 5%Z
    = Some (mkPtr [0%nat] (fileNode 5 0))
  ∧ (Ctime (attrOf 5 "regular" 0 1) * 10 ^ 9
     + Ctimensec (attrOf 5 "regular" 0 1)
     < Ctime (attrOf 5 "regular" 9223372037 1) * 10 ^ 9
       + Ctimensec (attrOf 5 "regular" 9223372037 1))%Z.
Proof. repeat split; vm_compute; reflexivity. Qed.

Lemma directory_link_count_witness :
  let n := (2 + countDirs exampleTypes (Entries twoLinks))%Z in
  getNlink (run true twoLinks).2 [] (attrOf 1 "directory" 0 17) = wrap32 n
  ∧ ((n < 2 ^ 32)%Z →
     getNlink (run true twoLinks).2 [] (attrOf 1 "directory" 0 17) = n).
Proof.
  apply (directory_link_count exampleTypes exampleTrash true twoLinks
           (run true twoLinks).2 1%Z (mkPtr [] twoLinks)).
  - vm_compute. reflexivity.
  - vm_compute. reflexivity.
  - reflexivity.
  - reflexivity.
Defined.

Lemma root_and_trash_parent_witness :
  getParents (run true trashTree).2 [] trashTree = [1%Z].
Proof.
  apply (root_and_trash_parent exampleTypes exampleTrash true trashTree
           (run true trashTree).2 exampleTrash (mkPtr [] trashTree)
           (attrOf exampleTrash "directory" 0 17)).
  - vm_compute. reflexivity.
  - vm_compute. reflexivity.
  - reflexivity.
  - reflexivity.
  - by right.
Defined.

(** C5, the trash.  The directory of the trash has the root as parent,
    and not itself. *)
Lemma trash_parent_is_root :
  (run false trashTree).1 = ok
  ∧ entries (run false trashTree).2 !! exampleTrash
    = Some (mkPtr [] trashTree)
  ∧ getParents (run false trashTree).2 [] trashTree = [1%Z]
  ∧ [1%Z] ≠ [exampleTrash].
Proof. repeat split; try (vm_compute; reflexivity). discriminate. Qed.



Lemma other_types_need_nlink_one_witness :
  ((collectEntry exampleTypes exampleTrash true [0%nat] (linkNode 7 2) init).1
   = error (InvalidNlink 2 7 "symlink") ↔ 2%Z ≠ 1%Z)
  ∧ ((collectEntry exampleTypes exampleTrash true [0%nat] (linkNode 7 2)
        init).1 = ok ↔ 2%Z = 1%Z)
  ∧ ∀ err', (collectEntry exampleTypes exampleTrash true [0%nat]
               (linkNode 7 2) init).1 = error err' →
            err' = InvalidNlink 2 7 "symlink".
Proof.
  apply (other_types_need_nlink_one exampleTypes exampleTrash true [0%nat]
           (linkNode 7 2) (attrOf 7 "symlink" 0 2) init).
  - reflexivity.
  - reflexivity.
  - discriminate.
  - discriminate.
Defined.

Lemma collectEntry_keeps_on_error_witness :
  is_Some (entries (run true badLinkTwice).2 !! 7%Z)
  ∧ entries init !! 7%Z = None
  ∧ is_Some (entries (run true badLinkTwice).2 !! 1%Z).
Proof.
  destruct (collectEntry_keeps_on_error exampleTypes exampleTrash true []
              badLinkTwice init) as (_ & Hreached & Herr).
  destruct (Herr 2%Z 7%Z "symlink"%string) as (Hnone & q & attr & Hq & _).
  - vm_compute. reflexivity.
  - split; [exists q; exact Hq|]. split; [exact Hnone|].
    apply (Hreached (mkOcc [] badLinkTwice (attrOf 1 "directory" 0 17) [])).
    vm_compute. constructor.
Defined.

Lemma skipped_members_only_warn_witness :
  warnings (run true withGap).2 = [(1%Z, "x"%string)]
  ∧ progress (run true withGap).2 = [(2%Z, 1%Z); (0%Z, 1%Z)].
Proof.
  destruct (skipped_members_only_warn exampleTypes exampleTrash true)
    as [_ Hrun].
  destruct (Hrun withGap (run true withGap).2) as (Hw & Hp & _).
  - vm_compute. reflexivity.
  - split; [exact Hw|exact Hp].
Defined.

(** C8, the count.  One member is passed over and two nodes are visited:
    the callback is called twice, once for the root and once for the
    file, and completes two; the member passed over is one of the two
    members that the call for the root announces, and the warning is all
    that tells it from the other.  Without callback the run returns nil
    and nothing else. *)
Lemma skipped_member_not_counted :
  (run true withGap).1 = ok
  ∧ warnings (run true withGap).2 = [(1%Z, "x"%string)]
  ∧ progress (run true withGap).2 = [(2%Z, 1%Z); (0%Z, 1%Z)]
  ∧ foldr Z.add 0%Z (snd <$> progress (run true withGap).2) = 2%Z
  ∧ (run false withGap).1 = ok
  ∧ progress (run false withGap).2 = [].
Proof. repeat split; vm_compute; reflexivity. Qed.

(** A regular file that the document gives the link count 3, and a
    symbolic link. *)
Definition loneFile : DumpedEntry :=
  dirNode 1 [("f"%string, node (Some (attrOf 2 "regular" 0 3)) [])].

Definition withLink : DumpedEntry :=
  dirNode 1 [("l"%string, linkNode 7 1)].

(** The visits of the two. *)
Definition loneVisit : occ :=
  mkOcc [0%nat] (node (Some (attrOf 2 "regular" 0 3)) [])
        (attrOf 2 "regular" 0 3) [1%Z].

Definition linkVisit : occ :=
  mkOcc [0%nat] (linkNode 7 1) (attrOf 7 "symlink" 0 1) [1%Z].



Lemma table_holds_visited_inodes_witness :
  (is_Some (entries (run true twoLinks).2 !! 5%Z)
   ↔ ∃ o, o ∈ visits exampleTypes twoLinks ∧ oino o = 5%Z)
  ∧ ∀ q, entries (run true twoLinks).2 !! 5%Z = Some q →
      ∃ o, o ∈ visits exampleTypes twoLinks ∧ oino o = 5%Z ∧ q = optr o
           ∧ Attr (obj q) = Some (oattr o).
Proof.
  apply (table_holds_visited_inodes exampleTypes exampleTrash true twoLinks
           (run true twoLinks).2 5%Z).
  vm_compute. reflexivity.
Defined.

Lemma single_file_link_count_witness :
  entries (run true loneFile).2 !! oino loneVisit = Some (optr loneVisit)
  ∧ getNlink (run true loneFile).2 (oaddr loneVisit) (oattr loneVisit) = 1%Z
  ∧ getParents (run true loneFile).2 (oaddr loneVisit) (oobj loneVisit)
    = opar loneVisit.
Proof.
  apply (single_file_link_count exampleTypes exampleTrash true loneFile
           (run true loneFile).2 loneVisit).
  - vm_compute. reflexivity.
  - vm_compute. reflexivity.
  - reflexivity.
Defined.

Lemma progress_counts_skipped_members_witness :
  (announced (run true withGap).2 + 1
   = completed (run true withGap).2
     + Z.of_nat (List.length (warnings (run true withGap).2)))%Z
  ∧ completed (run true withGap).2
    = Z.of_nat (List.length (visits exampleTypes withGap)).
Proof.
  apply (progress_counts_skipped_members exampleTypes exampleTrash true
           withGap (run true withGap).2).
  - reflexivity.
  - vm_compute. reflexivity.
Defined.

Lemma conflict_names_two_nodes_witness :
  ∃ o1 o2,
    o1 ∈ visits exampleTypes linkTwice ∧ o2 ∈ visits exampleTypes linkTwice
    ∧ oaddr o1 ≠ oaddr o2 ∧ oino o1 = 7%Z ∧ oino o2 = 7%Z
    ∧ (¬ isFile exampleTypes o1 ∨ ¬ isFile exampleTypes o2).
Proof.
  apply (conflict_names_two_nodes exampleTypes exampleTrash true linkTwice
           7%Z).
  vm_compute. reflexivity.
Defined.

Lemma invalid_nlink_names_a_node_witness :
  ∃ o,
    o ∈ visits exampleTypes badLinkTwice ∧ oino o = 7%Z
    ∧ Type_ (oattr o) = "symlink"%string ∧ Nlink (oattr o) = 2%Z ∧ 2%Z ≠ 1%Z
    ∧ ¬ isFile exampleTypes o ∧ ¬ isDir exampleTypes o.
Proof.
  apply (invalid_nlink_names_a_node exampleTypes exampleTrash true
           badLinkTwice 2%Z 7%Z "symlink").
  vm_compute. reflexivity.
Defined.

Lemma others_keep_their_parent_witness :
  entries (run true withLink).2 !! oino linkVisit = Some (optr linkVisit)
  ∧ (¬ (isDir exampleTypes linkVisit
        ∧ (oino linkVisit = 1%Z ∨ oino linkVisit = exampleTrash)) →
     (oaddr linkVisit = []
      ∧ getParents (run true withLink).2 (oaddr linkVisit) (oobj linkVisit)
        = Parents withLink)
     ∨ ∃ d j, d ∈ visits exampleTypes withLink ∧ isDir exampleTypes d
              ∧ oaddr linkVisit = oaddr d ++ [j]
              ∧ getParents (run true withLink).2 (oaddr linkVisit)
                  (oobj linkVisit) = [oino d])
  ∧ (¬ isDir exampleTypes linkVisit →
     getNlink (run true withLink).2 (oaddr linkVisit) (oattr linkVisit)
     = 1%Z).
Proof.
  apply (others_keep_their_parent exampleTypes exampleTrash true withLink
           (run true withLink).2 linkVisit).
  - vm_compute. reflexivity.
  - vm_compute. repeat constructor.
  - discriminate.
Defined.

Lemma members_get_their_key_as_name_witness :
  ∃ child,
    Some (node None []) = Some child
    ∧ getName (run true withGap).2 [0%nat] child = "x"%string.
Proof.
  apply (members_get_their_key_as_name exampleTypes exampleTrash true withGap
           (run true withGap).2
           (mkOcc [] withGap (attrOf 1 "directory" 0 17) []) 0 "x"
           (Some (node None []))).
  - vm_compute. reflexivity.
  - vm_compute. repeat constructor.
  - reflexivity.
  - reflexivity.
Defined.

(** The same members in two orders. *)
Definition fileThenLink : DumpedEntry :=
  dirNode 1 [("f"%string, fileNode 2 0); ("l"%string, linkNode 7 1)].

Definition linkThenFile : DumpedEntry :=
  dirNode 1 [("l"%string, linkNode 7 1); ("f"%string, fileNode 2 0)].

Lemma acceptance_ignores_order_witness :
  (run true fileThenLink).1 = ok ↔ (run true linkThenFile).1 = ok.
Proof.
  apply (acceptance_ignores_order exampleTypes exampleTrash true fileThenLink
           linkThenFile).
  - vm_compute. repeat split.
  - vm_compute. repeat split.
  - vm_compute. apply perm_skip, perm_swap.
Defined.

(** A tree and the tree of the trash, with a link to inode 5 in each. *)
Definition liveTree : DumpedEntry :=
  dirNode 1 [("a"%string, fileNode 5 100)].

Definition deadTree : DumpedEntry :=
  dirNode exampleTrash [("b"%string, fileNode 5 200)].

Definition afterLive : State :=
  (collectEntry exampleTypes exampleTrash false [0%nat] liveTree init).2.

Definition afterDead : State :=
  (collectEntry exampleTypes exampleTrash false [1%nat] deadTree afterLive).2.

Lemma second_run_counts_both_trees_witness :
  getNlink afterDead [1%nat; 0%nat] (attrOf 5 "regular" 200 1) = 2%Z
  ∧ getParents afterDead [1%nat; 0%nat] (fileNode 5 200)
    = [1%Z; exampleTrash].
Proof.
  destruct (second_run_counts_both_trees exampleTypes exampleTrash false
              liveTree deadTree afterLive afterDead 5%Z) as [_ Hfile].
  - vm_compute. reflexivity.
  - vm_compute. reflexivity.
  - destruct (Hfile (mkPtr [1%nat; 0%nat] (fileNode 5 200))
                (attrOf 5 "regular" 200 1)) as [Hn Hp].
    + vm_compute. reflexivity.
    + reflexivity.
    + reflexivity.
    + split; [exact Hn|exact Hp].
Defined.

End CollectorSpec.

(** ** The attribute mapper *)

Module Meta.
Import Dump Collector.

(** Modelled from the spec: the struct [Attr] is declared outside dump.go.
    These are the fields that [dumpAttr] and [loadAttr] name, with [Flags]
    and [Parent], which the comments in [loadAttr] name as not set; the
    type tag is a [FileType]. *)
Record Attr := mkAttr {
  Flags : Z;
  Typ : FileType;
  Mode : Z;
  Uid : Z;
  Gid : Z;
  Rdev : Z;
  Atime : Z;
  Mtime : Z;
  Ctime : Z;
  Atimensec : Z;
  Mtimensec : Z;
  Ctimensec : Z;
  Nlink : Z;
  Length : Z;
  Parent : Ino;
  Full : bool;
}.

End Meta.

Module Mapper.
Import Dump Collector.

Section mapper.

(** [typeToString] and [typeFromString] are declared outside dump.go. *)
Variable typeToString : FileType → string.
Variable typeFromString : string → FileType.

(** [dumpAttr] on a pointer that is not nil: a field that the composite
    literal does not name is zero, and so is [Inode]. *)
Definition dumpAttr (a : Meta.Attr) : DumpedAttr :=
  let d :=
    {| Inode := 0;
       Type_ := typeToString (Meta.Typ a);
       Mode := Meta.Mode a;
       Uid := Meta.Uid a;
       Gid := Meta.Gid a;
       Atime := Meta.Atime a;
       Mtime := Meta.Mtime a;
       Ctime := Meta.Ctime a;
       Atimensec := Meta.Atimensec a;
       Mtimensec := Meta.Mtimensec a;
       Ctimensec := Meta.Ctimensec a;
       Nlink := Meta.Nlink a;
       Length := 0;
       Rdev := Meta.Rdev a |} in
  if decide (Meta.Typ a = TypeFile) then
    mkAttr (Inode d) (Type_ d) (Mode d) (Uid d) (Gid d) (Atime d) (Mtime d)
           (Ctime d) (Atimensec d) (Mtimensec d) (Ctimensec d) (Nlink d)
           (Meta.Length a) (Rdev d)
  else d.

(** [loadAttr] on a pointer that is not nil. *)
Definition loadAttr (d : DumpedAttr) : Meta.Attr :=
  {| Meta.Flags := 0;
     Meta.Typ := typeFromString (Type_ d);
     Meta.Mode := Mode d;
     Meta.Uid := Uid d;
     Meta.Gid := Gid d;
     Meta.Rdev := Rdev d;
     Meta.Atime := Atime d;
     Meta.Mtime := Mtime d;
     Meta.Ctime := Ctime d;
     Meta.Atimensec := Atimensec d;
     Meta.Mtimensec := Mtimensec d;
     Meta.Ctimensec := Ctimensec d;
     Meta.Nlink := Nlink d;
     Meta.Length := 0;
     Meta.Parent := 0;
     Meta.Full := true |}.

End mapper.

End Mapper.

(** ** Properties of the attribute mapper *)

Module MapperSpec.
Import Dump Collector Mapper.

(** X10.  An attribute that is dumped and loaded again comes back with
    every field but four: the flags, the length and the parent are zero,
    also for a regular file, whose length was dumped, and the attribute
    is marked as full. *)
Theorem load_after_dump_drops_length
    (typeToString : FileType → string) (typeFromString : string → FileType)
    (a : Meta.Attr) :
  typeFromString (typeToString (Meta.Typ a)) = Meta.Typ a →
  loadAttr typeFromString (dumpAttr typeToString a)
  = Meta.mkAttr 0 (Meta.Typ a) (Meta.Mode a) (Meta.Uid a) (Meta.Gid a)
      (Meta.Rdev a) (Meta.Atime a) (Meta.Mtime a) (Meta.Ctime a)
      (Meta.Atimensec a) (Meta.Mtimensec a) (Meta.Ctimensec a)
      (Meta.Nlink a) 0 0 true.
Proof.
  intros Htyp. unfold loadAttr, dumpAttr.
  destruct (decide (Meta.Typ a = TypeFile)); cbn; by rewrite Htyp.
Qed.

(** X11.  An attribute that is loaded and dumped again comes back with
    every field but two: the inode and the length are zero. *)
Theorem dump_after_load_drops_inode
    (typeToString : FileType → string) (typeFromString : string → FileType)
    (d : DumpedAttr) :
  typeToString (typeFromString (Type_ d)) = Type_ d →
  dumpAttr typeToString (loadAttr typeFromString d)
  = mkAttr 0 (Type_ d) (Mode d) (Uid d) (Gid d) (Atime d) (Mtime d) (Ctime d)
      (Atimensec d) (Mtimensec d) (Ctimensec d) (Nlink d) 0 (Rdev d).
Proof.
  intros Htyp. unfold loadAttr, dumpAttr. cbn.
  destruct (decide (typeFromString (Type_ d) = TypeFile)); cbn;
    by rewrite Htyp.
Qed.

(** The names of the type tags, for the examples. *)
Definition exampleNames (t : FileType) : string :=
  match t with
  | TypeFile => "regular"
  | TypeDirectory => "directory"
  | TypeSymlink => "symlink"
  | TypeFIFO => "fifo"
  | TypeSocket => "socket"
  | TypeDevice => "chardev"
  end.

Definition fileAttr : Meta.Attr :=
  Meta.mkAttr 1 TypeFile 420 500 500 0 10 20 30 1 2 3 1 4096 7 false.

Lemma load_after_dump_drops_length_witness :
  loadAttr CollectorSpec.exampleTypes (dumpAttr exampleNames fileAttr)
  = Meta.mkAttr 0 TypeFile 420 500 500 0 10 20 30 1 2 3 1 0 0 true
  ∧ Length (dumpAttr exampleNames fileAttr) = 4096%Z.
Proof.
  split; [|reflexivity].
  apply (load_after_dump_drops_length exampleNames CollectorSpec.exampleTypes
           fileAttr).
  reflexivity.
Defined.

Lemma dump_after_load_drops_inode_witness :
  dumpAttr exampleNames
    (loadAttr CollectorSpec.exampleTypes
       (CollectorSpec.attrOf 5 "regular" 100 2))
  = mkAttr 0 "regular" 420 0 0 100 100 100 0 0 0 2 0 0.
Proof.
  apply (dump_after_load_drops_inode exampleNames CollectorSpec.exampleTypes
           (CollectorSpec.attrOf 5 "regular" 100 2)).
  reflexivity.
Defined.

End MapperSpec.
